(** * niiRender: the volumetric ray-marching renderer of [src/main/code.js]

    A shallow embedding of the host program (volume ingestion, GPU upload,
    uniform packing, orbit camera) and of the WGSL fragment kernel, with the
    properties of the specification stated over it.

    JavaScript numbers are IEEE-754 binary64 values: they are modelled by
    Rocq's primitive [float], whose operations are the same round-to-nearest
    binary64 operations.  A [Float32Array] element and a WGSL [f32] are
    binary32 values; they are modelled by the binary64 value they denote
    (every binary32 value is a binary64 value), and every store or operation
    on them rounds with [fround].

    The language puts no bound on the number of arguments of a call, on
    the length of a string or on that of a typed array; engines do, and
    throw a RangeError past it.  The parser is given twice: as the language
    defines it ([parseVoxelTxt]), for what it computes, and with the
    limits of an engine ([OnEngine.parseVoxelTxt]), for whether it
    returns. *)

From Stdlib Require Import Floats.
From Stdlib Require Import ZArith List String Ascii Bool Lia.
Import ListNotations.

Set Warnings "-inexact-float,-register-all".
Local Open Scope Z_scope.

(* ================================================================== *)
(** * Part I: definitions                                              *)
(* ================================================================== *)

(** ** JavaScript built-ins used by the program *)

Module JS.

(** *** Numbers *)

(** IEEE classification of a number, read off its specification. *)
Definition isNaN (x : float) : bool :=
  match Prim2SF x with S754_nan => true | _ => false end.

(** [Number.isFinite]. *)
Definition isFinite (x : float) : bool :=
  match Prim2SF x with
  | S754_zero _ | S754_finite _ _ _ => true
  | _ => false
  end.

(** [!x] for a number [x]: true for NaN, +0 and -0. *)
Definition not_ (x : float) : bool :=
  match Prim2SF x with
  | S754_nan | S754_zero _ => true
  | _ => false
  end.

(** Finite and not a zero. *)
Definition isNonzeroFinite (x : float) : bool :=
  match Prim2SF x with
  | S754_finite _ _ _ => true
  | _ => false
  end.

(** Finite and above zero. *)
Definition isPositiveFinite (x : float) : bool :=
  match Prim2SF x with
  | S754_finite false _ _ => true
  | _ => false
  end.

(** [Math.max(a, b)]: NaN when either argument is NaN, and +0 is larger
    than -0. *)
Definition Math_max (a b : float) : float :=
  if (a <? b)%float then b
  else if (b <? a)%float then a
  else if (a =? b)%float then (if get_sign a then b else a)
  else nan.

(** [Math.min(a, b)]: NaN when either argument is NaN, and -0 is smaller
    than +0. *)
Definition Math_min (a b : float) : float :=
  if (a <? b)%float then a
  else if (b <? a)%float then b
  else if (a =? b)%float then (if get_sign a then a else b)
  else nan.

(** [Math.PI]. *)
Definition Math_PI : float := 3.141592653589793%float.

(** [Math.fround]: the nearest binary32 value (ties to even), as the
    binary64 value that denotes it.  Precision 24, exponent bound 128. *)
Definition fround (x : float) : float :=
  match Prim2SF x with
  | S754_finite s m e => SF2Prim (binary_round 24 128 s m e)
  | _ => x
  end.

(** The 32 bits of a binary32 value, for a number that [fround] returned. *)
Definition f32_bits (x : float) : Z :=
  match Prim2SF x with
  | S754_zero s => if s then 0x80000000 else 0
  | S754_infinity s => if s then 0xFF800000 else 0x7F800000
  | S754_nan => 0x7FC00000
  | S754_finite s m e =>
      let sign := if s then 0x80000000 else 0 in
      match binary_round 24 128 s m e with
      | S754_finite _ m' e' =>
          if Z.pos (digits2_pos m') =? 24
          then sign + Z.shiftl (e' + 150) 23 + (Z.pos m' - 0x800000)
          else sign + Z.pos m'
      | S754_infinity _ => sign + 0x7F800000
      | _ => sign
      end
  end.

(** A byte of a buffer, as a number below 256. *)
Definition byte := Z.

(** The four bytes of a [Float32Array] element in the buffer: least
    significant first, as on every platform WebGPU runs on. *)
Definition f32_byte (k : Z) (x : float) : byte :=
  Z.land (Z.shiftr (f32_bits x) (8 * k)) 255.

Definition f32_bytes (x : float) : list byte :=
  [ f32_byte 0 x; f32_byte 1 x; f32_byte 2 x; f32_byte 3 x ].

(** *** Values: a number or [undefined] *)

Inductive value : Type :=
| undefined
| number (x : float).

(** [ToNumber] on these values. *)
Definition ToNumber (v : value) : float :=
  match v with
  | undefined => nan
  | number x => x
  end.

(** [a[i]] on an array of numbers: [undefined] past the end. *)
Definition get (a : list float) (i : nat) : value :=
  match nth_error a i with
  | Some x => number x
  | None => undefined
  end.

(** *** Strings: sequences of code units below 256 *)

(** White space and line terminators, as [trim] strips them:
    TAB, LF, VT, FF, CR, SP and NBSP. *)
Definition is_white_space (c : ascii) : bool :=
  let n := N_of_ascii c in
  (((9 <=? n) && (n <=? 13)) || (n =? 32) || (n =? 160))%N.

Fixpoint trimStart (s : string) : string :=
  match s with
  | EmptyString => EmptyString
  | String c s' => if is_white_space c then trimStart s' else s
  end.

Fixpoint trimEnd (s : string) : string :=
  match s with
  | EmptyString => EmptyString
  | String c s' =>
      match trimEnd s' with
      | EmptyString => if is_white_space c then EmptyString else String c EmptyString
      | r => String c r
      end
  end.

(** [s.trim()]. *)
Definition trim (s : string) : string := trimEnd (trimStart s).

(** [s.startsWith(p)]. *)
Definition startsWith (s p : string) : bool := String.prefix p s.

(** [s.split(c)] for a separator of one code unit: never empty, one more
    piece than there are separators. *)
Fixpoint split (c : ascii) (s : string) : list string :=
  match s with
  | EmptyString => [EmptyString]
  | String a s' =>
      if Ascii.eqb a c then EmptyString :: split c s'
      else match split c s' with
           | piece :: rest => String a piece :: rest
           | [] => [String a EmptyString]
           end
  end.

(** *** [Number(s)]: the StringNumericLiteral grammar *)

Definition digit_value (base : Z) (c : ascii) : option Z :=
  let n := Z.of_N (N_of_ascii c) in
  let d :=
    if (48 <=? n) && (n <=? 57) then Some (n - 48)
    else if (97 <=? n) && (n <=? 102) then Some (n - 87)
    else if (65 <=? n) && (n <=? 70) then Some (n - 55)
    else None in
  match d with
  | Some v => if v <? base then Some v else None
  | None => None
  end.

(** The longest prefix of digits: its value on top of [acc], how many
    digits it has on top of [cnt], and the rest. *)
Fixpoint scan_digits (base acc : Z) (cnt : nat) (s : string) : Z * nat * string :=
  match s with
  | EmptyString => (acc, cnt, s)
  | String c s' =>
      match digit_value base c with
      | Some d => scan_digits base (acc * base + d) (S cnt) s'
      | None => (acc, cnt, s)
      end
  end.

(** The binary64 value nearest to [(-1)^neg * m * 10^e10]. *)
Definition decimal_to_float (neg : bool) (m e10 : Z) : float :=
  match m with
  | Z0 => if neg then (-0)%float else 0%float
  | Zpos p =>
      if 0 <=? e10
      then SF2Prim (binary_normalize prec emax (cond_Zopp neg (Z.pos p * 10 ^ e10)) 0 false)
      else SF2Prim (SFdiv prec emax (S754_finite neg p 0)
                      (S754_finite false (Z.to_pos (10 ^ (- e10))) 0))
  | Zneg _ => nan
  end.

(** ExponentPart, or nothing, up to the end of the string. *)
Definition parse_exponent (s : string) : option Z :=
  match s with
  | EmptyString => Some 0
  | String c r =>
      if Ascii.eqb c "e" || Ascii.eqb c "E" then
        let '(neg, r') :=
          match r with
          | String "+" r' => (false, r')
          | String "-" r' => (true, r')
          | _ => (false, r)
          end in
        match scan_digits 10 0 0 r' with
        | (_, O, _) => None
        | (v, _, EmptyString) => Some (if neg then - v else v)
        | _ => None
        end
      else None
  end.

(** StrUnsignedDecimalLiteral. *)
Definition parse_unsigned_decimal (neg : bool) (s : string) : option float :=
  if String.eqb s "Infinity" then Some (if neg then neg_infinity else infinity)
  else
    let '(ip, ic, r1) := scan_digits 10 0 0 s in
    let '(m, fc, r2) :=
      match r1 with
      | String "." r => scan_digits 10 ip 0 r
      | _ => (ip, O, r1)
      end in
    match ic, fc with
    | O, O => None
    | _, _ =>
        match parse_exponent r2 with
        | Some e => Some (decimal_to_float neg m (e - Z.of_nat fc))
        | None => None
        end
    end.

(** NonDecimalIntegerLiteral: [0x], [0o] and [0b] digits. *)
Definition parse_non_decimal (s : string) : option float :=
  match s with
  | String "0" (String p r) =>
      let base :=
        if Ascii.eqb p "x" || Ascii.eqb p "X" then Some 16
        else if Ascii.eqb p "o" || Ascii.eqb p "O" then Some 8
        else if Ascii.eqb p "b" || Ascii.eqb p "B" then Some 2
        else None in
      match base with
      | Some b =>
          match scan_digits b 0 0 r with
          | (_, O, _) => None
          | (v, _, EmptyString) => Some (SF2Prim (binary_normalize prec emax v 0 false))
          | _ => None
          end
      | None => None
      end
  | _ => None
  end.

(** StrNumericLiteral, for a trimmed, non-empty string. *)
Definition parse_numeric_literal (s : string) : option float :=
  match parse_non_decimal s with
  | Some x => Some x
  | None =>
      match s with
      | String "+" r => parse_unsigned_decimal false r
      | String "-" r => parse_unsigned_decimal true r
      | _ => parse_unsigned_decimal false s
      end
  end.

(** [Number(s)]: +0 for an empty or blank string, NaN for one that is not
    a numeric literal. *)
Definition Number (s : string) : float :=
  match trim s with
  | EmptyString => 0%float
  | t => match parse_numeric_literal t with
         | Some x => x
         | None => nan
         end
  end.

End JS.

Import JS.
Local Open Scope string_scope.
Local Open Scope Z_scope.

(** The code unit the input is split at, and the token separator. *)
Definition LF : ascii := "010"%char.
Definition SP : ascii := " "%char.

(** ** Outcomes of asynchronous functions: a value, or a rejection *)

Inductive error : Type :=
| TypeError
| SyntaxError
| RangeError.

Inductive result (A : Type) : Type :=
| Ok (a : A)
| Throw (e : error).
Arguments Ok {A} a.
Arguments Throw {A} e.

(** [new Float32Array(a)] for an array of numbers: every element is
    rounded to binary32. *)
Definition Float32Array (a : list float) : list float := map fround a.

(** ** Volume ingestion *)

(** What both loaders return: [{ voxel, dims, affine }]. *)
Record Volume : Type := {
  voxel : list float;      (* Float32Array *)
  dims : list value;       (* a three-element array *)
  affine : list float      (* Float32Array *)
}.

(** *** Form A: sectioned text ([parseVoxelTxt]) *)

(** What [fetch(url)] followed by [res.text()] gives: a rejection, or the
    text of the body. *)
Inductive text_response : Type :=
| text_failed
| text_body (text : string).

(** The variables of the scanning loop. *)
Record scan : Type := {
  section : option string;       (* [null] before the first marker *)
  shape : list float;
  affineValues : list float;
  voxelLine : string
}.

Definition scan0 : scan :=
  {| section := None; shape := []; affineValues := []; voxelLine := "" |}.

(** [line.trim().split(' ').map(Number)]. *)
Definition numbers_of (line : string) : list float :=
  map Number (split SP (trim line)).

(** [section === name]. *)
Definition section_is (st : scan) (name : string) : bool :=
  match section st with
  | Some s => String.eqb s name
  | None => false
  end.

(** One turn of [for (const line of lines)]. *)
Definition scan_line (st : scan) (line : string) : scan :=
  if startsWith line "--" then
    {| section := Some (trim line); shape := shape st;
       affineValues := affineValues st; voxelLine := voxelLine st |}
  else if section_is st "--header--" then
    {| section := section st; shape := shape st ++ numbers_of line;
       affineValues := affineValues st; voxelLine := voxelLine st |}
  else if section_is st "--affine--" then
    {| section := section st; shape := shape st;
       affineValues := affineValues st ++ numbers_of line;
       voxelLine := voxelLine st |}
  else if section_is st "--voxel--" then
    {| section := section st; shape := shape st;
       affineValues := affineValues st;
       voxelLine := voxelLine st ++ trim line ++ " " |}
  else st.

Definition scan_lines (text : string) : scan :=
  fold_left scan_line (split LF text) scan0.

(** The body of [parseVoxelTxt] once the text is there. *)
Definition parseVoxelText (text : string) : Volume :=
  let st := scan_lines text in
  let affine := Float32Array (affineValues st) in
  let voxel := Float32Array (map Number (split SP (trim (voxelLine st)))) in
  let dims := [get (shape st) 1; get (shape st) 2; get (shape st) 0] in
  {| voxel := voxel; dims := dims; affine := affine |}.

Definition parseVoxelTxt (res : text_response) : result Volume :=
  match res with
  | text_failed => Throw TypeError
  | text_body text => Ok (parseVoxelText text)
  end.

(** *** Form A on an engine with limits *)

(** What an engine bounds: the arguments one call takes (the spread of
    [push(...tokens)] passes one per token), the code units of a string,
    and the elements of a typed array. Past a bound the engine throws a
    RangeError. *)
Class Engine : Type := {
  argument_limit : Z;
  string_limit : Z;
  typed_array_limit : Z
}.

Module OnEngine.

(** [a.push(...items)]. *)
Definition push_spread `{Engine} (a items : list float) : result (list float) :=
  if Z.of_nat (List.length items) <=? argument_limit
  then Ok (a ++ items)%list
  else Throw RangeError.

(** [a + b] on strings. *)
Definition string_append `{Engine} (a b : string) : result string :=
  if Z.of_nat (String.length (a ++ b)) <=? string_limit
  then Ok (a ++ b)
  else Throw RangeError.

(** [new Float32Array(a)] for an array of numbers. *)
Definition Float32Array_from `{Engine} (a : list float) : result (list float) :=
  if Z.of_nat (List.length a) <=? typed_array_limit
  then Ok (Float32Array a)
  else Throw RangeError.

(** One turn of [for (const line of lines)]. *)
Definition scan_line `{Engine} (st : scan) (line : string) : result scan :=
  if startsWith line "--" then
    Ok {| section := Some (trim line); shape := shape st;
          affineValues := affineValues st; voxelLine := voxelLine st |}
  else if section_is st "--header--" then
    match push_spread (shape st) (numbers_of line) with
    | Throw e => Throw e
    | Ok shape' =>
        Ok {| section := section st; shape := shape';
              affineValues := affineValues st; voxelLine := voxelLine st |}
    end
  else if section_is st "--affine--" then
    match push_spread (affineValues st) (numbers_of line) with
    | Throw e => Throw e
    | Ok affineValues' =>
        Ok {| section := section st; shape := shape st;
              affineValues := affineValues'; voxelLine := voxelLine st |}
    end
  else if section_is st "--voxel--" then
    match string_append (trim line) " " with
    | Throw e => Throw e
    | Ok piece =>
        match string_append (voxelLine st) piece with
        | Throw e => Throw e
        | Ok voxelLine' =>
            Ok {| section := section st; shape := shape st;
                  affineValues := affineValues st; voxelLine := voxelLine' |}
        end
    end
  else Ok st.

(** The loop, which ends at the first throw. *)
Fixpoint scan_from `{Engine} (lines : list string) (st : scan) : result scan :=
  match lines with
  | [] => Ok st
  | line :: rest =>
      match scan_line st line with
      | Throw e => Throw e
      | Ok st' => scan_from rest st'
      end
  end.

(** The body of [parseVoxelTxt] once the text is there. *)
Definition parseVoxelText `{Engine} (text : string) : result Volume :=
  match scan_from (split LF text) scan0 with
  | Throw e => Throw e
  | Ok st =>
      match Float32Array_from (affineValues st) with
      | Throw e => Throw e
      | Ok affine =>
          match Float32Array_from (map Number (split SP (trim (voxelLine st)))) with
          | Throw e => Throw e
          | Ok voxel =>
              Ok {| voxel := voxel;
                    dims := [get (shape st) 1; get (shape st) 2; get (shape st) 0];
                    affine := affine |}
          end
      end
  end.

Definition parseVoxelTxt `{Engine} (res : text_response) : result Volume :=
  match res with
  | text_failed => Throw TypeError
  | text_body text => parseVoxelText text
  end.

End OnEngine.

(** *** Form B: structured document ([loadVolumeJSON]) *)

(** The arrays of the document: numbers, nested in arrays. *)
Inductive json : Type :=
| jnum (x : float)
| jarr (l : list json).

(** The document: [shape] is an array of numbers, [affine] and
    [voxel_data] are arrays of numbers and arrays. *)
Record document : Type := {
  doc_shape : list float;
  doc_affine : list json;
  doc_voxel_data : list json
}.

(** What [fetch(path)] followed by [res.json()] gives. *)
Inductive json_response : Type :=
| json_failed
| json_invalid
| json_body (doc : document).

(** [a.flat(depth)]. *)
Fixpoint flat (depth : nat) (a : list json) : list json :=
  match depth with
  | O => a
  | S d =>
      flat_map (fun e => match e with
                         | jarr l => flat d l
                         | jnum _ => [e]
                         end) a
  end.

(** [ToNumber] of an element: an array goes through its string, which is
    empty for [[]], the element's for one element and has a comma (so is
    no number) for more; the string of -0 is ["0"]. *)
Fixpoint json_ToNumber (e : json) : float :=
  match e with
  | jnum x => x
  | jarr [] => 0%float
  | jarr [jnum x] => if not_ x && negb (isNaN x) then 0%float else x
  | jarr [e'] => json_ToNumber e'
  | jarr _ => nan
  end.

(** [new Float32Array(a)] for an array of the document. *)
Definition Float32Array_of_json (a : list json) : list float :=
  map (fun e => fround (json_ToNumber e)) a.

Definition loadVolumeDocument (doc : document) : Volume :=
  let voxel := Float32Array_of_json (flat 3 (doc_voxel_data doc)) in
  let dimsRaw := doc_shape doc in
  let dims := [get dimsRaw 1; get dimsRaw 2; get dimsRaw 0] in
  let affine := Float32Array_of_json (flat 1 (doc_affine doc)) in
  {| voxel := voxel; dims := dims; affine := affine |}.

Definition loadVolumeJSON (res : json_response) : result Volume :=
  match res with
  | json_failed => Throw TypeError
  | json_invalid => Throw SyntaxError
  | json_body doc => Ok (loadVolumeDocument doc)
  end.

(** ** The graphics backend and the page, as [main] uses them *)

(** Truncation toward zero of a finite number; 0 for the others. *)
Definition truncate (x : float) : Z :=
  match Prim2SF x with
  | S754_finite s m e => cond_Zopp s (Z.shiftl (Z.pos m) e)
  | _ => 0
  end.

(** WebIDL [[EnforceRange] unsigned long] (GPUIntegerCoordinate, GPUSize32):
    the conversion throws a TypeError unless the number is finite and its
    truncation lies in [0, 2^32 - 1]. *)
Definition enforce_range_u32 (v : value) : bool :=
  let x := ToNumber v in
  isFinite x && (0 <=? truncate x) && (truncate x <=? 4294967295).

(** The calls on the device and its queue that the properties are about. *)
Inductive gpu_call : Type :=
| createTexture (size : list value)
| writeTexture (data : list float) (bytesPerRow : float) (rowsPerImage : value)
               (size : list value)
| createBuffer (size : float)
| writeBuffer (data : list byte)
| draw (vertexCount instanceCount firstVertex firstInstance : Z)
| submit.

(** A computation on the backend: the calls made so far go in, the outcome
    and the calls made come out. A throw keeps the calls made before it. *)
Definition M (A : Type) : Type := list gpu_call -> result A * list gpu_call.

Definition ret {A} (a : A) : M A := fun log => (Ok a, log).

Definition throw {A} (e : error) : M A := fun log => (Throw e, log).

Definition bind {A B} (m : M A) (k : A -> M B) : M B :=
  fun log =>
    match m log with
    | (Ok a, log') => k a log'
    | (Throw e, log') => (Throw e, log')
    end.

Definition call (c : gpu_call) : M unit := fun log => (Ok tt, (log ++ [c])%list).

(** A call whose arguments WebIDL converts first: the call is made, and
    throws when a conversion fails. *)
Definition call_checked (c : gpu_call) (ok : bool) : M unit :=
  bind (call c) (fun _ => if ok then ret tt else throw TypeError).

Notation "x <- m ;; k" := (bind m (fun x => k))
  (at level 61, m at next level, right associativity).
Notation "m ;; k" := (bind m (fun _ => k))
  (at level 61, right associativity).

(** What the program takes from outside the repository: the trigonometric
    functions of [Math], which the language leaves to the implementation,
    and the functions of gl-matrix's [mat4] that [render] calls on a fresh
    [mat4.create()]. *)
Class Externals : Type := {
  Math_sin : float -> float;
  Math_cos : float -> float;
  (* mat4.perspective(mat4.create(), fovy, aspect, near, far) *)
  mat4_perspective : float -> float -> float -> float -> list float;
  (* mat4.lookAt(mat4.create(), eye, center, up) *)
  mat4_lookAt : list float -> list float -> list float -> list float;
  (* mat4.multiply(mat4.create(), a, b) *)
  mat4_multiply : list float -> list float -> list float
}.

(** [a[i]] in arithmetic: a missing element is [undefined], so NaN. *)
Definition elt (a : list float) (i : nat) : float := ToNumber (get a i).

(** gl-matrix is not part of the repository; line 1 imports its version
    3.4.3, and [mat4.invert] is written after that source. This is the
    determinant [mat4.invert] computes, from the six 2x2 minors of the
    first two and of the last two columns. *)
Definition mat4_determinant (a : list float) : float :=
  (let a00 := elt a 0 in let a01 := elt a 1 in let a02 := elt a 2 in let a03 := elt a 3 in
  let a10 := elt a 4 in let a11 := elt a 5 in let a12 := elt a 6 in let a13 := elt a 7 in
  let a20 := elt a 8 in let a21 := elt a 9 in let a22 := elt a 10 in let a23 := elt a 11 in
  let a30 := elt a 12 in let a31 := elt a 13 in let a32 := elt a 14 in let a33 := elt a 15 in
  let b00 := a00 * a11 - a01 * a10 in
  let b01 := a00 * a12 - a02 * a10 in
  let b02 := a00 * a13 - a03 * a10 in
  let b03 := a01 * a12 - a02 * a11 in
  let b04 := a01 * a13 - a03 * a11 in
  let b05 := a02 * a13 - a03 * a12 in
  let b06 := a20 * a31 - a21 * a30 in
  let b07 := a20 * a32 - a22 * a30 in
  let b08 := a20 * a33 - a23 * a30 in
  let b09 := a21 * a32 - a22 * a31 in
  let b10 := a21 * a33 - a23 * a31 in
  let b11 := a22 * a33 - a23 * a32 in
  b00 * b11 - b01 * b10 + b02 * b09 + b03 * b08 - b04 * b07 + b05 * b06)%float.

(** [mat4.invert(mat4.create(), a)]: [None] is the [null] it returns when
    [!det]; the entries are stored in the Float32Array [mat4.create()]
    made. *)
Definition mat4_invert (a : list float) : option (list float) :=
  (let a00 := elt a 0 in let a01 := elt a 1 in let a02 := elt a 2 in let a03 := elt a 3 in
  let a10 := elt a 4 in let a11 := elt a 5 in let a12 := elt a 6 in let a13 := elt a 7 in
  let a20 := elt a 8 in let a21 := elt a 9 in let a22 := elt a 10 in let a23 := elt a 11 in
  let a30 := elt a 12 in let a31 := elt a 13 in let a32 := elt a 14 in let a33 := elt a 15 in
  let b00 := a00 * a11 - a01 * a10 in
  let b01 := a00 * a12 - a02 * a10 in
  let b02 := a00 * a13 - a03 * a10 in
  let b03 := a01 * a12 - a02 * a11 in
  let b04 := a01 * a13 - a03 * a11 in
  let b05 := a02 * a13 - a03 * a12 in
  let b06 := a20 * a31 - a21 * a30 in
  let b07 := a20 * a32 - a22 * a30 in
  let b08 := a20 * a33 - a23 * a30 in
  let b09 := a21 * a32 - a22 * a31 in
  let b10 := a21 * a33 - a23 * a31 in
  let b11 := a22 * a33 - a23 * a32 in
  let det := mat4_determinant a in
  if not_ det then None
  else
    let det := 1 / det in
    Some (Float32Array
      [ (a11 * b11 - a12 * b10 + a13 * b09) * det;
        (a02 * b10 - a01 * b11 - a03 * b09) * det;
        (a31 * b05 - a32 * b04 + a33 * b03) * det;
        (a22 * b04 - a21 * b05 - a23 * b03) * det;
        (a12 * b08 - a10 * b11 - a13 * b07) * det;
        (a00 * b11 - a02 * b08 + a03 * b07) * det;
        (a32 * b02 - a30 * b05 - a33 * b01) * det;
        (a20 * b05 - a22 * b02 + a23 * b01) * det;
        (a10 * b10 - a11 * b08 + a13 * b06) * det;
        (a01 * b08 - a00 * b10 - a03 * b06) * det;
        (a30 * b04 - a31 * b02 + a33 * b00) * det;
        (a21 * b02 - a20 * b04 - a23 * b00) * det;
        (a11 * b07 - a10 * b09 - a12 * b06) * det;
        (a00 * b09 - a01 * b07 + a02 * b06) * det;
        (a31 * b01 - a30 * b03 - a32 * b00) * det;
        (a20 * b03 - a21 * b01 + a22 * b00) * det ]))%float.

(** *** The uniform buffer *)

Definition uniformBufferSize : float := (64 + 64 + 32)%float.

(** [new Float32Array(n)]: [n] zeros. *)
Definition Float32Array_new (n : float) : list float :=
  repeat 0%float (Z.to_nat (truncate n)).

(** [target.set(source, offset)] on a Float32Array: a TypeError for a
    [null] source, a RangeError when the source does not fit. *)
Definition TypedArray_set (target : list float) (source : option (list float))
    (offset : nat) : result (list float) :=
  match source with
  | None => Throw TypeError
  | Some src =>
      if (offset + List.length src <=? List.length target)%nat
      then Ok (firstn offset target ++ Float32Array src
                 ++ skipn (offset + List.length src) target)%list
      else Throw RangeError
  end.

(** [target[i] = x] on a Float32Array: nothing happens past the end. *)
Definition TypedArray_store (target : list float) (i : nat) (x : float) : list float :=
  if (i <? List.length target)%nat
  then (firstn i target ++ fround x :: skipn (S i) target)%list
  else target.

(** [uniformData.buffer]: the bytes behind the array. *)
Definition buffer_of (a : list float) : list byte := flat_map f32_bytes a.

(** Lines 213 to 218 of [render]: the uniform data of a frame. *)
Definition uniformData_of (invAffine invViewProj : option (list float))
    (dims : list value) (low high : float) : result (list float) :=
  let uniformData := Float32Array_new (uniformBufferSize / 4) in
  match TypedArray_set uniformData invAffine 0 with
  | Throw e => Throw e
  | Ok uniformData =>
      match TypedArray_set uniformData invViewProj 16 with
      | Throw e => Throw e
      | Ok uniformData =>
          match TypedArray_set uniformData (Some (map ToNumber dims)) 32 with
          | Throw e => Throw e
          | Ok uniformData =>
              let uniformData := TypedArray_store uniformData 35 low in
              let uniformData := TypedArray_store uniformData 36 high in
              Ok uniformData
          end
      end
  end.

(** *** The variables [main]'s callbacks close over *)

Record Closure : Type := {
  canvas_width : float;
  canvas_height : float;
  main_dims : list value;          (* the parameter [dims] *)
  main_affine : list float;        (* the parameter [affine] *)
  cameraTheta : float;
  cameraPhi : float;
  cameraRadius : float;
  cameraTarget : list float;
  dragging : bool;
  lastX : float;
  lastY : float;
  scheduled : bool                 (* [render] awaits an animation frame *)
}.

Definition with_scheduled (b : bool) (c : Closure) : Closure :=
  {| canvas_width := canvas_width c; canvas_height := canvas_height c;
     main_dims := main_dims c; main_affine := main_affine c;
     cameraTheta := cameraTheta c; cameraPhi := cameraPhi c;
     cameraRadius := cameraRadius c; cameraTarget := cameraTarget c;
     dragging := dragging c; lastX := lastX c; lastY := lastY c;
     scheduled := b |}.

(** Lines 164 to 170: the state the camera starts in. *)
Definition initial_closure (width height : float) (dims : list value)
    (affine : list float) : Closure :=
  {| canvas_width := width; canvas_height := height;
     main_dims := dims; main_affine := affine;
     cameraTheta := (Math_PI / 2)%float;
     cameraPhi := (Math_PI / 2)%float;
     cameraRadius := 2.5%float;
     cameraTarget := [0.5; 0.5; 0.5]%float;
     dragging := false; lastX := 0%float; lastY := 0%float;
     scheduled := false |}.

(** *** The interaction controller: the four listeners *)

Inductive Event : Type :=
| mousedown (clientX clientY : float)
| mouseup
| mousemove (clientX clientY : float)
| wheel (deltaY : float).

Definition on_mousedown (clientX clientY : float) (c : Closure) : Closure :=
  {| canvas_width := canvas_width c; canvas_height := canvas_height c;
     main_dims := main_dims c; main_affine := main_affine c;
     cameraTheta := cameraTheta c; cameraPhi := cameraPhi c;
     cameraRadius := cameraRadius c; cameraTarget := cameraTarget c;
     dragging := true; lastX := clientX; lastY := clientY;
     scheduled := scheduled c |}.

Definition on_mouseup (c : Closure) : Closure :=
  {| canvas_width := canvas_width c; canvas_height := canvas_height c;
     main_dims := main_dims c; main_affine := main_affine c;
     cameraTheta := cameraTheta c; cameraPhi := cameraPhi c;
     cameraRadius := cameraRadius c; cameraTarget := cameraTarget c;
     dragging := false; lastX := lastX c; lastY := lastY c;
     scheduled := scheduled c |}.

Definition on_mousemove (clientX clientY : float) (c : Closure) : Closure :=
  if negb (dragging c) then c
  else
    (let dx := clientX - lastX c in
     let dy := clientY - lastY c in
     let cameraTheta' := cameraTheta c - dx * 0.005 in
     let cameraPhi' := cameraPhi c - dy * 0.005 in
     let cameraPhi'' := Math_max 0.05 (Math_min (Math_PI - 0.05) cameraPhi') in
     {| canvas_width := canvas_width c; canvas_height := canvas_height c;
        main_dims := main_dims c; main_affine := main_affine c;
        cameraTheta := cameraTheta'; cameraPhi := cameraPhi'';
        cameraRadius := cameraRadius c; cameraTarget := cameraTarget c;
        dragging := dragging c; lastX := clientX; lastY := clientY;
        scheduled := scheduled c |})%float.

Definition on_wheel (deltaY : float) (c : Closure) : Closure :=
  (let cameraRadius' := cameraRadius c * (1 + deltaY * 0.001) in
   let cameraRadius'' := Math_max 0.5 (Math_min 10.0 cameraRadius') in
   {| canvas_width := canvas_width c; canvas_height := canvas_height c;
      main_dims := main_dims c; main_affine := main_affine c;
      cameraTheta := cameraTheta c; cameraPhi := cameraPhi c;
      cameraRadius := cameraRadius''; cameraTarget := cameraTarget c;
      dragging := dragging c; lastX := lastX c; lastY := lastY c;
      scheduled := scheduled c |})%float.

Definition handle (e : Event) (c : Closure) : Closure :=
  match e with
  | mousedown x y => on_mousedown x y c
  | mouseup => on_mouseup c
  | mousemove x y => on_mousemove x y c
  | wheel d => on_wheel d c
  end.

(** *** The camera model and a frame: [render] *)

Record Matrices : Type := {
  proj : list float;
  view : list float;
  viewProj : list float;
  invViewProj : option (list float)
}.

(** Lines 195 to 205 of [render]. *)
Definition deriveMatrices `{Externals} (c : Closure) : Matrices :=
  (let aspect := canvas_width c / canvas_height c in
   let proj := mat4_perspective (Math_PI / 4) aspect 0.1 100 in
   let cx := elt (cameraTarget c) 0
             + cameraRadius c * Math_sin (cameraPhi c) * Math_cos (cameraTheta c) in
   let cy := elt (cameraTarget c) 1 + cameraRadius c * Math_cos (cameraPhi c) in
   let cz := elt (cameraTarget c) 2
             + cameraRadius c * Math_sin (cameraPhi c) * Math_sin (cameraTheta c) in
   let eye := [cx; cy; cz] in
   let view := mat4_lookAt eye (cameraTarget c) [0; 1; 0] in
   let viewProj := mat4_multiply proj view in
   let invViewProj := mat4_invert viewProj in
   {| proj := proj; view := view; viewProj := viewProj;
      invViewProj := invViewProj |})%float.

(** One call of [render]; [low] and [high] are what [parseFloat] read from
    the two sliders. The last line asks for the next animation frame. *)
Definition render `{Externals} (low high : float) (c : Closure) : M Closure :=
  let m := deriveMatrices c in
  let invAffine := mat4_invert (main_affine c) in
  match uniformData_of invAffine (invViewProj m) (main_dims c) low high with
  | Throw e => throw e
  | Ok uniformData =>
      call (writeBuffer (buffer_of uniformData)) ;;
      call (draw 6 1 0 0) ;;
      call submit ;;
      ret (with_scheduled true c)
  end.

(** *** [main] *)

(** The page [main] runs in: whether [requestAdapter] gives an adapter, the
    size of the canvas, and the sliders when the first frame is drawn. *)
Record Page : Type := {
  adapter : bool;
  clientWidth : float;
  clientHeight : float;
  slider_low : float;
  slider_high : float
}.

(** [main(voxelData, dims, affine)], up to its return. *)
Definition main `{Externals} (page : Page) (voxelData : list float)
    (dims : list value) (affine : list float) : M Closure :=
  (if adapter page then ret tt else throw TypeError) ;;
  call_checked (createTexture dims) (forallb enforce_range_u32 dims) ;;
  let bytesPerRow := (ToNumber (nth 0 dims undefined) * 4)%float in
  let rowsPerImage := nth 1 dims undefined in
  call_checked (writeTexture voxelData bytesPerRow rowsPerImage dims)
    (enforce_range_u32 (number bytesPerRow) && enforce_range_u32 rowsPerImage
     && forallb enforce_range_u32 dims) ;;
  call (createBuffer uniformBufferSize) ;;
  render (slider_low page) (slider_high page)
    (initial_closure (clientWidth page) (clientHeight page) dims affine).


(** *** What happens after [main]: animation frames and input events *)

Inductive tick : Type :=
| animation_frame (low high : float)
| dispatch (e : Event).

(** A throw inside a callback ends that callback only; [render] then has
    not asked for another frame. *)
Definition on_tick `{Externals} (st : Closure * list gpu_call) (t : tick)
    : Closure * list gpu_call :=
  let '(c, log) := st in
  match t with
  | animation_frame low high =>
      if scheduled c then
        match render low high (with_scheduled false c) log with
        | (Ok c', log') => (c', log')
        | (Throw _, log') => (with_scheduled false c, log')
        end
      else (c, log)
  | dispatch e => (handle e c, log)
  end.

Definition session `{Externals} (ticks : list tick) (st : Closure * list gpu_call)
    : Closure * list gpu_call :=
  fold_left on_tick ticks st.

(** ** The ray-marching kernel: [fsMain] of the WGSL module *)

Module Kernel.

(** [f32] arithmetic: the binary64 operation on two binary32 values,
    rounded to binary32, is the binary32 operation. *)
Definition add (a b : float) : float := fround (a + b).
Definition sub (a b : float) : float := fround (a - b).
Definition mul (a b : float) : float := fround (a * b).
Definition div (a b : float) : float := fround (a / b).

(** WGSL [max] and [min]: the second argument when it is the larger
    (the smaller), the first otherwise. *)
Definition max (e1 e2 : float) : float := if (e1 <? e2)%float then e2 else e1.
Definition min (e1 e2 : float) : float := if (e2 <? e1)%float then e2 else e1.

Definition clamp (e low high : float) : float := min (max e low) high.

(** WGSL [smoothstep(low, high, x)]. *)
Definition smoothstep (low high x : float) : float :=
  let t := clamp (div (sub x low) (sub high low)) 0 1 in
  mul (mul t t) (sub 3 (mul 2 t)).

Record vec3f : Type := Vec3f { vx : float; vy : float; vz : float }.

Record vec3u : Type := Vec3u { ux : Z; uy : Z; uz : Z }.

(** [vec3f(e)]. *)
Definition splat (e : float) : vec3f := Vec3f e e e.

Definition vadd (a b : vec3f) : vec3f :=
  Vec3f (add (vx a) (vx b)) (add (vy a) (vy b)) (add (vz a) (vz b)).
Definition vsub (a b : vec3f) : vec3f :=
  Vec3f (sub (vx a) (vx b)) (sub (vy a) (vy b)) (sub (vz a) (vz b)).
Definition vmul (a b : vec3f) : vec3f :=
  Vec3f (mul (vx a) (vx b)) (mul (vy a) (vy b)) (mul (vz a) (vz b)).
(** [t * v] for a scalar [t]. *)
Definition scale (t : float) (v : vec3f) : vec3f :=
  Vec3f (mul t (vx v)) (mul t (vy v)) (mul t (vz v)).

(** [all(a >= b)] and [all(a <= b)]. *)
Definition all_ge (a b : vec3f) : bool :=
  (vx b <=? vx a)%float && (vy b <=? vy a)%float && (vz b <=? vz a)%float.
Definition all_le (a b : vec3f) : bool :=
  (vx a <=? vx b)%float && (vy a <=? vy b)%float && (vz a <=? vz b)%float.

(** [u32(e)] for an [f32]: truncation toward zero, clamped to the range
    of [u32]. *)
Definition to_u32 (e : float) : Z :=
  match Prim2SF e with
  | S754_finite _ _ _ => Z.min (Z.max 0 (truncate e)) 4294967295
  | S754_infinity false => 4294967295
  | _ => 0
  end.

(** [vec3u(v)]. *)
Definition to_vec3u (v : vec3f) : vec3u :=
  Vec3u (to_u32 (vx v)) (to_u32 (vy v)) (to_u32 (vz v)).

(** [struct Uniforms]; a [mat4x4<f32>] is its sixteen entries, one column
    after the other. *)
Record Uniforms : Type := {
  invAffine : list float;
  invViewProj : list float;
  volumeDims : vec3f;
  thresholdLow : float;
  thresholdHigh : float
}.

(** The bound texture: the [r] channel [textureLoad] reads at a texel. *)
Definition texture_3d : Type := vec3u -> float.

(** The inputs of the fragment stage the kernel reads. *)
Record VertexOut : Type := {
  rayOrigin : vec3f;
  rayDir : vec3f
}.

(** [(m * vec4f(v, 1.0)).xyz]: row [r] of the product is the sum over the
    columns [c] of [m[c][r] * v[c]]. *)
Definition transform_point (m : list float) (v : vec3f) : vec3f :=
  let row r :=
    add (add (add (mul (elt m r) (vx v)) (mul (elt m (4 + r)) (vy v)))
             (mul (elt m (8 + r)) (vz v)))
        (mul (elt m (12 + r)) 1) in
  Vec3f (row 0%nat) (row 1%nat) (row 2%nat).

Definition maxDistance : float := 2.0%float.
Definition stepSize : float := fround 0.005.

(** [voxelPos] at the marching step [t]. *)
Definition voxelPos_at (u : Uniforms) (inp : VertexOut) (t : float) : vec3f :=
  let worldPos := vadd (rayOrigin inp) (scale t (rayDir inp)) in
  transform_point (invAffine u) worldPos.

(** The body of the loop. The state is [sum] and, for the properties on
    texture fetches, the texels [textureLoad] was called with so far. *)
Definition march_step (u : Uniforms) (volume : texture_3d) (inp : VertexOut)
    (st : float * list vec3u) (t : float) : float * list vec3u :=
  let '(sum, fetched) := st in
  let voxelPos := voxelPos_at u inp t in
  if all_ge voxelPos (splat 0) && all_le voxelPos (splat 1) then
    let texCoord := vmul voxelPos (vsub (volumeDims u) (splat 1)) in
    if all_ge texCoord (splat 0)
       && all_le texCoord (vsub (volumeDims u) (splat 1)) then
      let d := volume (to_vec3u texCoord) in
      let weight := smoothstep (thresholdLow u) (thresholdHigh u) d in
      (add sum (mul (mul d weight) (fround 0.0001)),
       (fetched ++ [to_vec3u texCoord])%list)
    else st
  else st.

(** [for (var t = 0.0; t < maxDistance; t += stepSize)], with a bound on
    the number of turns; [None] when the bound is reached. *)
Fixpoint march (fuel : nat) (u : Uniforms) (volume : texture_3d) (inp : VertexOut)
    (t : float) (st : float * list vec3u) : option (float * list vec3u) :=
  match fuel with
  | O => None
  | S fuel' =>
      if (t <? maxDistance)%float
      then march fuel' u volume inp (add t stepSize) (march_step u volume inp st t)
      else Some st
  end.

(** The values [t] takes, under the same bound. *)
Fixpoint march_times (fuel : nat) (t : float) : option (list float) :=
  match fuel with
  | O => None
  | S fuel' =>
      if (t <? maxDistance)%float
      then option_map (cons t) (march_times fuel' (add t stepSize))
      else Some []
  end.

(** [fsMain]: the colour written, and the texels fetched on the way. *)
Definition fsMain (u : Uniforms) (volume : texture_3d) (inp : VertexOut)
    : option ((float * float * float * float) * list vec3u) :=
  match march 1000 u volume inp 0 (0%float, []) with
  | Some (sum, fetched) => Some ((sum, sum, sum, 1%float), fetched)
  | None => None
  end.

(** *** The layout of [struct Uniforms] in the uniform address space *)

Inductive wgsl_type : Type := f32 | vec3_f32 | mat4x4_f32.

Definition AlignOf (t : wgsl_type) : Z :=
  match t with f32 => 4 | vec3_f32 => 16 | mat4x4_f32 => 16 end.

Definition SizeOf (t : wgsl_type) : Z :=
  match t with f32 => 4 | vec3_f32 => 12 | mat4x4_f32 => 64 end.

Definition roundUp (k n : Z) : Z := ((n + k - 1) / k) * k.

(** The members of [struct Uniforms], in the order declared. *)
Definition Uniforms_members : list (string * wgsl_type) :=
  [ ("invAffine", mat4x4_f32); ("invViewProj", mat4x4_f32);
    ("volumeDims", vec3_f32); ("thresholdLow", f32); ("thresholdHigh", f32) ].

(** Offsets of the members: each at the next multiple of its alignment
    past the end of the one before. *)
Fixpoint offsets_from (next : Z) (members : list (string * wgsl_type))
    : list (string * Z) :=
  match members with
  | [] => []
  | (name, t) :: rest =>
      let off := roundUp (AlignOf t) next in
      (name, off) :: offsets_from (off + SizeOf t) rest
  end.

Definition OffsetOfMembers (members : list (string * wgsl_type)) : list (string * Z) :=
  offsets_from 0 members.

(** Size of the structure: past the last member, up to the largest
    alignment. *)
Definition SizeOfStruct (members : list (string * wgsl_type)) : Z :=
  let align := fold_right (fun m a => Z.max (AlignOf (snd m)) a) 1 members in
  let last := fold_left (fun next m => roundUp (AlignOf (snd m)) next + SizeOf (snd m))
                members 0 in
  roundUp align last.

End Kernel.

(** ** The vocabulary of the properties *)

(** [len] elements of a buffer from the offset [off] on. *)
Definition slice {A} (off len : nat) (l : list A) : list A :=
  firstn len (skipn off l).

(** The ranges the camera is clamped to. *)
Definition phi_in_range (c : Closure) : bool :=
  ((0.05 <=? cameraPhi c) && (cameraPhi c <=? Math_PI - 0.05))%float.

Definition radius_in_range (c : Closure) : bool :=
  ((0.5 <=? cameraRadius c) && (cameraRadius c <=? 10.0))%float.

(** The coordinates and the scroll amount of an input event are finite
    numbers (WebIDL [long] and [double]). *)
Definition event_finite (e : Event) : bool :=
  match e with
  | mousedown x y => isFinite x && isFinite y
  | mouseup => true
  | mousemove x y => isFinite x && isFinite y
  | wheel d => isFinite d
  end.

(** Animation frames with nothing in between; each with the thresholds
    the sliders show at that time. *)
Definition frames_only (frames : list (float * float)) : list tick :=
  map (fun f => animation_frame (fst f) (snd f)) frames.

Definition tick_finite (t : tick) : bool :=
  match t with
  | animation_frame _ _ => true
  | dispatch e => event_finite e
  end.

(** *** Auxiliary notions of the proofs *)

(** Finite or zero, on the specification of a number. *)
Definition SFfinite (x : spec_float) : Prop :=
  match x with
  | S754_zero _ | S754_finite _ _ _ => True
  | _ => False
  end.

(** The code unit [c] occurs in [s]. *)
Fixpoint has_char (c : ascii) (s : string) : bool :=
  match s with
  | EmptyString => false
  | String a s' => Ascii.eqb a c || has_char c s'
  end.

(** Nothing but white space. *)
Fixpoint all_white_space (s : string) : bool :=
  match s with
  | EmptyString => true
  | String c s' => is_white_space c && all_white_space s'
  end.

(** *** Form A and Form B inputs that describe a volume *)

(** The line terminator, as a string. *)
Definition newline : string := String LF "".

Fixpoint no_white_space (s : string) : bool :=
  match s with
  | EmptyString => true
  | String c s' => negb (is_white_space c) && no_white_space s'
  end.

(** A token of a data line: not empty, free of white space, and not the
    start of a section marker. *)
Definition token_ok (t : string) : bool :=
  negb (String.eqb t "") && no_white_space t && negb (startsWith t "--").

(** A data line: at least one token; the tokens are written with one
    space between them. *)
Definition line_ok (tokens : list string) : bool :=
  match tokens with
  | [] => false
  | _ => forallb token_ok tokens
  end.

(** A Form A text: the three sections in the order header, affine, voxel,
    each a marker line and data lines, with or without a line terminator
    after the last line. *)
Definition formA_lines (header affine voxel : list (list string)) : list string :=
  (["--header--"] ++ map (String.concat " ") header
   ++ ["--affine--"] ++ map (String.concat " ") affine
   ++ ["--voxel--"] ++ map (String.concat " ") voxel)%list.

Definition formA_text (header affine voxel : list (list string))
    (final_newline : bool) : string :=
  String.concat newline
    (formA_lines header affine voxel ++ (if final_newline then [""] else []))%list.

(** A volume as both forms describe it: the shape [d, h, w], the rows of
    the affine matrix, and the samples as slices of rows. *)
Record LogicalVolume : Type := {
  lv_shape : list float;
  lv_affine : list (list float);
  lv_voxels : list (list (list float))
}.

(** The Form B document of a volume. *)
Definition formB_document (v : LogicalVolume) : document :=
  {| doc_shape := lv_shape v;
     doc_affine := map (fun row => jarr (map jnum row)) (lv_affine v);
     doc_voxel_data :=
       map (fun slice => jarr (map (fun row => jarr (map jnum row)) slice))
         (lv_voxels v) |}.

(** The text the voxel section accumulates over data lines: each line,
    then a space. *)
Fixpoint voxel_text (lines : list (list string)) : string :=
  match lines with
  | [] => ""
  | l :: rest => String.concat " " l ++ " " ++ voxel_text rest
  end.

(** A text has no line that opens the given section. *)
Definition opens_section (name line : string) : bool :=
  startsWith line "--" && String.eqb (trim line) name.

Definition section_missing (name text : string) : bool :=
  forallb (fun line => negb (opens_section name line)) (split LF text).

(** The data lines of one section, in file order: the lines that follow
    a marker of that name, up to the next marker. *)
Fixpoint section_lines (name : string) (current : option string)
    (lines : list string) : list string :=
  match lines with
  | [] => []
  | line :: rest =>
      if startsWith line "--" then section_lines name (Some (trim line)) rest
      else if match current with
              | Some sec => String.eqb sec name
              | None => false
              end
           then line :: section_lines name current rest
           else section_lines name current rest
  end.

(** The data lines of the voxel section, each trimmed and followed by a
    space, one after the other. *)
Fixpoint joined (lines : list string) : string :=
  match lines with
  | [] => ""
  | line :: rest => (trim line ++ " ") ++ joined rest
  end.

Definition voxel_joined (text : string) : string :=
  joined (section_lines "--voxel--" None (split LF text)).

(** The tokens of the voxel section: the pieces between the spaces of
    its joined lines, trimmed. *)
Definition voxel_tokens (text : string) : list string :=
  split SP (trim (voxel_joined text)).

(** The tokens of the data lines of one section, in file order: what
    [line.trim().split(' ')] gives on each line read while the section is
    open. *)
Fixpoint section_tokens (name : string) (current : option string)
    (lines : list string) : list string :=
  match lines with
  | [] => []
  | line :: rest =>
      if startsWith line "--" then section_tokens name (Some (trim line)) rest
      else if match current with
              | Some sec => String.eqb sec name
              | None => false
              end
           then (split SP (trim line) ++ section_tokens name current rest)%list
           else section_tokens name current rest
  end.

Definition header_tokens (text : string) : list string :=
  section_tokens "--header--" None (split LF text).

Definition affine_tokens (text : string) : list string :=
  section_tokens "--affine--" None (split LF text).

(** A text the engine can parse: no line of the header or of the affine
    section has more pieces than a call takes arguments, the joined lines
    of the voxel section make a string, and the affine entries and the
    samples make typed arrays. *)
Definition within_limits `{Engine} (text : string) : bool :=
  let lines := split LF text in
  forallb (fun line => Z.of_nat (List.length (split SP (trim line))) <=? argument_limit)
    (section_lines "--header--" None lines ++ section_lines "--affine--" None lines)%list
  && (Z.of_nat (String.length (voxel_joined text)) <=? string_limit)
  && (Z.of_nat (List.length (affine_tokens text)) <=? typed_array_limit)
  && (Z.of_nat (List.length (voxel_tokens text)) <=? typed_array_limit).

(** A token [Number] reads as a number: blank, or a numeric literal. *)
Definition is_numeric (t : string) : bool :=
  match trim t with
  | EmptyString => true
  | t' => match parse_numeric_literal t' with
          | Some _ => true
          | None => false
          end
  end.


Definition is_draw (c : gpu_call) : bool :=
  match c with
  | draw _ _ _ _ => true
  | _ => false
  end.

(** The texel (x, y, z) of a texture after [writeTexture(data,
    { bytesPerRow, rowsPerImage }, size)] on tightly packed [r32float]
    data: rows are [bytesPerRow] bytes apart, slices [rowsPerImage] rows. *)
Definition uploaded_texel (data : list float) (bytesPerRow rowsPerImage : Z)
    (x y z : Z) : value :=
  get data (Z.to_nat (x + y * (bytesPerRow / 4) + z * (rowsPerImage * (bytesPerRow / 4)))).

(** The sample [voxel_data[i][j][k]] of a volume. *)
Definition sample_at (v : LogicalVolume) (i j k : nat) : value :=
  get (nth j (nth i (lv_voxels v) []) []) k.






Definition identity_rows : list (list float) :=
  [[1; 0; 0; 0]; [0; 1; 0; 0]; [0; 0; 1; 0]; [0; 0; 0; 1]]%float.

Definition volume_2_3_4 : LogicalVolume :=
  {| lv_shape := [2; 3; 4]%float;
     lv_affine := identity_rows;
     lv_voxels :=
       [ [[0; 1; 2; 3]; [4; 5; 6; 7]; [8; 9; 10; 11]];
         [[12; 13; 14; 15]; [16; 17; 18; 19]; [20; 21; 22; 23]] ]%float |}.

Definition header_2_3_4 : list (list string) := [["2"; "3"; "4"]].

Definition affine_identity : list (list string) :=
  [["1"; "0"; "0"; "0"]; ["0"; "1"; "0"; "0"]; ["0"; "0"; "1"; "0"]; ["0"; "0"; "0"; "1"]].

Definition voxel_2_3_4 : list (list string) :=
  [ ["0"; "1"; "2"; "3"; "4"; "5"; "6"; "7"; "8"; "9"; "10"; "11"];
    ["12"; "13"; "14"; "15"; "16"; "17"; "18"; "19"; "20"; "21"; "22"; "23"] ].

(** A page with an adapter and a 800 x 600 canvas. *)
Definition sample_page : Page :=
  {| adapter := true; clientWidth := 800; clientHeight := 600;
     slider_low := 0; slider_high := 1 |}.

(** A coordinate of a position that keeps it out of the unit cube: below
    0, above 1, or no number at all. *)
Definition coordinate_outside (x : float) : bool :=
  ((x <? 0) || (1 <? x))%float || isNaN x.

Definition outside_unit_cube (v : Kernel.vec3f) : bool :=
  coordinate_outside (Kernel.vx v) || coordinate_outside (Kernel.vy v)
  || coordinate_outside (Kernel.vz v).

(** A texel within [0, volumeDims - 1] on every axis, the upper bound
    being the kernel's own [uniforms.volumeDims - vec3f(1.0)]. *)
Definition texel_in_bounds (u : Kernel.Uniforms) (c : Kernel.vec3u) : Prop :=
  let top := Kernel.to_vec3u (Kernel.vsub (Kernel.volumeDims u) (Kernel.splat 1)) in
  (0 <= Kernel.ux c <= Kernel.ux top)
  /\ (0 <= Kernel.uy c <= Kernel.uy top)
  /\ (0 <= Kernel.uz c <= Kernel.uz top).

(** What every handler preserves: both clamps, and a finite anchor of
    the drag. *)
Definition camera_inv (c : Closure) : Prop :=
  phi_in_range c = true /\ radius_in_range c = true /\ isFinite (lastY c) = true.

(** Stand-ins for the external functions, for the statements that are
    checked on a concrete run: truncated series for the sine and the
    cosine, and matrices that depend on their arguments. *)
Definition sample_externals : Externals :=
  {| Math_sin := fun x => (x - x * x * x / 6)%float;
     Math_cos := fun x => (1 - x * x / 2)%float;
     mat4_perspective := fun fovy aspect near far =>
       Float32Array [1 / aspect; 0; 0; 0;  0; 1; 0; 0;
                     0; 0; (far + near) / (near - far); -1;
                     0; 0; 2 * far * near / (near - far); 0]%float;
     mat4_lookAt := fun eye center up =>
       Float32Array [1; 0; 0; 0;  0; 1; 0; 0;  0; 0; 1; 0;
                     - elt eye 0; - elt eye 1; - elt eye 2; 1]%float;
     mat4_multiply := fun a b =>
       Float32Array (map (fun i =>
         elt a (i mod 4) * elt b (4 * (i / 4))
         + elt a (4 + i mod 4) * elt b (4 * (i / 4) + 1)
         + elt a (8 + i mod 4) * elt b (4 * (i / 4) + 2)
         + elt a (12 + i mod 4) * elt b (4 * (i / 4) + 3))%float
         (seq 0 16)) |}.

(** ** Further vocabulary *)

(** *** Frames and the render loop *)

(** The calls of one completed frame, in the order [render] makes them. *)
Definition frame_calls (data : list byte) : list gpu_call :=
  [writeBuffer data; draw 6 1 0 0; submit].

(** A tick that presses the button. *)
Definition is_mousedown (t : tick) : bool :=
  match t with
  | dispatch (mousedown _ _) => true
  | _ => false
  end.

(** The clamp the two handlers are meant to compute: the nearer bound for
    a number outside [lo, hi], the number itself inside. *)
Definition clamp_to (lo hi x : float) : float :=
  if (x <? lo)%float then lo else if (hi <? x)%float then hi else x.

(** *** The order of binary64 numbers, as an order on integers *)

(** A number that is not NaN, as a triple that compares
    lexicographically the way the number does: the class (negative
    infinite, negative, zero, positive, positive infinite), then the
    exponent and the mantissa, both negated for a negative number. *)
Definition SFkey (x : spec_float) : Z * Z * Z :=
  match x with
  | S754_infinity true => (-2, 0, 0)
  | S754_finite true m e => (-1, - e, Z.neg m)
  | S754_finite false m e => (1, e, Z.pos m)
  | S754_infinity false => (2, 0, 0)
  | _ => (0, 0, 0)
  end.

Definition lex_le (a b : Z * Z * Z) : Prop :=
  let '(a1, a2, a3) := a in
  let '(b1, b2, b3) := b in
  a1 < b1 \/ (a1 = b1 /\ (a2 < b2 \/ (a2 = b2 /\ a3 <= b3))).

(** *** The marching loop *)

(** The values [t] takes in the loop of [fsMain]. *)
Definition marching_times : list float :=
  match Kernel.march_times 1000 0 with
  | Some ts => ts
  | None => []
  end.

(** *** Form B: rectangular volumes *)

(** [d] slices of [h] rows of [w] samples. *)
Definition rectangular (d h w : nat) (voxels : list (list (list float))) : bool :=
  (List.length voxels =? d)%nat
  && forallb (fun slice =>
                (List.length slice =? h)%nat
                && forallb (fun row => (List.length row =? w)%nat) slice) voxels.

(** An array of the document whose elements are rows of numbers. *)
Definition json_rows (rows : list (list float)) : list json :=
  map (fun row => jarr (map jnum row)) rows.

(** *** Form A: texts of sections in any order *)

(** White space that stands before or after what a line holds: it has no
    line terminator. A carriage return is such white space. *)
Definition padding_ok (w : string) : bool :=
  all_white_space w && negb (has_char LF w).

(** A line that is no marker: tokens with one space between them and
    white space around them, or a blank line. *)
Inductive data_line : Type :=
| tokens_line (lead : string) (tokens : list string) (trail : string)
| blank_line (w : string).

Definition data_line_text (l : data_line) : string :=
  match l with
  | tokens_line lead tokens trail => lead ++ String.concat " " tokens ++ trail
  | blank_line w => w
  end.

Definition data_line_ok (l : data_line) : bool :=
  match l with
  | tokens_line lead tokens trail =>
      padding_ok lead && line_ok tokens && padding_ok trail
  | blank_line w => padding_ok w
  end.

(** The pieces [line.trim().split(' ')] cuts a line into: the tokens, or
    one empty piece for a blank line. *)
Definition pieces (l : data_line) : list string :=
  match l with
  | tokens_line _ tokens _ => tokens
  | blank_line _ => [""]
  end.

(** The sections: the three the parser reads, and any other marker. *)
Inductive section_name : Type :=
| Header
| Affine
| Voxel
| Other (name : string).

Definition marker_text (n : section_name) : string :=
  match n with
  | Header => "--header--"
  | Affine => "--affine--"
  | Voxel => "--voxel--"
  | Other name => name
  end.

(** Another marker starts with two dashes, has no white space in it and
    is none of the three. *)
Definition name_ok (n : section_name) : bool :=
  match n with
  | Other name =>
      startsWith name "--" && no_white_space name
      && negb (String.eqb name "--header--") && negb (String.eqb name "--affine--")
      && negb (String.eqb name "--voxel--")
  | _ => true
  end.

(** A block of the text: the marker line, which may have white space
    after the marker, and the lines up to the next marker. *)
Record block : Type := {
  block_name : section_name;
  marker_trail : string;
  block_lines : list data_line
}.

Definition block_ok (b : block) : bool :=
  name_ok (block_name b) && padding_ok (marker_trail b)
  && forallb data_line_ok (block_lines b).

Definition block_text_lines (b : block) : list string :=
  (marker_text (block_name b) ++ marker_trail b)
  :: map data_line_text (block_lines b).

(** The text: the lines before the first marker, then the blocks, with a
    line terminator between any two lines. A text that ends with a line
    terminator has a blank line with nothing in it as its last line. *)
Definition blocks_lines (preamble : list data_line) (blocks : list block) : list string :=
  (map data_line_text preamble ++ flat_map block_text_lines blocks)%list.

Definition blocks_text (preamble : list data_line) (blocks : list block) : string :=
  String.concat newline (blocks_lines preamble blocks).

Definition is_section (n m : section_name) : bool :=
  match n, m with
  | Header, Header | Affine, Affine | Voxel, Voxel => true
  | _, _ => false
  end.

(** The pieces of all the lines of one section, in the order of the
    text, whichever blocks they stand in. *)
Definition section_pieces (n : section_name) (blocks : list block) : list string :=
  flat_map (fun b => if is_section n (block_name b)
                     then flat_map pieces (block_lines b) else []) blocks.

(** Empty pieces at the start and at the end of a list. *)
Fixpoint drop_blank (p : list string) : list string :=
  match p with
  | EmptyString :: r => drop_blank r
  | _ => p
  end.

Fixpoint drop_blank_end (p : list string) : list string :=
  match p with
  | [] => []
  | x :: r =>
      match drop_blank_end r with
      | [] => if String.eqb x "" then [] else [x]
      | r' => x :: r'
      end
  end.

(** The pieces of the voxel section once the joined line is trimmed and
    split: blank lines at the start and at the end are gone, and a
    section without a token is one empty piece. *)
Definition voxel_pieces (blocks : list block) : list string :=
  match drop_blank_end (drop_blank (section_pieces Voxel blocks)) with
  | [] => [""]
  | q => q
  end.

(** What the voxel section accumulates for a list of pieces: each piece,
    then a space. *)
Fixpoint chunks (p : list string) : string :=
  match p with
  | [] => ""
  | x :: r => x ++ " " ++ chunks r
  end.

(** What scanning the data lines of a block adds to the variables of the
    loop. *)
Definition add_lines (n : section_name) (ls : list data_line) (st : scan) : scan :=
  match n with
  | Header =>
      {| section := section st;
         shape := (shape st ++ map Number (flat_map pieces ls))%list;
         affineValues := affineValues st; voxelLine := voxelLine st |}
  | Affine =>
      {| section := section st; shape := shape st;
         affineValues := (affineValues st ++ map Number (flat_map pieces ls))%list;
         voxelLine := voxelLine st |}
  | Voxel =>
      {| section := section st; shape := shape st;
         affineValues := affineValues st;
         voxelLine := voxelLine st ++ chunks (flat_map pieces ls) |}
  | Other _ => st
  end.

(** The carriage return, and a Form A text whose lines end with carriage
    return and line feed. *)
Definition CR : ascii := "013"%char.

Definition formA_text_crlf (header affine voxel : list (list string))
    (final_newline : bool) : string :=
  String.concat (String CR newline)
    (formA_lines header affine voxel ++ (if final_newline then [""] else []))%list.

(** The lines of a text whose line terminator is carriage return and
    line feed, once it is split at the line feeds: each line but the
    last has the carriage return left at its end. *)
Fixpoint with_CR (lines : list string) : list string :=
  match lines with
  | [] => []
  | [l] => [l]
  | l :: rest => (l ++ String CR "") :: with_CR rest
  end.

(** A data line of tokens with a carriage return after it. *)
Definition CR_line (tokens : list string) : data_line :=
  tokens_line "" tokens (String CR "").

(** A text with the samples first, a section the parser does not know,
    the header with a blank line in it, the affine matrix in two blocks
    and a last line that is empty; lines are indented and end with
    carriage returns. *)
Definition sample_blocks : list block :=
  [ {| block_name := Voxel; marker_trail := String CR "";
       block_lines := [ blank_line (String CR ""); CR_line ["1"; "2"; "3"] ] |};
    {| block_name := Other "--note--"; marker_trail := " ";
       block_lines := [ CR_line ["scanned"; "2024"] ] |};
    {| block_name := Header; marker_trail := "";
       block_lines := [ tokens_line "  " ["1"; "2"] ""; blank_line "";
                        tokens_line "" ["2"] " " ] |};
    {| block_name := Affine; marker_trail := "";
       block_lines := [ CR_line ["1"; "0"; "0"; "0"; "0"; "1"; "0"; "0"] ] |};
    {| block_name := Voxel; marker_trail := "";
       block_lines := [ CR_line ["4"] ] |};
    {| block_name := Affine; marker_trail := "";
       block_lines := [ CR_line ["0"; "0"; "1"; "0"; "0"; "0"; "0"; "1"];
                        blank_line "" ] |} ].

(** ** The sphere demo of [src/unnamed/part_000] *)

Module Sphere.

(** A loop counter as a number; the counters stay far below 2^53, where
    every integer is a number. *)
Definition of_nat (n : nat) : float :=
  SF2Prim (binary_normalize prec emax (Z.of_nat n) 0 false).

(** Lines 11 to 16 of [generateSphereVolume]: the sample at (x, y, z). *)
Definition density (size x y z : float) : float :=
  (let center := size / 2 in
   let radius := size / 3 in
   let dx := x - center in
   let dy := y - center in
   let dz := z - center in
   let dist := PrimFloat.sqrt (dx * dx + dy * dy + dz * dz) in
   if dist <? radius then 1.0 - dist / radius else 0.0)%float.

(** Line 15: the index of the sample at (x, y, z). *)
Definition voxel_index (size x y z : nat) : nat := (x + y * size + z * size * size)%nat.

(** [generateSphereVolume(size)], for a size that is a natural number:
    a Float32Array of [size * size * size] zeros, written by the three
    loops. *)
Definition generateSphereVolume (size : nat) : list float :=
  let data := repeat 0%float (size * size * size) in
  fold_left (fun data z =>
    fold_left (fun data y =>
      fold_left (fun data x =>
        TypedArray_store data (voxel_index size x y z)
          (density (of_nat size) (of_nat x) (of_nat y) (of_nat z)))
        (seq 0 size) data)
      (seq 0 size) data)
    (seq 0 size) data.

(** [createVolumeTexture(device, data, size)]. *)
Definition createVolumeTexture (data : list float) (size : float) : M unit :=
  let dims := [number size; number size; number size] in
  call_checked (createTexture dims) (forallb enforce_range_u32 dims) ;;
  call_checked (writeTexture data (size * 4)%float (number size) dims)
    (enforce_range_u32 (number (size * 4)%float) && enforce_range_u32 (number size)
     && forallb enforce_range_u32 dims).

(** [render] of the demo: the inverse of the view-projection matrix is
    the whole uniform data; [writeBuffer] throws a TypeError when it is
    [null]. *)
Definition render `{Externals} (c : Closure) : M Closure :=
  match invViewProj (deriveMatrices c) with
  | None => throw TypeError
  | Some data =>
      call (writeBuffer (buffer_of data)) ;;
      call (draw 6 1 0 0) ;;
      call submit ;;
      ret (with_scheduled true c)
  end.

Definition size : nat := 64.

(** [main()], up to its return. The volume is generated before the
    adapter is asked for. *)
Definition main `{Externals} (page : Page) : M Closure :=
  let volumeData := generateSphereVolume size in
  (if adapter page then ret tt else throw TypeError) ;;
  createVolumeTexture volumeData (of_nat size) ;;
  call (createBuffer 64) ;;
  render (initial_closure (clientWidth page) (clientHeight page) [] []).

(** [fsMain] of the demo: the ray is marched in its own space, and the
    texel is the position times 64. *)
Definition step : float := fround 0.01.

Definition position_at (inp : Kernel.VertexOut) (t : float) : Kernel.vec3f :=
  Kernel.vadd (Kernel.rayOrigin inp) (Kernel.scale t (Kernel.rayDir inp)).

Definition march_step (volume : Kernel.texture_3d) (inp : Kernel.VertexOut)
    (st : float * list Kernel.vec3u) (t : float) : float * list Kernel.vec3u :=
  let '(sum, fetched) := st in
  let p := position_at inp t in
  if Kernel.all_ge p (Kernel.splat 0) && Kernel.all_le p (Kernel.splat 1) then
    let texel := Kernel.to_vec3u (Kernel.vmul p (Kernel.splat 64)) in
    let d := volume texel in
    (Kernel.add sum (Kernel.mul d (fround 0.05)), (fetched ++ [texel])%list)
  else st.

Fixpoint march (fuel : nat) (volume : Kernel.texture_3d) (inp : Kernel.VertexOut)
    (t : float) (st : float * list Kernel.vec3u) : option (float * list Kernel.vec3u) :=
  match fuel with
  | O => None
  | S fuel' =>
      if (t <? 2.0)%float
      then march fuel' volume inp (Kernel.add t step) (march_step volume inp st t)
      else Some st
  end.

Fixpoint march_times (fuel : nat) (t : float) : option (list float) :=
  match fuel with
  | O => None
  | S fuel' =>
      if (t <? 2.0)%float
      then option_map (cons t) (march_times fuel' (Kernel.add t step))
      else Some []
  end.

Definition fsMain (volume : Kernel.texture_3d) (inp : Kernel.VertexOut)
    : option ((float * float * float * float) * list Kernel.vec3u) :=
  match march 1000 volume inp 0 (0%float, []) with
  | Some (sum, fetched) => Some ((sum, sum, sum, 1%float), fetched)
  | None => None
  end.

(** The values [t] takes in the loop. *)
Definition marching_times : list float :=
  match march_times 1000 0 with
  | Some ts => ts
  | None => []
  end.

(** The triples (z, y, x) in the order the three loops of
    [generateSphereVolume] visit them. *)
Definition loop_order (size : nat) : list (nat * nat * nat) :=
  flat_map (fun z =>
    flat_map (fun y => map (fun x => (z, y, x)) (seq 0 size)) (seq 0 size))
    (seq 0 size).

End Sphere.

(** ** The vertex stage: [vsMain] of both WGSL modules *)

Module Vertex.

Record vec4f : Type := Vec4f { cx : float; cy : float; cz : float; cw : float }.

(** The table [pos]: the corners of two triangles. *)
Definition pos : list (float * float) :=
  [ (-1, -1); (1, -1); (-1, 1); (-1, 1); (1, -1); (1, 1) ]%float.

(** [m * v] for a [mat4x4<f32>] and a [vec4<f32>]. *)
Definition transform (m : list float) (v : vec4f) : vec4f :=
  let row r :=
    Kernel.add
      (Kernel.add
         (Kernel.add (Kernel.mul (elt m r) (cx v)) (Kernel.mul (elt m (4 + r)) (cy v)))
         (Kernel.mul (elt m (8 + r)) (cz v)))
      (Kernel.mul (elt m (12 + r)) (cw v)) in
  Vec4f (row 0%nat) (row 1%nat) (row 2%nat) (row 3%nat).

(** [(m * v).xyz / (m * v).w]. *)
Definition unproject (m : list float) (v : vec4f) : Kernel.vec3f :=
  let h := transform m v in
  Kernel.Vec3f (Kernel.div (cx h) (cw h)) (Kernel.div (cy h) (cw h))
    (Kernel.div (cz h) (cw h)).

(** WGSL [normalize(e)]: [e / length(e)]. *)
Definition normalize (e : Kernel.vec3f) : Kernel.vec3f :=
  let sq c := Kernel.mul c c in
  let len := fround (PrimFloat.sqrt
                       (Kernel.add (Kernel.add (sq (Kernel.vx e)) (sq (Kernel.vy e)))
                          (sq (Kernel.vz e)))) in
  Kernel.Vec3f (Kernel.div (Kernel.vx e) len) (Kernel.div (Kernel.vy e) len)
    (Kernel.div (Kernel.vz e) len).

(** [vsMain]: the position and the ray of the vertex [idx]; [None] for
    an index past the table, which [draw(6, 1, 0, 0)] never asks for. *)
Definition vsMain (invViewProj : list float) (idx : nat)
    : option (vec4f * Kernel.VertexOut) :=
  match nth_error pos idx with
  | None => None
  | Some (u, v) =>
      let near := Vec4f u v 0 1 in
      let far := Vec4f u v 1 1 in
      let worldNear := unproject invViewProj near in
      let worldFar := unproject invViewProj far in
      Some (Vec4f u v 0 1,
            {| Kernel.rayOrigin := worldNear;
               Kernel.rayDir := normalize (Kernel.vsub worldFar worldNear) |})
  end.

(** The corner of the vertex [idx] on a grid of [n] steps to the unit. *)
Definition corner (n : Z) (idx : nat) : Z * Z :=
  let '(u, v) := nth idx pos (0%float, 0%float) in
  (n * truncate u, n * truncate v).

(** Twice the signed area of the triangle (a, b, p): not negative when
    [p] is on the left of the edge from [a] to [b]. *)
Definition edge (a b p : Z * Z) : Z :=
  (fst b - fst a) * (snd p - snd a) - (snd b - snd a) * (fst p - fst a).

(** The point [p] is in the triangle (a, b, c), whose corners go round
    counter-clockwise; the edges count. *)
Definition covers (a b c p : Z * Z) : bool :=
  (0 <=? edge a b p) && (0 <=? edge b c p) && (0 <=? edge c a p).

End Vertex.

(** ** The vocabulary of the claims on ingestion and on the fetches *)

(** *** Integer dimensions *)

(** The number that is the integer [n], as [Number] reads it from the
    decimal numeral of [n]; exact below 2^53. *)
Definition integer (n : Z) : float :=
  SF2Prim (binary_normalize prec emax n 0 false).

(** A texel within [0, dims - 1] on every axis, for the integer
    dimensions [nx], [ny] and [nz]. *)
Definition texel_within (nx ny nz : Z) (c : Kernel.vec3u) : Prop :=
  (0 <= Kernel.ux c <= nx - 1)
  /\ (0 <= Kernel.uy c <= ny - 1)
  /\ (0 <= Kernel.uz c <= nz - 1).

(** The bound of the second guard for the dimension [n]: the kernel's
    binary32 [volumeDims - 1], as a texel. *)
Definition top_texel (n : Z) : Z :=
  Kernel.to_u32 (Kernel.sub (fround (integer n)) 1).

(** [f] holds for the [count] integers from [n] on. *)
Fixpoint all_from (count : nat) (n : Z) (f : Z -> bool) : bool :=
  match count with
  | O => true
  | S count' => f n && all_from count' (n + 1) f
  end.

(** Uniform values with the dimensions 16777220 x 1 x 1 and 4 x 3 x 2 on
    the identity transform, and a ray that runs in the face x = 1 of the
    volume. *)
Definition identity16 : list float :=
  [1; 0; 0; 0;  0; 1; 0; 0;  0; 0; 1; 0;  0; 0; 0; 1]%float.

Definition huge_dims_uniforms : Kernel.Uniforms :=
  {| Kernel.invAffine := identity16; Kernel.invViewProj := identity16;
     Kernel.volumeDims := Kernel.Vec3f (fround (integer 16777220)) (fround (integer 1))
                            (fround (integer 1));
     Kernel.thresholdLow := 0; Kernel.thresholdHigh := 1 |}.

Definition dims_4_3_2_uniforms : Kernel.Uniforms :=
  {| Kernel.invAffine := identity16; Kernel.invViewProj := identity16;
     Kernel.volumeDims := Kernel.Vec3f (fround (integer 4)) (fround (integer 3))
                            (fround (integer 2));
     Kernel.thresholdLow := 0; Kernel.thresholdHigh := 1 |}.

Definition face_ray : Kernel.VertexOut :=
  {| Kernel.rayOrigin := Kernel.Vec3f 1 0.5 0.5; Kernel.rayDir := Kernel.Vec3f 0 0 1 |}.

(** *** An engine, and a line it cannot spread *)

(** Limits of the order of those of a current engine: 125000 arguments,
    strings of 2^29 - 24 code units, typed arrays of 2^32 - 1 elements. *)
Definition sample_engine : Engine :=
  {| argument_limit := 125000; string_limit := 536870888;
     typed_array_limit := 4294967295 |}.

(** A line spreads into the arguments of one call. *)
Definition spreads `{Engine} (line : string) : bool :=
  Z.of_nat (List.length (split SP (trim line))) <=? argument_limit.

(** A header of 125001 numbers on one line. *)
Definition long_header_tokens : list string := repeat "1" (Z.to_nat 125001).

Definition long_header_text : string :=
  "--header--" ++ newline ++ String.concat " " long_header_tokens.

(** A text with words that are no numbers, without the affine section. *)
Definition text_with_words : string :=
  "--header--" ++ newline ++ "2 x" ++ newline
  ++ "--voxel--" ++ newline ++ "1 two 3" ++ newline.

(** *** Form A as the specification words it *)

(** The tokens of a line: what white space delimits. *)
Fixpoint words (s : string) : list string :=
  match s with
  | EmptyString => []
  | String c r =>
      if is_white_space c then words r
      else match r with
           | EmptyString => [String c ""]
           | String c' _ =>
               if is_white_space c' then String c "" :: words r
               else match words r with
                    | w :: ws => String c w :: ws
                    | [] => [String c ""]
                    end
           end
  end.

(** The tokens of a section: "whitespace-delimited tokens within a
    section may span multiple lines". *)
Definition spec_section_tokens (name text : string) : list string :=
  flat_map words (section_lines name None (split LF text)).

(** A Form A text describes the volume: its header holds the shape, its
    affine section the entries of the matrix row by row, its voxel
    section the samples depth-major. *)
Definition describes_volume (text : string) (v : LogicalVolume) : Prop :=
  map Number (spec_section_tokens "--header--" text) = lv_shape v
  /\ map Number (spec_section_tokens "--affine--" text) = List.concat (lv_affine v)
  /\ map Number (spec_section_tokens "--voxel--" text)
     = List.concat (List.concat (lv_voxels v)).

(** A volume is valid: a shape of three numbers, four rows of four
    affine entries, and as many slices, rows and samples as the shape
    says. *)
Definition valid_volume (v : LogicalVolume) : bool :=
  match lv_shape v with
  | [d; h; w] =>
      rectangular (Z.to_nat (truncate d)) (Z.to_nat (truncate h))
        (Z.to_nat (truncate w)) (lv_voxels v)
  | _ => false
  end
  && (List.length (lv_affine v) =? 4)%nat
  && forallb (fun row => (List.length row =? 4)%nat) (lv_affine v).

Definition nonempty (p : string) : bool := negb (String.eqb p "").

(** The layout on which the parser reads the tokens of the
    specification: no blank line in the header and in the affine
    section, none between two samples, and at least one sample. *)
Definition no_stray_blank (bs : list block) : bool :=
  forallb nonempty (section_pieces Header bs)
  && forallb nonempty (section_pieces Affine bs)
  && match drop_blank_end (drop_blank (section_pieces Voxel bs)) with
     | [] => false
     | q => forallb nonempty q
     end.

(** The lines of the blocks of one section. *)
Definition section_data_lines (n : section_name) (bs : list block) : list data_line :=
  flat_map (fun b => if is_section n (block_name b) then block_lines b else []) bs.

(** A volume of one slice of one row of two samples, and a text of it
    with two spaces between the samples. *)
Definition volume_1_1_2 : LogicalVolume :=
  {| lv_shape := [1; 1; 2]%float; lv_affine := identity_rows;
     lv_voxels := [[[5; 7]]]%float |}.

Definition text_two_spaces : string :=
  "--header--" ++ newline ++ "1 1 2" ++ newline
  ++ "--affine--" ++ newline
  ++ "1 0 0 0" ++ newline ++ "0 1 0 0" ++ newline
  ++ "0 0 1 0" ++ newline ++ "0 0 0 1" ++ newline
  ++ "--voxel--" ++ newline ++ "5  7" ++ newline.

(** The volume of depth 2, height 3 and width 4 with the samples first,
    indented lines that end with carriage returns, and a last section the
    parser does not know. *)
Definition blocks_2_3_4 : list block :=
  [ {| block_name := Voxel; marker_trail := String CR "";
       block_lines := [ blank_line ""; CR_line (nth 0 voxel_2_3_4 []);
                        tokens_line "  " (nth 1 voxel_2_3_4 []) (String CR "") ] |};
    {| block_name := Header; marker_trail := "";
       block_lines := [ CR_line ["2"; "3"]; CR_line ["4"] ] |};
    {| block_name := Affine; marker_trail := " ";
       block_lines := map CR_line affine_identity |};
    {| block_name := Other "--end--"; marker_trail := "";
       block_lines := [ blank_line "" ] |} ].

(* ================================================================== *)
(** * Part II: properties                                              *)
(* ================================================================== *)

(** ** Comparisons of binary64 numbers *)

Section Comparisons.

Local Open Scope float_scope.

Lemma SFcompare_antisym (x y : spec_float) :
  SFcompare y x = option_map CompOpp (SFcompare x y).
Proof.
  destruct x as [sx|sx| |sx mx ex], y as [sy|sy| |sy my ey]; simpl;
    try reflexivity; try (destruct sx; reflexivity);
    try (destruct sy; reflexivity); try (destruct sx, sy; reflexivity).
  destruct sx, sy; simpl; try reflexivity;
    rewrite (Z.compare_antisym ex ey); destruct (ex ?= ey)%Z; simpl;
    try reflexivity;
    rewrite (Pos.compare_cont_antisym mx my Eq); reflexivity.
Qed.

Lemma SFcompare_refl (x : spec_float) :
  x <> S754_nan -> SFcompare x x = Some Eq.
Proof.
  destruct x as [s|s| |s m e]; simpl; intros Hx; try congruence.
  - destruct s; reflexivity.
  - destruct s; rewrite Z.compare_refl, Pos.compare_cont_refl; reflexivity.
Qed.

Lemma SFcompare_defined (x y : spec_float) :
  x <> S754_nan -> y <> S754_nan -> exists c, SFcompare x y = Some c.
Proof.
  destruct x, y; simpl; intros Hx Hy; try congruence; eexists; reflexivity.
Qed.

Lemma isNaN_spec (x : float) : isNaN x = false <-> Prim2SF x <> S754_nan.
Proof.
  unfold isNaN; destruct (Prim2SF x); split; congruence.
Qed.

Lemma ltb_leb (x y : float) : (x <? y) = true -> (x <=? y) = true.
Proof.
  rewrite FloatAxioms.ltb_spec, FloatAxioms.leb_spec; unfold SFltb, SFleb.
  destruct (SFcompare (Prim2SF x) (Prim2SF y)) as [[]|]; congruence.
Qed.

Lemma ltb_not_leb (x y : float) : (x <? y) = true -> (y <=? x) = false.
Proof.
  rewrite FloatAxioms.ltb_spec, FloatAxioms.leb_spec; unfold SFltb, SFleb.
  rewrite (SFcompare_antisym (Prim2SF x) (Prim2SF y)).
  destruct (SFcompare (Prim2SF x) (Prim2SF y)) as [[]|]; simpl; congruence.
Qed.

Lemma eqb_leb (x y : float) : (x =? y) = true -> (x <=? y) = true.
Proof.
  rewrite FloatAxioms.eqb_spec, FloatAxioms.leb_spec; unfold SFeqb, SFleb.
  destruct (SFcompare (Prim2SF x) (Prim2SF y)) as [[]|]; congruence.
Qed.

Lemma eqb_leb_sym (x y : float) : (x =? y) = true -> (y <=? x) = true.
Proof.
  rewrite FloatAxioms.eqb_spec, FloatAxioms.leb_spec; unfold SFeqb, SFleb.
  rewrite (SFcompare_antisym (Prim2SF x) (Prim2SF y)).
  destruct (SFcompare (Prim2SF x) (Prim2SF y)) as [[]|]; simpl; congruence.
Qed.

Lemma leb_refl (x : float) : isNaN x = false -> (x <=? x) = true.
Proof.
  intros Hx; apply isNaN_spec in Hx.
  rewrite FloatAxioms.leb_spec; unfold SFleb; rewrite SFcompare_refl; auto.
Qed.

Lemma leb_not_nan (x y : float) :
  (x <=? y) = true -> isNaN x = false /\ isNaN y = false.
Proof.
  rewrite FloatAxioms.leb_spec; unfold SFleb, isNaN.
  destruct (Prim2SF x), (Prim2SF y); simpl; auto; discriminate.
Qed.

(** Two numbers that are not NaN compare one of the three ways. *)
Lemma compare_cases (x y : float) :
  isNaN x = false -> isNaN y = false ->
  (x <? y) = true \/ (y <? x) = true \/ (x =? y) = true.
Proof.
  intros Hx Hy; apply isNaN_spec in Hx; apply isNaN_spec in Hy.
  rewrite !FloatAxioms.ltb_spec, FloatAxioms.eqb_spec; unfold SFltb, SFeqb.
  rewrite (SFcompare_antisym (Prim2SF x) (Prim2SF y)).
  destruct (SFcompare_defined _ _ Hx Hy) as [c ->]; destruct c; simpl; auto.
Qed.

(** [Math.min] and [Math.max] return one of their arguments when neither
    is NaN. *)
Lemma Math_min_cases (a b : float) :
  isNaN a = false -> isNaN b = false ->
  (Math_min a b = a /\ (a <=? b) = true) \/ (Math_min a b = b /\ (b <=? a) = true).
Proof.
  intros Ha Hb; unfold Math_min.
  destruct (a <? b) eqn:Hab; [left; auto using ltb_leb|].
  destruct (b <? a) eqn:Hba; [right; auto using ltb_leb|].
  destruct (compare_cases a b Ha Hb) as [H|[H|H]]; try congruence.
  rewrite H; destruct (get_sign a); [left|right]; auto using eqb_leb, eqb_leb_sym.
Qed.

Lemma Math_max_cases (a b : float) :
  isNaN a = false -> isNaN b = false ->
  (Math_max a b = a /\ (b <=? a) = true) \/ (Math_max a b = b /\ (a <=? b) = true).
Proof.
  intros Ha Hb; unfold Math_max.
  destruct (a <? b) eqn:Hab; [right; auto using ltb_leb|].
  destruct (b <? a) eqn:Hba; [left; auto using ltb_leb|].
  destruct (compare_cases a b Ha Hb) as [H|[H|H]]; try congruence.
  rewrite H; destruct (get_sign a); [right|left]; auto using eqb_leb, eqb_leb_sym.
Qed.

(** The clamp of the two camera handlers: [Math.max(lo, Math.min(hi, x))]
    lies between [lo] and [hi] whenever [x] is a number. *)
Lemma clamp_between (lo hi x : float) :
  (lo <=? hi) = true -> isNaN x = false ->
  (lo <=? Math_max lo (Math_min hi x)) = true
  /\ (Math_max lo (Math_min hi x) <=? hi) = true.
Proof.
  intros Hlh Hx. destruct (leb_not_nan _ _ Hlh) as [Hlo Hhi].
  assert (Hm : isNaN (Math_min hi x) = false /\ (Math_min hi x <=? hi) = true).
  { destruct (Math_min_cases hi x Hhi Hx) as [[-> H]|[-> H]]; auto using leb_refl. }
  destruct Hm as [Hm1 Hm2].
  destruct (Math_max_cases lo (Math_min hi x) Hlo Hm1) as [[-> H]|[-> H]];
    auto using leb_refl.
Qed.

End Comparisons.

(** ** Arithmetic that cannot give NaN *)

Section Rounding.

Variables prec emax : Z.

Lemma shr_1_nonneg (mrs : shr_record) :
  0 <= shr_m mrs -> 0 <= shr_m (shr_1 mrs).
Proof.
  destruct mrs as [m r s]; simpl.
  destruct m as [|p|p]; simpl; intros H; try lia; destruct p; simpl; lia.
Qed.

Lemma iter_pos_shr_1_nonneg (p : positive) :
  forall mrs, 0 <= shr_m mrs -> 0 <= shr_m (SpecFloat.iter_pos shr_1 p mrs).
Proof.
  induction p as [p IH|p IH|]; simpl; intros mrs H; auto using shr_1_nonneg.
Qed.

Lemma shr_fexp_nonneg (m e : Z) (l : location) :
  0 <= m -> 0 <= shr_m (fst (shr_fexp prec emax m e l)).
Proof.
  intros Hm; unfold shr_fexp, shr.
  assert (H0 : 0 <= shr_m (shr_record_of_loc m l))
    by (destruct l as [|[]]; simpl; exact Hm).
  destruct (fexp prec emax (Zdigits2 m + e) - e); simpl; auto.
  apply iter_pos_shr_1_nonneg; exact H0.
Qed.

Lemma round_nearest_even_nonneg (m : Z) (l : location) :
  0 <= m -> 0 <= round_nearest_even m l.
Proof.
  intros Hm; destruct l as [|[]]; simpl; try lia.
  destruct (Z.even m); lia.
Qed.

Lemma binary_round_aux_not_nan (sx : bool) (mx ex : Z) (lx : location) :
  0 <= mx -> binary_round_aux prec emax sx mx ex lx <> S754_nan.
Proof.
  intros Hm; unfold binary_round_aux.
  pose proof (shr_fexp_nonneg mx ex lx Hm) as H1.
  destruct (shr_fexp prec emax mx ex lx) as [mrs' e']; simpl in H1.
  pose proof (shr_fexp_nonneg _ e' loc_Exact
                (round_nearest_even_nonneg _ (loc_of_shr_record mrs') H1)) as H2.
  destruct (shr_fexp prec emax (round_nearest_even (shr_m mrs') (loc_of_shr_record mrs'))
              e' loc_Exact) as [mrs'' e'']; simpl in H2.
  destruct (shr_m mrs'') as [|p|p]; try discriminate; try lia.
  destruct (e'' <=? emax - prec); discriminate.
Qed.

Lemma binary_round_not_nan (sx : bool) (mx : positive) (ex : Z) :
  binary_round prec emax sx mx ex <> S754_nan.
Proof.
  unfold binary_round.
  destruct (shl_align mx ex (fexp prec emax (Z.pos (digits2_pos mx) + ex))) as [mz ez].
  apply binary_round_aux_not_nan; lia.
Qed.

Lemma binary_normalize_not_nan (m e : Z) (szero : bool) :
  binary_normalize prec emax m e szero <> S754_nan.
Proof.
  destruct m; simpl; try discriminate; apply binary_round_not_nan.
Qed.

Lemma SFsub_not_nan_l (x y : spec_float) :
  SFfinite x -> y <> S754_nan -> SFsub prec emax x y <> S754_nan.
Proof.
  destruct x as [sx|sx| |sx mx ex], y as [sy|sy| |sy my ey]; simpl;
    intros Hx Hy; try contradiction; try congruence;
    try (destruct sx, sy; discriminate).
  apply binary_normalize_not_nan.
Qed.

Lemma SFadd_not_nan_l (x y : spec_float) :
  SFfinite x -> y <> S754_nan -> SFadd prec emax x y <> S754_nan.
Proof.
  destruct x as [sx|sx| |sx mx ex], y as [sy|sy| |sy my ey]; simpl;
    intros Hx Hy; try contradiction; try congruence;
    try (destruct sx, sy; discriminate).
  apply binary_normalize_not_nan.
Qed.

Lemma SFmul_not_nan_r (x y : spec_float) (s : bool) (m : positive) (e : Z) :
  x <> S754_nan -> y = S754_finite s m e -> SFmul prec emax x y <> S754_nan.
Proof.
  intros Hx ->; destruct x as [sx|sx| |sx mx ex]; simpl; try congruence.
  apply binary_round_aux_not_nan; lia.
Qed.

Lemma SFmul_not_nan_l (x y : spec_float) (s : bool) (m : positive) (e : Z) :
  x = S754_finite s m e -> y <> S754_nan -> SFmul prec emax x y <> S754_nan.
Proof.
  intros -> Hy; destruct y as [sy|sy| |sy my ey]; simpl; try congruence.
  apply binary_round_aux_not_nan; lia.
Qed.

End Rounding.

Section NotNaN.

Local Open Scope float_scope.

Lemma isFinite_SFfinite (x : float) : isFinite x = true -> SFfinite (Prim2SF x).
Proof. unfold isFinite, SFfinite; destruct (Prim2SF x); auto; discriminate. Qed.

Lemma isNonzeroFinite_spec (x : float) :
  isNonzeroFinite x = true -> exists s m e, Prim2SF x = S754_finite s m e.
Proof.
  unfold isNonzeroFinite; destruct (Prim2SF x) as [| | |s m e]; try discriminate.
  intros _; exists s, m, e; reflexivity.
Qed.

Lemma isNonzeroFinite_isFinite (x : float) :
  isNonzeroFinite x = true -> isFinite x = true.
Proof. unfold isNonzeroFinite, isFinite; destruct (Prim2SF x); auto. Qed.

Lemma isFinite_not_nan (x : float) : isFinite x = true -> isNaN x = false.
Proof. unfold isFinite, isNaN; destruct (Prim2SF x); auto. Qed.

Lemma sub_not_nan (x y : float) :
  isFinite x = true -> isNaN y = false -> isNaN (x - y) = false.
Proof.
  intros Hx Hy; apply isNaN_spec; rewrite sub_spec.
  apply SFsub_not_nan_l; [apply isFinite_SFfinite, Hx | apply isNaN_spec, Hy].
Qed.

Lemma add_not_nan (x y : float) :
  isFinite x = true -> isNaN y = false -> isNaN (x + y) = false.
Proof.
  intros Hx Hy; apply isNaN_spec; rewrite add_spec.
  apply SFadd_not_nan_l; [apply isFinite_SFfinite, Hx | apply isNaN_spec, Hy].
Qed.

Lemma mul_not_nan_r (x y : float) :
  isNaN x = false -> isNonzeroFinite y = true -> isNaN (x * y) = false.
Proof.
  intros Hx Hy; apply isNaN_spec; rewrite mul_spec.
  destruct (isNonzeroFinite_spec y Hy) as (s & m & e & Hy').
  eapply SFmul_not_nan_r; [apply isNaN_spec, Hx | exact Hy'].
Qed.

Lemma mul_not_nan_l (x y : float) :
  isNonzeroFinite x = true -> isNaN y = false -> isNaN (x * y) = false.
Proof.
  intros Hx Hy; apply isNaN_spec; rewrite mul_spec.
  destruct (isNonzeroFinite_spec x Hx) as (s & m & e & Hx').
  eapply SFmul_not_nan_l; [exact Hx' | apply isNaN_spec, Hy].
Qed.

Lemma isPositiveFinite_nonzero (x : float) :
  isPositiveFinite x = true -> isNonzeroFinite x = true.
Proof.
  unfold isPositiveFinite, isNonzeroFinite; destruct (Prim2SF x); auto.
Qed.

(** A number between a positive finite bound and a finite bound is
    positive and finite. *)
Lemma between_positive_finite (lo hi x : float) :
  isPositiveFinite lo = true -> isFinite hi = true ->
  (lo <=? x) = true -> (x <=? hi) = true -> isPositiveFinite x = true.
Proof.
  unfold isPositiveFinite, isFinite.
  rewrite !FloatAxioms.leb_spec; unfold SFleb.
  destruct (Prim2SF lo) as [sl|sl| |sl ml el]; try discriminate.
  destruct sl; try discriminate; intros _.
  destruct (Prim2SF hi) as [sh|sh| |sh mh eh]; try discriminate; intros _;
    destruct (Prim2SF x) as [sx|[]| |[] mx ex]; simpl; congruence.
Qed.

End NotNaN.

(** ** The interaction controller keeps the camera in range *)

Section CameraClamps.

Local Open Scope float_scope.

Lemma initial_closure_inv (w h : float) (dims : list value) (affine : list float) :
  camera_inv (initial_closure w h dims affine).
Proof. repeat split; vm_compute; reflexivity. Qed.

Lemma phi_in_range_positive (c : Closure) :
  phi_in_range c = true -> isPositiveFinite (cameraPhi c) = true.
Proof.
  unfold phi_in_range; intros H; apply andb_prop in H; destruct H as [H1 H2].
  eapply between_positive_finite; [| | exact H1 | exact H2]; vm_compute; reflexivity.
Qed.

Lemma radius_in_range_positive (c : Closure) :
  radius_in_range c = true -> isPositiveFinite (cameraRadius c) = true.
Proof.
  unfold radius_in_range; intros H; apply andb_prop in H; destruct H as [H1 H2].
  eapply between_positive_finite; [| | exact H1 | exact H2]; vm_compute; reflexivity.
Qed.

Lemma on_mousemove_inv (x y : float) (c : Closure) :
  isFinite y = true -> camera_inv c -> camera_inv (on_mousemove x y c).
Proof.
  intros Hy (Hphi & Hrad & Hlast); unfold on_mousemove.
  destruct (dragging c); cbn [negb]; [|repeat split; assumption].
  unfold camera_inv, phi_in_range, radius_in_range in *;
    cbn [cameraPhi cameraRadius lastY].
  split; [|split; assumption].
  assert (Hdy : isNaN (y - lastY c) = false)
    by (apply sub_not_nan; auto using isFinite_not_nan).
  assert (Hstep : isNaN ((y - lastY c) * 0.005) = false)
    by (apply mul_not_nan_r; [exact Hdy | vm_compute; reflexivity]).
  assert (Hnew : isNaN (cameraPhi c - (y - lastY c) * 0.005) = false).
  { apply sub_not_nan; [|exact Hstep].
    apply isNonzeroFinite_isFinite, isPositiveFinite_nonzero, phi_in_range_positive, Hphi. }
  destruct (clamp_between 0.05 (Math_PI - 0.05) _ (eq_refl : (0.05 <=? Math_PI - 0.05) = true) Hnew)
    as [H1 H2].
  rewrite H1, H2; reflexivity.
Qed.

Lemma on_wheel_inv (d : float) (c : Closure) :
  isFinite d = true -> camera_inv c -> camera_inv (on_wheel d c).
Proof.
  intros Hd (Hphi & Hrad & Hlast); unfold on_wheel.
  unfold camera_inv, phi_in_range, radius_in_range in *;
    cbn [cameraPhi cameraRadius lastY].
  split; [assumption|split; [|assumption]].
  assert (Hstep : isNaN (d * 0.001) = false)
    by (apply mul_not_nan_r; [auto using isFinite_not_nan | vm_compute; reflexivity]).
  assert (Hfac : isNaN (1 + d * 0.001) = false)
    by (apply add_not_nan; [vm_compute; reflexivity | exact Hstep]).
  assert (Hnew : isNaN (cameraRadius c * (1 + d * 0.001)) = false).
  { apply mul_not_nan_l; [|exact Hfac].
    apply isPositiveFinite_nonzero, radius_in_range_positive, Hrad. }
  destruct (clamp_between 0.5 10.0 _ (eq_refl : (0.5 <=? 10.0) = true) Hnew) as [H1 H2].
  rewrite H1, H2; reflexivity.
Qed.

Lemma handle_inv (e : Event) (c : Closure) :
  event_finite e = true -> camera_inv c -> camera_inv (handle e c).
Proof.
  destruct e as [x y| |x y|d]; simpl; intros He Hc.
  - apply andb_prop in He; destruct He as [_ Hy].
    destruct Hc as (Hphi & Hrad & _); repeat split; assumption.
  - destruct Hc as (Hphi & Hrad & Hl); repeat split; assumption.
  - apply andb_prop in He; destruct He as [_ Hy]; apply on_mousemove_inv; assumption.
  - apply on_wheel_inv; assumption.
Qed.

Lemma with_scheduled_inv (b : bool) (c : Closure) :
  camera_inv c -> camera_inv (with_scheduled b c).
Proof. intros H; exact H. Qed.

(** A frame that returns hands the closure back, with the next frame
    asked for. *)
Lemma render_returns `{Externals} (low high : float) (c c' : Closure)
    (log log' : list gpu_call) :
  render low high c log = (Ok c', log') -> c' = with_scheduled true c.
Proof.
  unfold render.
  destruct (uniformData_of _ _ _ _ _) as [u|e]; unfold throw; [|discriminate].
  unfold bind, call, ret; intros Heq; injection Heq as <- _; reflexivity.
Qed.

Lemma on_tick_inv `{Externals} (c : Closure) (log : list gpu_call) (t : tick) :
  tick_finite t = true -> camera_inv c -> camera_inv (fst (on_tick (c, log) t)).
Proof.
  destruct t as [low high|e]; simpl; intros Ht Hc.
  - destruct (scheduled c); [|exact Hc].
    destruct (render low high (with_scheduled false c) log) as [[c'|err] log'] eqn:Hr;
      [|exact Hc].
    apply render_returns in Hr; subst c'; exact Hc.
  - apply handle_inv; assumption.
Qed.

Lemma session_inv `{Externals} (ticks : list tick) :
  forall st, forallb tick_finite ticks = true -> camera_inv (fst st) ->
  camera_inv (fst (session ticks st)).
Proof.
  induction ticks as [|t ticks IH]; intros [c log] Hf Hc; simpl in *; [exact Hc|].
  apply andb_prop in Hf; destruct Hf as [Ht Hf].
  apply IH; [exact Hf|].
  apply on_tick_inv; assumption.
Qed.

Lemma forallb_firstn {A} (f : A -> bool) (n : nat) (l : list A) :
  forallb f l = true -> forallb f (firstn n l) = true.
Proof.
  revert l; induction n as [|n IH]; intros [|a l]; simpl; auto.
  intros Hf; apply andb_prop in Hf; destruct Hf as [-> Hf]; simpl; auto.
Qed.

(** C5. For every finite sequence of drag and wheel events (with the
    animation frames that come in between) applied to the camera as [main]
    sets it up, the state after every event, that is after every prefix of
    the sequence, has [phi] in [0.05, Math.PI - 0.05] and [radius] in
    [0.5, 10.0]. The events carry finite numbers. *)
Theorem camera_clamps_hold `{Externals} (width height : float) (dims : list value)
    (affine : list float) (frame_pending : bool) (log : list gpu_call)
    (ticks : list tick) (n : nat) :
  forallb tick_finite ticks = true ->
  let start := with_scheduled frame_pending (initial_closure width height dims affine) in
  let c := fst (session (firstn n ticks) (start, log)) in
  phi_in_range c = true /\ radius_in_range c = true.
Proof.
  intros Hf start c.
  assert (Hc : camera_inv c).
  { apply session_inv; [apply forallb_firstn, Hf|].
    apply with_scheduled_inv, initial_closure_inv. }
  destruct Hc as (H1 & H2 & _); auto.
Qed.

(** The clamps on a drag past the pole followed by a frame and two
    extreme scrolls. *)
Lemma camera_clamps_hold_witness :
  let ticks := [ dispatch (mousedown 10 10); dispatch (mousemove 10 100000);
                 animation_frame 0 1; dispatch (wheel (-100000));
                 dispatch (wheel 1e300) ]%float in
  forallb tick_finite ticks = true
  /\ (let c := fst (@session sample_externals (firstn 5 ticks)
                     (with_scheduled true (initial_closure 800 600 [] []), [])) in
      phi_in_range c = true /\ radius_in_range c = true).
Proof.
  split; [reflexivity|].
  apply (@camera_clamps_hold sample_externals); reflexivity.
Defined.

End CameraClamps.

(** ** The camera model has no state of its own *)

Lemma on_frame_closure `{Externals} (low high : float) (c : Closure)
    (log : list gpu_call) :
  exists b, fst (on_tick (c, log) (animation_frame low high)) = with_scheduled b c.
Proof.
  simpl. destruct (scheduled c) eqn:Hs.
  - destruct (render low high (with_scheduled false c) log) as [[c'|e] log'] eqn:Hr.
    + apply render_returns in Hr; subst c'; exists true; reflexivity.
    + exists false; reflexivity.
  - exists false; destruct c; simpl in *; subst; reflexivity.
Qed.

(** C8. Deriving the camera matrices again from an unchanged camera and
    canvas gives the same matrices. Over any number of animation frames,
    with whatever thresholds and whether or not a frame completes, [render]
    leaves every variable the derivation reads as it was: the projection,
    the view, their product and its inverse derived for the next frame are
    those of the first, and so are the camera and the inverse of the affine
    matrix. Nothing counts frames. *)
Theorem deriveMatrices_idempotent `{Externals} (frames : list (float * float))
    (c : Closure) (log : list gpu_call) :
  let c' := fst (session (frames_only frames) (c, log)) in
  deriveMatrices c' = deriveMatrices c
  /\ mat4_invert (main_affine c') = mat4_invert (main_affine c)
  /\ (cameraTheta c', cameraPhi c', cameraRadius c', cameraTarget c')
     = (cameraTheta c, cameraPhi c, cameraRadius c, cameraTarget c)
  /\ (canvas_width c', canvas_height c') = (canvas_width c, canvas_height c).
Proof.
  revert c log; induction frames as [|[low high] frames IH]; intros c log.
  - repeat split.
  - unfold session, frames_only in *; cbn [map fold_left fst snd].
    destruct (on_frame_closure low high c log) as [b Hb].
    destruct (on_tick (c, log) (animation_frame low high)) as [c1 log1].
    simpl in Hb; subst c1.
    exact (IH (with_scheduled b c) log1).
Qed.

(** ** The uniform buffer has the layout the kernel declares *)

Section UniformLayout.

Lemma uniformData_fresh :
  Float32Array_new (uniformBufferSize / 4) = repeat 0%float 40.
Proof. vm_compute; reflexivity. Qed.

Local Arguments fround : simpl never.
Local Arguments f32_byte : simpl never.
Local Arguments ToNumber : simpl never.

Ltac explicit_list l H :=
  repeat (destruct l as [|? l]; [discriminate H|]);
  destruct l; [clear H|discriminate H].

(** C2. For every frame record (two matrices of sixteen entries, the
    three dimensions, the two thresholds) the data [render] writes to the
    uniform buffer is 160 bytes, with [invAffine] at byte 0, [invViewProj]
    at 64, [volumeDims] at 128, [thresholdLow] at 140 and [thresholdHigh]
    at 144, each as binary32 values, and zeros after that; these are the
    offsets and the size of [struct Uniforms] in the kernel. *)
Theorem uniform_layout (invAffine invViewProj : list float) (dims : list value)
    (low high : float) :
  List.length invAffine = 16%nat -> List.length invViewProj = 16%nat ->
  List.length dims = 3%nat ->
  exists uniformData,
    uniformData_of (Some invAffine) (Some invViewProj) dims low high = Ok uniformData
    /\ List.length (buffer_of uniformData) = 160%nat
    /\ slice 0 64 (buffer_of uniformData) = buffer_of (Float32Array invAffine)
    /\ slice 64 64 (buffer_of uniformData) = buffer_of (Float32Array invViewProj)
    /\ slice 128 12 (buffer_of uniformData) = buffer_of (Float32Array (map ToNumber dims))
    /\ slice 140 4 (buffer_of uniformData) = f32_bytes (fround low)
    /\ slice 144 4 (buffer_of uniformData) = f32_bytes (fround high)
    /\ slice 148 12 (buffer_of uniformData) = buffer_of (repeat 0%float 3)
    /\ Kernel.OffsetOfMembers Kernel.Uniforms_members
       = [ ("invAffine", 0); ("invViewProj", 64); ("volumeDims", 128);
           ("thresholdLow", 140); ("thresholdHigh", 144) ]
    /\ Kernel.SizeOfStruct Kernel.Uniforms_members = 160.
Proof.
  intros Ha Hv Hd.
  explicit_list invAffine Ha. explicit_list invViewProj Hv. explicit_list dims Hd.
  unfold uniformData_of; rewrite uniformData_fresh.
  eexists; split; [simpl; reflexivity|].
  repeat split.
Qed.

(** The layout on the identity matrices, dimensions (4, 3, 2) and the
    window (0.25, 1). *)
Lemma uniform_layout_witness :
  let m := [1;0;0;0; 0;1;0;0; 0;0;1;0; 0;0;0;1]%float in
  let dims := [number 4; number 3; number 2] in
  exists uniformData,
    uniformData_of (Some m) (Some m) dims 0.25 1 = Ok uniformData
    /\ List.length (buffer_of uniformData) = 160%nat
    /\ slice 0 64 (buffer_of uniformData) = buffer_of (Float32Array m)
    /\ slice 64 64 (buffer_of uniformData) = buffer_of (Float32Array m)
    /\ slice 128 12 (buffer_of uniformData) = buffer_of (Float32Array (map ToNumber dims))
    /\ slice 140 4 (buffer_of uniformData) = f32_bytes (fround 0.25)
    /\ slice 144 4 (buffer_of uniformData) = f32_bytes (fround 1)
    /\ slice 148 12 (buffer_of uniformData) = buffer_of (repeat 0%float 3)
    /\ Kernel.OffsetOfMembers Kernel.Uniforms_members
       = [ ("invAffine", 0); ("invViewProj", 64); ("volumeDims", 128);
           ("thresholdLow", 140); ("thresholdHigh", 144) ]
    /\ Kernel.SizeOfStruct Kernel.Uniforms_members = 160.
Proof.
  intros m dims.
  exact (uniform_layout m m dims 0.25 1 eq_refl eq_refl eq_refl).
Defined.

End UniformLayout.

(** ** The ray-marching kernel *)

Section Truncation.

Lemma digits2_pos_bounds (p : positive) :
  2 ^ (Z.pos (digits2_pos p) - 1) <= Z.pos p < 2 ^ Z.pos (digits2_pos p).
Proof.
  induction p as [p IH|p IH|]; simpl digits2_pos.
  - rewrite Pos2Z.inj_succ.
    replace (Z.succ (Z.pos (digits2_pos p)) - 1) with (Z.succ (Z.pos (digits2_pos p) - 1)) by lia.
    rewrite !Z.pow_succ_r by lia. lia.
  - rewrite Pos2Z.inj_succ.
    replace (Z.succ (Z.pos (digits2_pos p)) - 1) with (Z.succ (Z.pos (digits2_pos p) - 1)) by lia.
    rewrite !Z.pow_succ_r by lia. lia.
  - simpl. lia.
Qed.

Lemma shiftl_scaled (m e k : Z) :
  k <= 0 -> k <= e -> Z.shiftl m e = (m * 2 ^ (e - k)) / 2 ^ (- k).
Proof.
  intros Hk He. destruct (Z.le_gt_cases 0 e) as [H|H].
  - rewrite Z.shiftl_mul_pow2 by lia.
    replace (e - k) with (e + - k) by lia.
    rewrite Z.pow_add_r by lia. rewrite Z.mul_assoc.
    rewrite Z.div_mul; [reflexivity|apply Z.pow_nonzero; lia].
  - rewrite Z.shiftl_div_pow2 by lia.
    replace (- k) with (- e + (e - k)) by lia.
    rewrite Z.pow_add_r by lia.
    rewrite Z.div_mul_cancel_r; [reflexivity| |]; apply Z.pow_nonzero; lia.
Qed.

Lemma shiftl_le_scaled (a b ea eb : Z) :
  let k := Z.min (Z.min ea eb) 0 in
  a * 2 ^ (ea - k) <= b * 2 ^ (eb - k) -> Z.shiftl a ea <= Z.shiftl b eb.
Proof.
  intros k H.
  rewrite (shiftl_scaled a ea k), (shiftl_scaled b eb k) by (unfold k; lia).
  apply Z.div_le_mono; [apply Z.pow_pos_nonneg; unfold k; lia|exact H].
Qed.

(** On the specifications of two finite positive numbers, the order of
    the comparison is the order of the truncations. *)
Lemma shiftl_le_of_compare (mx my : positive) (ex ey : Z) :
  bounded prec emax mx ex = true -> bounded prec emax my ey = true ->
  match ex ?= ey with
  | Lt => Lt
  | Gt => Gt
  | Eq => Pos.compare_cont Eq mx my
  end <> Gt ->
  Z.shiftl (Z.pos mx) ex <= Z.shiftl (Z.pos my) ey.
Proof.
  unfold bounded, canonical_mantissa, fexp, SpecFloat.emin, prec, emax.
  intros Hx Hy Hc.
  apply andb_prop in Hx; destruct Hx as [Hx _]; apply Z.eqb_eq in Hx.
  apply andb_prop in Hy; destruct Hy as [Hy _]; apply Z.eqb_eq in Hy.
  pose proof (digits2_pos_bounds mx) as [_ Bx].
  pose proof (digits2_pos_bounds my) as [By _].
  apply shiftl_le_scaled.
  set (k := Z.min (Z.min ex ey) 0).
  destruct (ex ?= ey) eqn:Hcmp.
  - apply Z.compare_eq in Hcmp; subst ey.
    apply Z.mul_le_mono_nonneg_r; [apply Z.pow_nonneg; lia|].
    change (Pos.compare_cont Eq mx my) with (mx ?= my)%positive in Hc.
    apply Pos2Z.pos_le_pos; exact Hc.
  - rewrite Z.compare_lt_iff in Hcmp.
    assert (Hdy : Z.pos (digits2_pos my) = 53) by lia.
    assert (Hdx : Z.pos (digits2_pos mx) <= 53) by lia.
    rewrite Hdy in By.
    assert (Bx' : Z.pos mx < 2 ^ 53).
    { eapply Z.lt_le_trans; [exact Bx|apply Z.pow_le_mono_r; lia]. }
    replace (ey - k) with ((ey - ex) + (ex - k)) by lia.
    rewrite Z.pow_add_r by (unfold k; lia).
    assert (HP : 2 ^ 1 <= 2 ^ (ey - ex)) by (apply Z.pow_le_mono_r; lia).
    assert (HA : 0 <= 2 ^ (ex - k)) by (apply Z.pow_nonneg; lia).
    rewrite Z.mul_assoc. apply Z.mul_le_mono_nonneg_r; [exact HA|].
    change (2 ^ 1) with 2 in HP. change (2 ^ (53 - 1)) with 4503599627370496 in By.
    change (2 ^ 53) with 9007199254740992 in Bx'. nia.
  - congruence.
Qed.

Lemma to_u32_range (x : float) : 0 <= Kernel.to_u32 x <= 4294967295.
Proof.
  unfold Kernel.to_u32; destruct (Prim2SF x) as [s|[]| |s m e]; lia.
Qed.

(** [u32(e)] is monotone with respect to the comparison of the kernel. *)
Lemma to_u32_mono (x y : float) :
  (x <=? y)%float = true -> Kernel.to_u32 x <= Kernel.to_u32 y.
Proof.
  rewrite FloatAxioms.leb_spec; unfold SFleb, Kernel.to_u32, truncate.
  pose proof (Prim2SF_valid x) as Vx. pose proof (Prim2SF_valid y) as Vy.
  assert (N : forall m e, 0 <= Z.shiftl (Z.pos m) e)
    by (intros m e; apply Z.shiftl_nonneg; lia).
  destruct (Prim2SF x) as [sx|sx| |sx mx ex], (Prim2SF y) as [sy|sy| |sy my ey];
    simpl; try discriminate;
    try (destruct sx; try discriminate; destruct sy; try discriminate; intros _; lia);
    try (destruct sx; intros _; lia);
    try (destruct sy; try discriminate; intros _; lia).
  - pose proof (N mx ex); destruct sx; simpl; intros Hc; try discriminate; lia.
  - pose proof (N mx ex); pose proof (N my ey).
    destruct sx, sy; simpl cond_Zopp; intros Hc; try discriminate; try lia.
    assert (Hle : Z.shiftl (Z.pos mx) ex <= Z.shiftl (Z.pos my) ey).
    { apply shiftl_le_of_compare; try assumption.
      destruct (ex ?= ey); try discriminate;
        destruct (Pos.compare_cont Eq mx my); discriminate. }
    lia.
Qed.

End Truncation.

Section RayMarching.

Import Kernel.

Variables (u : Uniforms) (volume : texture_3d) (inp : VertexOut).

Lemma coordinate_outside_guard (x : float) :
  coordinate_outside x = true -> ((0 <=? x) && (x <=? 1))%float = false.
Proof.
  unfold coordinate_outside; intros H.
  apply orb_prop in H; destruct H as [H|H]; [apply orb_prop in H; destruct H as [H|H]|].
  - rewrite (ltb_not_leb _ _ H); reflexivity.
  - rewrite (ltb_not_leb _ _ H); apply andb_false_r.
  - destruct (0 <=? x)%float eqn:H0; [|reflexivity].
    apply leb_not_nan in H0; destruct H0 as [_ H0]; congruence.
Qed.

Lemma outside_guard (v : vec3f) :
  outside_unit_cube v = true -> all_ge v (splat 0) && all_le v (splat 1) = false.
Proof.
  unfold outside_unit_cube, all_ge, all_le, splat; cbn [vx vy vz]; intros H.
  apply orb_prop in H; destruct H as [H|H]; [apply orb_prop in H; destruct H as [H|H]|];
    apply coordinate_outside_guard in H; apply andb_false_iff in H; destruct H as [H|H];
    rewrite H;
    repeat match goal with
           | |- context [(?a <=? ?b)%float] => destruct (a <=? b)%float
           end; reflexivity.
Qed.

(** C6. A marching step whose position in voxel space,
    [invAffine * (origin + t * dir)], is outside the unit cube (some
    coordinate below 0, above 1, or not a number) contributes nothing: the
    sum after the step is the sum before it, and no texel is fetched. *)
Theorem outside_contributes_nothing (st : float * list vec3u) (t : float) :
  outside_unit_cube (voxelPos_at u inp t) = true ->
  march_step u volume inp st t = st.
Proof.
  intros H; unfold march_step; destruct st as [sum fetched].
  rewrite (outside_guard _ H); reflexivity.
Qed.

(** The loop is a fold of its body over the values of [t]. *)
Lemma march_fold (fuel : nat) :
  forall t st,
    march fuel u volume inp t st
    = option_map (fun ts => fold_left (march_step u volume inp) ts st)
        (march_times fuel t).
Proof.
  induction fuel as [|fuel IH]; intros t st; simpl; [reflexivity|].
  destruct (t <? maxDistance)%float; [|reflexivity].
  rewrite IH; destruct (march_times fuel (add t stepSize)); reflexivity.
Qed.

Lemma march_step_fetches (st : float * list vec3u) (t : float) :
  Forall (texel_in_bounds u) (snd st) ->
  Forall (texel_in_bounds u) (snd (march_step u volume inp st t)).
Proof.
  intros Hst; unfold march_step; destruct st as [sum fetched]; simpl in Hst.
  destruct (all_ge (voxelPos_at u inp t) (splat 0) && all_le (voxelPos_at u inp t) (splat 1));
    [|exact Hst].
  set (texCoord := vmul (voxelPos_at u inp t) (vsub (volumeDims u) (splat 1))).
  destruct (all_ge texCoord (splat 0) && all_le texCoord (vsub (volumeDims u) (splat 1)))
    eqn:Hguard; [|exact Hst].
  simpl; apply Forall_app; split; [exact Hst|].
  constructor; [|constructor].
  apply andb_prop in Hguard; destruct Hguard as [_ Hle].
  unfold all_le in Hle.
  apply andb_prop in Hle; destruct Hle as [Hle Hz].
  apply andb_prop in Hle; destruct Hle as [Hx Hy].
  unfold texel_in_bounds, to_vec3u; cbn [ux uy uz].
  pose proof (to_u32_range (vx texCoord)); pose proof (to_u32_range (vy texCoord));
    pose proof (to_u32_range (vz texCoord)).
  apply to_u32_mono in Hx; apply to_u32_mono in Hy; apply to_u32_mono in Hz.
  repeat split; lia || assumption.
Qed.

Lemma fold_march_step_fetches (ts : list float) :
  forall st, Forall (texel_in_bounds u) (snd st) ->
  Forall (texel_in_bounds u) (snd (fold_left (march_step u volume inp) ts st)).
Proof.
  induction ts as [|t ts IH]; intros st Hst; simpl; [exact Hst|].
  apply IH, march_step_fetches, Hst.
Qed.

End RayMarching.

(** The upper bound of the fetches for the dimensions of a few volumes:
    [volumeDims - 1] as an integer. *)
Example texel_bound_examples :
  map (fun n => Kernel.to_u32 (Kernel.sub (fround n) 1))
    [1; 2; 64; 192; 256; 2048; 16777216]%float
  = [0; 1; 63; 191; 255; 2047; 16777215].
Proof. vm_compute; reflexivity. Qed.

(** A step in front of the volume, on the identity transform. *)
Lemma outside_contributes_nothing_witness :
  let m := [1;0;0;0; 0;1;0;0; 0;0;1;0; 0;0;0;1]%float in
  let u := {| Kernel.invAffine := m; Kernel.invViewProj := m;
              Kernel.volumeDims := Kernel.Vec3f 4 4 4;
              Kernel.thresholdLow := 0; Kernel.thresholdHigh := 1 |} in
  let inp := {| Kernel.rayOrigin := Kernel.Vec3f 0.5 0.5 (-0.5);
                Kernel.rayDir := Kernel.Vec3f 0 0 1 |} in
  outside_unit_cube (Kernel.voxelPos_at u inp 0.25) = true
  /\ Kernel.march_step u (fun _ => 1%float) inp (0.125%float, []) 0.25
     = (0.125%float, []).
Proof.
  intros m u inp; split; [reflexivity|].
  apply (outside_contributes_nothing u (fun _ => 1%float) inp); reflexivity.
Defined.

(** ** Strings: splitting, joining and trimming *)

Section Strings.

Lemma append_assoc (a b c : string) : ((a ++ b) ++ c = a ++ b ++ c)%string.
Proof. induction a as [|x a IH]; simpl; congruence. Qed.

Lemma append_nil_r (a : string) : (a ++ "" = a)%string.
Proof. induction a as [|x a IH]; simpl; congruence. Qed.

Lemma has_char_app (c : ascii) (a b : string) :
  has_char c (a ++ b) = has_char c a || has_char c b.
Proof.
  induction a as [|x a IH]; simpl; [reflexivity|].
  rewrite IH; apply orb_assoc.
Qed.

Lemma split_no_sep (c : ascii) (a : string) :
  has_char c a = false -> split c a = [a].
Proof.
  induction a as [|x a IH]; simpl; [reflexivity|].
  intros H; apply orb_false_elim in H; destruct H as [Hx Ha].
  rewrite Hx, (IH Ha); reflexivity.
Qed.

Lemma split_app (c : ascii) (a b : string) :
  has_char c a = false -> split c (a ++ String c b) = a :: split c b.
Proof.
  induction a as [|x a IH]; simpl.
  - intros _; rewrite Ascii.eqb_refl; reflexivity.
  - intros H; apply orb_false_elim in H; destruct H as [Hx Ha].
    rewrite Hx, (IH Ha); reflexivity.
Qed.

(** Splitting undoes joining, when no piece has the separator. *)
Lemma split_concat (c : ascii) (parts : list string) :
  parts <> [] -> forallb (fun p => negb (has_char c p)) parts = true ->
  split c (String.concat (String c "") parts) = parts.
Proof.
  induction parts as [|p parts IH]; [congruence|]; intros _ H.
  simpl in H; apply andb_prop in H; destruct H as [Hp Hr].
  apply negb_true_iff in Hp.
  destruct parts as [|q parts]; [simpl; apply split_no_sep, Hp|].
  change (String.concat (String c "") (p :: q :: parts))
    with (p ++ String c (String.concat (String c "") (q :: parts)))%string.
  rewrite (split_app c p _ Hp), IH; [reflexivity|discriminate|exact Hr].
Qed.

Lemma no_white_space_has_char (c : ascii) (t : string) :
  is_white_space c = true -> no_white_space t = true -> has_char c t = false.
Proof.
  intros Hc; induction t as [|x t IH]; simpl; [reflexivity|].
  intros H; apply andb_prop in H; destruct H as [Hx Ht].
  rewrite (IH Ht), orb_false_r.
  destruct (Ascii.eqb_spec x c) as [->|]; [|reflexivity].
  rewrite Hc in Hx; discriminate.
Qed.

Lemma token_ok_parts (t : string) :
  token_ok t = true ->
  t <> "" /\ no_white_space t = true /\ startsWith t "--" = false.
Proof.
  unfold token_ok; intros H.
  apply andb_prop in H; destruct H as [H H3].
  apply andb_prop in H; destruct H as [H1 H2].
  apply negb_true_iff in H1, H3; apply String.eqb_neq in H1; auto.
Qed.

(** *** Trimming *)

Lemma trimEnd_app_fixed (a b : string) :
  b <> "" -> trimEnd b = b -> trimEnd (a ++ b) = (a ++ b)%string.
Proof.
  intros Hb Hfix; induction a as [|x a IH]; simpl; [exact Hfix|].
  rewrite IH; destruct (a ++ b)%string eqn:Hab; [|reflexivity].
  destruct a; simpl in Hab; congruence.
Qed.

Lemma trimEnd_token (t : string) : no_white_space t = true -> trimEnd t = t.
Proof.
  induction t as [|x t IH]; simpl; [reflexivity|].
  intros H; apply andb_prop in H; destruct H as [Hx Ht].
  rewrite (IH Ht); apply negb_true_iff in Hx; rewrite Hx.
  destruct t; reflexivity.
Qed.

Lemma trimEnd_white_space (w : string) : all_white_space w = true -> trimEnd w = "".
Proof.
  induction w as [|x w IH]; simpl; [reflexivity|].
  intros H; apply andb_prop in H; destruct H as [Hx Hw].
  rewrite (IH Hw), Hx; reflexivity.
Qed.

Lemma trimEnd_app_white_space (a w : string) :
  all_white_space w = true -> trimEnd (a ++ w) = trimEnd a.
Proof.
  intros Hw; induction a as [|x a IH]; simpl; [apply trimEnd_white_space, Hw|].
  rewrite IH; reflexivity.
Qed.

Lemma concat_tokens_nonempty (tokens : list string) :
  line_ok tokens = true -> String.concat " " tokens <> "".
Proof.
  destruct tokens as [|t tokens]; [discriminate|]; intros H.
  simpl in H; apply andb_prop in H; destruct H as [Ht _].
  apply token_ok_parts in Ht; destruct Ht as (Ht & _ & _).
  destruct tokens; simpl; [exact Ht|].
  destruct t; [congruence|discriminate].
Qed.

Lemma trimEnd_line (tokens : list string) :
  line_ok tokens = true -> trimEnd (String.concat " " tokens) = String.concat " " tokens.
Proof.
  induction tokens as [|t tokens IH]; [discriminate|]; intros H.
  simpl in H; apply andb_prop in H; destruct H as [Ht Hr].
  destruct tokens as [|t' tokens].
  - simpl; apply trimEnd_token; apply token_ok_parts in Ht; tauto.
  - change (String.concat " " (t :: t' :: tokens))
      with (t ++ (" " ++ String.concat " " (t' :: tokens)))%string.
    assert (Hl : line_ok (t' :: tokens) = true) by exact Hr.
    apply trimEnd_app_fixed; [destruct (String.concat " " (t' :: tokens)); discriminate|].
    apply (trimEnd_app_fixed " "); [apply concat_tokens_nonempty, Hl|apply IH, Hl].
Qed.

Lemma trimStart_line (tokens : list string) :
  line_ok tokens = true -> trimStart (String.concat " " tokens) = String.concat " " tokens.
Proof.
  destruct tokens as [|t tokens]; [discriminate|]; intros H.
  simpl in H; apply andb_prop in H; destruct H as [Ht _].
  apply token_ok_parts in Ht; destruct Ht as (Hne & Hws & _).
  destruct t as [|x t]; [congruence|].
  simpl in Hws; apply andb_prop in Hws; destruct Hws as [Hx _].
  apply negb_true_iff in Hx.
  destruct tokens; simpl; rewrite Hx; reflexivity.
Qed.

Lemma trim_line (tokens : list string) :
  line_ok tokens = true -> trim (String.concat " " tokens) = String.concat " " tokens.
Proof.
  intros H; unfold trim; rewrite (trimStart_line _ H); apply trimEnd_line, H.
Qed.

(** A data line followed by white space trims to the data line. *)
Lemma trim_line_padded (tokens : list string) (w : string) :
  line_ok tokens = true -> all_white_space w = true ->
  trim (String.concat " " tokens ++ w) = String.concat " " tokens.
Proof.
  intros H Hw; unfold trim.
  assert (Hs : trimStart (String.concat " " tokens ++ w)
               = (String.concat " " tokens ++ w)%string).
  { pose proof (trimStart_line _ H) as Hl.
    pose proof (concat_tokens_nonempty _ H) as Hne.
    destruct (String.concat " " tokens) as [|x r]; [congruence|].
    simpl in *. destruct (is_white_space x); [|reflexivity].
    exfalso. clear -Hl.
    assert (Hlen : forall s, (String.length (trimStart s) <= String.length s)%nat).
    { induction s as [|y s IH]; simpl; [lia|]. destruct (is_white_space y); simpl; lia. }
    pose proof (Hlen r) as Hr; rewrite Hl in Hr; simpl in Hr; lia. }
  rewrite Hs, trimEnd_app_white_space by exact Hw.
  apply trimEnd_line, H.
Qed.

Lemma split_line (tokens : list string) :
  line_ok tokens = true -> split SP (String.concat " " tokens) = tokens.
Proof.
  intros H; apply (split_concat SP tokens).
  - destruct tokens; [discriminate|congruence].
  - destruct tokens as [|t tokens]; [discriminate|].
    unfold line_ok in H. rewrite forallb_forall in *.
    intros x Hx; specialize (H x Hx); apply token_ok_parts in H.
    destruct H as (_ & Hws & _).
    rewrite (no_white_space_has_char SP x eq_refl Hws); reflexivity.
Qed.

Lemma line_has_no_LF (tokens : list string) :
  line_ok tokens = true -> has_char LF (String.concat " " tokens) = false.
Proof.
  induction tokens as [|t tokens IH]; [discriminate|]; intros H.
  simpl in H; apply andb_prop in H; destruct H as [Ht Hr].
  apply token_ok_parts in Ht; destruct Ht as (_ & Hws & _).
  pose proof (no_white_space_has_char LF t eq_refl Hws) as Hc.
  destruct tokens as [|t' tokens]; [exact Hc|].
  change (String.concat " " (t :: t' :: tokens))
    with (t ++ (" " ++ String.concat " " (t' :: tokens)))%string.
  rewrite !has_char_app, Hc, (IH Hr); reflexivity.
Qed.

Lemma startsWith_dashes (s : string) :
  startsWith s "--"
  = match s with
    | String a (String b _) => Ascii.eqb a "-" && Ascii.eqb b "-"
    | _ => false
    end.
Proof.
  unfold startsWith.
  destruct s as [|a [|b s]]; cbn -[ascii_dec]; [reflexivity| |].
  - destruct (ascii_dec "-" a) as [<-|]; [reflexivity|].
    destruct (Ascii.eqb_spec a "-"); [congruence|reflexivity].
  - destruct (ascii_dec "-" a) as [<-|Ha].
    + destruct (ascii_dec "-" b) as [<-|Hb]; [destruct s; reflexivity|].
      destruct (Ascii.eqb_spec b "-"); [congruence|reflexivity].
    + destruct (Ascii.eqb_spec a "-"); [congruence|reflexivity].
Qed.

Lemma line_not_marker (tokens : list string) :
  line_ok tokens = true -> startsWith (String.concat " " tokens) "--" = false.
Proof.
  destruct tokens as [|t tokens]; [discriminate|]; intros H.
  simpl in H; apply andb_prop in H; destruct H as [Ht _].
  apply token_ok_parts in Ht; destruct Ht as (Hne & _ & Hp).
  destruct tokens as [|t' tokens]; [exact Hp|].
  change (String.concat " " (t :: t' :: tokens))
    with (t ++ (" " ++ String.concat " " (t' :: tokens)))%string.
  rewrite startsWith_dashes in *.
  destruct t as [|a [|b t]]; [congruence| |exact Hp].
  simpl; apply andb_false_r.
Qed.

End Strings.

(** ** Form A: what the scanning loop does on a well-formed text *)

Section FormA.

Lemma numbers_of_line (tokens : list string) :
  line_ok tokens = true -> numbers_of (String.concat " " tokens) = map Number tokens.
Proof.
  intros H; unfold numbers_of; rewrite (trim_line _ H), (split_line _ H); reflexivity.
Qed.

Lemma scan_header_lines (ls : list (list string)) :
  forall st, section st = Some "--header--" -> forallb line_ok ls = true ->
  fold_left scan_line (map (String.concat " ") ls) st
  = {| section := section st;
       shape := (shape st ++ map Number (List.concat ls))%list;
       affineValues := affineValues st; voxelLine := voxelLine st |}.
Proof.
  induction ls as [|l ls IH]; intros st Hs H; simpl.
  - rewrite app_nil_r; destruct st; reflexivity.
  - apply andb_prop in H; destruct H as [Hl Hr].
    assert (Hstep : scan_line st (String.concat " " l)
                    = {| section := section st;
                         shape := (shape st ++ map Number l)%list;
                         affineValues := affineValues st;
                         voxelLine := voxelLine st |}).
    { unfold scan_line, section_is; rewrite (line_not_marker _ Hl), Hs; simpl.
      rewrite (numbers_of_line _ Hl); reflexivity. }
    rewrite Hstep, IH by (simpl; assumption); simpl.
    rewrite map_app, app_assoc; reflexivity.
Qed.

Lemma scan_affine_lines (ls : list (list string)) :
  forall st, section st = Some "--affine--" -> forallb line_ok ls = true ->
  fold_left scan_line (map (String.concat " ") ls) st
  = {| section := section st; shape := shape st;
       affineValues := (affineValues st ++ map Number (List.concat ls))%list;
       voxelLine := voxelLine st |}.
Proof.
  induction ls as [|l ls IH]; intros st Hs H; simpl.
  - rewrite app_nil_r; destruct st; reflexivity.
  - apply andb_prop in H; destruct H as [Hl Hr].
    assert (Hstep : scan_line st (String.concat " " l)
                    = {| section := section st; shape := shape st;
                         affineValues := (affineValues st ++ map Number l)%list;
                         voxelLine := voxelLine st |}).
    { unfold scan_line, section_is; rewrite (line_not_marker _ Hl), Hs; simpl.
      rewrite (numbers_of_line _ Hl); reflexivity. }
    rewrite Hstep, IH by (simpl; assumption); simpl.
    rewrite map_app, app_assoc; reflexivity.
Qed.

Lemma scan_voxel_lines (ls : list (list string)) :
  forall st, section st = Some "--voxel--" -> forallb line_ok ls = true ->
  fold_left scan_line (map (String.concat " ") ls) st
  = {| section := section st; shape := shape st;
       affineValues := affineValues st;
       voxelLine := (voxelLine st ++ voxel_text ls)%string |}.
Proof.
  induction ls as [|l ls IH]; intros st Hs H; simpl.
  - rewrite append_nil_r; destruct st; reflexivity.
  - apply andb_prop in H; destruct H as [Hl Hr].
    assert (Hstep : scan_line st (String.concat " " l)
                    = {| section := section st; shape := shape st;
                         affineValues := affineValues st;
                         voxelLine := (voxelLine st ++ String.concat " " l ++ " ")%string |}).
    { unfold scan_line, section_is; rewrite (line_not_marker _ Hl), Hs; simpl.
      rewrite (trim_line _ Hl); reflexivity. }
    rewrite Hstep, IH by (simpl; assumption); simpl.
    rewrite !append_assoc; reflexivity.
Qed.

Lemma concat_app_lines (a b : list string) :
  a <> [] -> b <> [] ->
  String.concat " " (a ++ b) = (String.concat " " a ++ " " ++ String.concat " " b)%string.
Proof.
  intros Ha Hb; induction a as [|t a IH]; [congruence|].
  destruct a as [|t' a].
  - destruct b; [congruence|reflexivity].
  - change (String.concat " " ((t :: t' :: a) ++ b))
      with (t ++ " " ++ String.concat " " ((t' :: a) ++ b))%string.
    rewrite IH by discriminate.
    change (String.concat " " (t :: t' :: a))
      with (t ++ " " ++ String.concat " " (t' :: a))%string.
    rewrite !append_assoc; reflexivity.
Qed.

Lemma line_ok_app (a b : list string) :
  line_ok a = true -> line_ok b = true -> line_ok (a ++ b) = true.
Proof.
  destruct a as [|t a]; [discriminate|]; intros Ha Hb.
  destruct b as [|t' b]; [discriminate|].
  unfold line_ok in *; simpl app.
  change (t :: (a ++ t' :: b))%list with ((t :: a) ++ (t' :: b))%list.
  rewrite forallb_app, Ha, Hb; reflexivity.
Qed.

Lemma line_ok_concat (ls : list (list string)) :
  ls <> [] -> forallb line_ok ls = true -> line_ok (List.concat ls) = true.
Proof.
  induction ls as [|l ls IH]; [congruence|]; intros _ H.
  simpl in H; apply andb_prop in H; destruct H as [Hl Hr].
  destruct ls as [|l' ls]; [simpl; rewrite app_nil_r; exact Hl|].
  simpl List.concat at 1; apply line_ok_app; [exact Hl|].
  apply IH; [discriminate|exact Hr].
Qed.

(** The lines of the voxel section, joined: all the tokens with one space
    between them, and a space at the end. *)
Lemma voxel_text_tokens (ls : list (list string)) :
  ls <> [] -> forallb line_ok ls = true ->
  voxel_text ls = (String.concat " " (List.concat ls) ++ " ")%string.
Proof.
  induction ls as [|l ls IH]; [congruence|]; intros _ H.
  simpl in H; apply andb_prop in H; destruct H as [Hl Hr].
  destruct ls as [|l' ls].
  - simpl; rewrite app_nil_r; reflexivity.
  - change (voxel_text (l :: l' :: ls))
      with (String.concat " " l ++ " " ++ voxel_text (l' :: ls))%string.
    rewrite IH by (discriminate || exact Hr).
    simpl List.concat at 2.
    rewrite concat_app_lines.
    + rewrite !append_assoc; reflexivity.
    + destruct l; [discriminate|congruence].
    + pose proof (line_ok_concat (l' :: ls) ltac:(discriminate) Hr) as Hc.
      intros Heq; change (List.concat (l' :: ls) = []) in Heq.
      rewrite Heq in Hc; discriminate.
Qed.

Lemma lines_have_no_LF (ls : list (list string)) :
  forallb line_ok ls = true ->
  forallb (fun p => negb (has_char LF p)) (map (String.concat " ") ls) = true.
Proof.
  induction ls as [|l ls IH]; simpl; [reflexivity|]; intros H.
  apply andb_prop in H; destruct H as [Hl Hr].
  rewrite (line_has_no_LF _ Hl), (IH Hr); reflexivity.
Qed.

(** What [parseVoxelTxt] returns on a well-formed text: the tokens of the
    three sections, through [Number]. *)
Lemma parseVoxelText_formA (header affine voxel : list (list string)) (final_newline : bool) :
  forallb line_ok header = true -> forallb line_ok affine = true ->
  forallb line_ok voxel = true -> voxel <> [] ->
  parseVoxelText (formA_text header affine voxel final_newline)
  = {| voxel := Float32Array (map Number (List.concat voxel));
       dims := [ get (map Number (List.concat header)) 1;
                 get (map Number (List.concat header)) 2;
                 get (map Number (List.concat header)) 0 ];
       affine := Float32Array (map Number (List.concat affine)) |}.
Proof.
  intros Hh Ha Hv Hne.
  unfold parseVoxelText, scan_lines, formA_text.
  change newline with (String LF "").
  rewrite split_concat.
  2: { unfold formA_lines; simpl; discriminate. }
  2: { unfold formA_lines; rewrite !forallb_app; simpl.
       rewrite !lines_have_no_LF by assumption.
       destruct final_newline; reflexivity. }
  unfold formA_lines.
  rewrite fold_left_app.
  cbn [app fold_left].
  rewrite fold_left_app.
  change (scan_line scan0 "--header--")
    with {| section := Some "--header--"; shape := []; affineValues := []; voxelLine := "" |}.
  rewrite scan_header_lines by (reflexivity || assumption).
  cbn [section shape affineValues voxelLine app fold_left].
  rewrite fold_left_app.
  match goal with |- context [scan_line ?st "--affine--"] =>
    change (scan_line st "--affine--")
      with {| section := Some "--affine--"; shape := shape st;
              affineValues := affineValues st; voxelLine := voxelLine st |} end.
  rewrite scan_affine_lines by (reflexivity || assumption).
  cbn [section shape affineValues voxelLine app fold_left].
  match goal with |- context [scan_line ?st "--voxel--"] =>
    change (scan_line st "--voxel--")
      with {| section := Some "--voxel--"; shape := shape st;
              affineValues := affineValues st; voxelLine := voxelLine st |} end.
  rewrite scan_voxel_lines by (reflexivity || assumption).
  cbn [section shape affineValues voxelLine app fold_left].
  rewrite (voxel_text_tokens _ Hne Hv).
  pose proof (line_ok_concat _ Hne Hv) as Hc.
  destruct final_newline; cbn [fold_left].
  - match goal with |- context [scan_line ?st ""] =>
      change (scan_line st "")
        with {| section := section st; shape := shape st;
                affineValues := affineValues st;
                voxelLine := (voxelLine st ++ "" ++ " ")%string |} end.
    cbn [section shape affineValues voxelLine append].
    rewrite append_assoc, (trim_line_padded _ (" " ++ " ") Hc eq_refl), (split_line _ Hc).
    reflexivity.
  - cbn [section shape affineValues voxelLine append].
    rewrite (trim_line_padded _ " " Hc eq_refl), (split_line _ Hc).
    reflexivity.
Qed.

Lemma flat_S (d : nat) (a : list json) :
  flat (S d) a
  = flat_map (fun e => match e with jarr l => flat d l | jnum _ => [e] end) a.
Proof. reflexivity. Qed.

Lemma flat_numbers (d : nat) (row : list float) :
  flat (S d) (map jnum row) = map jnum row.
Proof.
  rewrite flat_S; induction row as [|x row IH]; [reflexivity|].
  cbn [map flat_map app]; rewrite IH; reflexivity.
Qed.

Lemma flat_rows (d : nat) (rows : list (list float)) :
  flat (S (S d)) (map (fun row => jarr (map jnum row)) rows)
  = map jnum (List.concat rows).
Proof.
  rewrite flat_S; induction rows as [|row rows IH]; [reflexivity|].
  cbn [map flat_map List.concat]; rewrite IH, flat_numbers, map_app; reflexivity.
Qed.

Lemma flat_one_rows (rows : list (list float)) :
  flat 1 (map (fun row => jarr (map jnum row)) rows) = map jnum (List.concat rows).
Proof.
  rewrite flat_S; induction rows as [|row rows IH]; [reflexivity|].
  cbn [map flat_map List.concat]; rewrite IH, map_app; reflexivity.
Qed.

Lemma flat_slices (slices : list (list (list float))) :
  flat 3 (map (fun slice => jarr (map (fun row => jarr (map jnum row)) slice)) slices)
  = map jnum (List.concat (List.concat slices)).
Proof.
  rewrite flat_S; induction slices as [|slice slices IH]; [reflexivity|].
  cbn [map flat_map List.concat]; rewrite IH, flat_rows, concat_app, map_app; reflexivity.
Qed.

Lemma Float32Array_of_numbers (l : list float) :
  Float32Array_of_json (map jnum l) = Float32Array l.
Proof.
  unfold Float32Array_of_json, Float32Array; rewrite map_map; reflexivity.
Qed.

End FormA.

(** ** What the Form A parser collects from any text *)

Section Totality.

Lemma Number_not_numeric (t : string) : is_numeric t = false -> Number t = nan.
Proof.
  unfold is_numeric, Number; destruct (trim t); [discriminate|].
  destruct (parse_numeric_literal _); [discriminate|reflexivity].
Qed.

Lemma get_undefined (a : list float) (k : nat) :
  get a k = undefined <-> (List.length a <= k)%nat.
Proof.
  unfold get; rewrite <- nth_error_None.
  destruct (nth_error a k); split; congruence.
Qed.

(** A line of a text without the section leaves the section closed and
    what the section collects as it is. *)
Lemma scan_line_missing (name line : string) (st : scan) :
  opens_section name line = false -> section st <> Some name ->
  section (scan_line st line) <> Some name
  /\ (name = "--header--" -> shape (scan_line st line) = shape st)
  /\ (name = "--affine--" -> affineValues (scan_line st line) = affineValues st)
  /\ (name = "--voxel--" -> voxelLine (scan_line st line) = voxelLine st).
Proof.
  unfold opens_section, scan_line, section_is; intros Hline Hst.
  destruct (startsWith line "--"); simpl in Hline.
  - apply String.eqb_neq in Hline; simpl; repeat split; congruence.
  - destruct (section st) as [sec|] eqn:Hsec;
      [|repeat split; auto; rewrite Hsec; discriminate].
    destruct (String.eqb_spec sec "--header--") as [Hh|Hh];
      [subst sec; simpl; repeat split; try assumption;
       intros Hn; subst name; solve [reflexivity|congruence]|].
    destruct (String.eqb_spec sec "--affine--") as [Ha|Ha];
      [subst sec; simpl; repeat split; try assumption;
       intros Hn; subst name; solve [reflexivity|congruence]|].
    destruct (String.eqb_spec sec "--voxel--") as [Hv|Hv];
      [subst sec; simpl; repeat split; try assumption;
       intros Hn; subst name; solve [reflexivity|congruence]|].
    repeat split; auto; rewrite Hsec; exact Hst.
Qed.

Lemma scan_missing (name : string) (lines : list string) :
  forall st,
    forallb (fun line => negb (opens_section name line)) lines = true ->
    section st <> Some name ->
    let st' := fold_left scan_line lines st in
    section st' <> Some name
    /\ (name = "--header--" -> shape st' = shape st)
    /\ (name = "--affine--" -> affineValues st' = affineValues st)
    /\ (name = "--voxel--" -> voxelLine st' = voxelLine st).
Proof.
  induction lines as [|line lines IH]; intros st H Hst; simpl; [auto|].
  simpl in H; apply andb_prop in H; destruct H as [Hl Hr].
  apply negb_true_iff in Hl.
  destruct (scan_line_missing name line st Hl Hst) as (H0 & H1 & H2 & H3).
  destruct (IH (scan_line st line) Hr H0) as (I0 & I1 & I2 & I3).
  repeat split; auto; intros Hn;
    [rewrite (I1 Hn)|rewrite (I2 Hn)|rewrite (I3 Hn)]; auto.
Qed.

Lemma section_missing_fields (name text : string) :
  section_missing name text = true ->
  (name = "--header--" -> shape (scan_lines text) = [])
  /\ (name = "--affine--" -> affineValues (scan_lines text) = [])
  /\ (name = "--voxel--" -> voxelLine (scan_lines text) = "").
Proof.
  intros H.
  destruct (scan_missing name (split LF text) scan0 H) as (_ & H1 & H2 & H3);
    [discriminate|].
  auto.
Qed.

(** What the header and the affine sections collect: [Number] of every
    token of their data lines. *)
Lemma scan_collects (lines : list string) :
  forall st,
    shape (fold_left scan_line lines st)
    = (shape st ++ map Number (section_tokens "--header--" (section st) lines))%list
    /\ affineValues (fold_left scan_line lines st)
       = (affineValues st
          ++ map Number (section_tokens "--affine--" (section st) lines))%list.
Proof.
  induction lines as [|line lines IH]; intros st.
  - simpl; rewrite !app_nil_r; auto.
  - cbn [fold_left section_tokens].
    destruct (IH (scan_line st line)) as [IHs IHa]; rewrite IHs, IHa; clear IHs IHa.
    unfold scan_line, section_is, numbers_of.
    destruct (startsWith line "--"); [simpl; auto|].
    destruct (section st) as [sec|] eqn:Hsec; [|rewrite Hsec; auto].
    destruct (String.eqb_spec sec "--header--") as [Hh|Hh].
    { subst sec; simpl; rewrite map_app, app_assoc; auto. }
    destruct (String.eqb_spec sec "--affine--") as [Ha|Ha].
    { subst sec; simpl; rewrite map_app, app_assoc; auto. }
    destruct (String.eqb_spec sec "--voxel--") as [Hv|Hv];
      simpl; rewrite ?Hsec; auto.
Qed.

Lemma nth_error_Float32Array (tokens : list string) (k : nat) (t : string) :
  nth_error tokens k = Some t -> is_numeric t = false ->
  nth_error (Float32Array (map Number tokens)) k = Some nan.
Proof.
  intros Hk Ht; unfold Float32Array.
  rewrite !nth_error_map, Hk; cbn [option_map].
  rewrite (Number_not_numeric _ Ht); reflexivity.
Qed.

End Totality.

(** ** A frame without the inverse of the affine matrix *)

Section NoValidation.

Context `{Externals}.





End NoValidation.

(** ** The order of the dimensions *)

(** C1, on the code. For a volume of depth 2, height 3 and width 4 both
    loaders return [dims] = (3, 4, 2), that is (height, width, depth) and
    not (width, height, depth) = (4, 3, 2): [dims[0]] is [shape[1]]. The
    upload then declares rows of [dims[0]] = 3 samples (12 bytes) over data
    whose rows, flattened depth-major, have 4: the texel (0, 1, 0) is the
    sample [0][0][3] of the volume, where with rows of 4 samples (16 bytes)
    it is the sample [0][1][0]. *)
Theorem dims_are_height_width_depth :
  let a := parseVoxelText (formA_text header_2_3_4 affine_identity voxel_2_3_4 true) in
  let b := loadVolumeDocument (formB_document volume_2_3_4) in
  dims a = [number 3; number 4; number 2]
  /\ dims b = [number 3; number 4; number 2]
  /\ dims a <> [number 4; number 3; number 2]
  /\ (exists rest,
        snd (@main sample_externals sample_page (voxel a) (dims a) (affine a) [])
        = (createTexture [number 3; number 4; number 2]
           :: writeTexture (voxel a) 12 (number 4) [number 3; number 4; number 2]
           :: rest)%list)
  /\ uploaded_texel (voxel a) 12 4 0 1 0 = sample_at volume_2_3_4 0 0 3
  /\ uploaded_texel (voxel a) 16 3 0 1 0 = sample_at volume_2_3_4 0 1 0.
Proof.
  intros a b.
  assert (Ha : dims a = [number 3; number 4; number 2]) by (vm_compute; reflexivity).
  refine (conj _ (conj _ (conj _ (conj _ (conj _ _))))).
  - exact Ha.
  - vm_compute; reflexivity.
  - rewrite Ha; intros Heq.
    apply (f_equal (fun l => match l with
                             | number x :: _ => Leibniz.eqb x 3
                             | _ => false
                             end)) in Heq.
    vm_compute in Heq; discriminate.
  - eexists; vm_compute; reflexivity.
  - vm_compute; reflexivity.
  - vm_compute; reflexivity.
Qed.

(** ** The embedding on concrete inputs *)

Example Number_examples :
  map Number ["0.005"; "2"; "-0"; " 12 "; ""; "0x1F"; ".5e-3"; "1e400"; "-Infinity";
              "abc"; "1 2"; "1e"; "."]
  = [0.005; 2; -0; 12; 0; 31; 0.0005; infinity; neg_infinity; nan; nan; nan; nan]%float.
Proof. vm_compute; reflexivity. Qed.

Example fround_examples :
  map fround [0.1; 16777217; 1e40; 1e-46; 0.005]%float
  = [0.100000001490116119384765625; 16777216; infinity; 0;
     0.004999999888241291046142578125]%float.
Proof. vm_compute; reflexivity. Qed.

Example f32_bytes_examples :
  map f32_bytes [fround 1; fround (-2); fround 0.1; nan]%float
  = [[0; 0; 128; 63]; [0; 0; 0; 192]; [205; 204; 204; 61]; [0; 0; 192; 127]].
Proof. vm_compute; reflexivity. Qed.

Example mat4_invert_examples :
  mat4_invert [2;0;0;0; 0;4;0;0; 0;0;1;0; 1;2;3;1]%float
  = Some [0.5;0;0;0; 0;0.25;0;0; 0;0;1;0; -0.5;-0.5;-3;1]%float
  /\ mat4_invert [] = None.
Proof. split; vm_compute; reflexivity. Qed.

Example parseVoxelTxt_example :
  parseVoxelTxt (text_body ("--header--" ++ newline ++ "2 1 2" ++ newline
                            ++ "--affine--" ++ newline ++ "1 0 0 0.5" ++ newline
                            ++ "--voxel--" ++ newline ++ "1 2" ++ newline
                            ++ "3 x" ++ newline))
  = Ok {| voxel := [1; 2; 3; nan]%float;
          dims := [number 1; number 2; number 2];
          affine := [1; 0; 0; 0.5]%float |}.
Proof. vm_compute; reflexivity. Qed.

(** The loop of the kernel takes 401 turns: in binary32 the four
    hundredth sum of [stepSize] is still below [maxDistance]. *)
Example march_times_example :
  option_map (fun ts => (List.length ts, nth 400 ts 0%float)) (Kernel.march_times 1000 0)
  = Some (401%nat, 1.99999833106994628906250%float).
Proof. vm_compute; reflexivity. Qed.

(** A drag far past the pole and two extreme scrolls. *)
Example session_example :
  let c := fst (@session sample_externals
                  [ dispatch (mousedown 10 10); dispatch (mousemove 10 100000);
                    dispatch (wheel (-100000)); dispatch (mouseup);
                    dispatch (mousemove 10 0) ]%float
                  (initial_closure 800 600 [] [], [])) in
  (cameraPhi c, cameraRadius c, dragging c) = (0.05, 0.5, false)%float.
Proof. vm_compute; reflexivity. Qed.

(* ================================================================== *)
(** * Part III: further properties of the code                         *)
(* ================================================================== *)

(** ** A frame is all or nothing *)

Section Frames.

Context `{Externals}.

Lemma TypedArray_set_length (t : list float) (src : option (list float))
    (off : nat) (t' : list float) :
  TypedArray_set t src off = Ok t' -> List.length t' = List.length t.
Proof.
  unfold TypedArray_set; destruct src as [src|]; [|discriminate].
  destruct (Nat.leb_spec (off + List.length src) (List.length t)); [|discriminate].
  intros [= <-]; unfold Float32Array.
  rewrite !length_app, length_map, length_firstn, length_skipn; lia.
Qed.

Lemma TypedArray_store_length (t : list float) (i : nat) (x : float) :
  List.length (TypedArray_store t i x) = List.length t.
Proof.
  unfold TypedArray_store; destruct (Nat.ltb_spec i (List.length t)); [|reflexivity].
  rewrite length_app; cbn [List.length]; rewrite length_firstn, length_skipn; lia.
Qed.

Lemma buffer_of_length (a : list float) :
  List.length (buffer_of a) = (4 * List.length a)%nat.
Proof.
  unfold buffer_of; induction a as [|x a IH]; [reflexivity|].
  cbn [flat_map]; rewrite length_app, IH; cbn [f32_bytes List.length]; lia.
Qed.

Lemma uniformData_of_length (ia ivp : option (list float)) (dims : list value)
    (low high : float) (u : list float) :
  uniformData_of ia ivp dims low high = Ok u -> List.length u = 40%nat.
Proof.
  unfold uniformData_of; rewrite uniformData_fresh.
  destruct (TypedArray_set (repeat 0%float 40) ia 0) as [u1|] eqn:E1; [|discriminate].
  destruct (TypedArray_set u1 ivp 16) as [u2|] eqn:E2; [|discriminate].
  destruct (TypedArray_set u2 (Some (map ToNumber dims)) 32) as [u3|] eqn:E3; [|discriminate].
  intros [= <-]; rewrite !TypedArray_store_length.
  apply TypedArray_set_length in E1, E2, E3; rewrite E3, E2, E1; apply repeat_length.
Qed.

Lemma mat4_invert_length (a m : list float) :
  mat4_invert a = Some m -> List.length m = 16%nat.
Proof.
  unfold mat4_invert; cbv zeta; destruct (not_ (mat4_determinant a)); [discriminate|].
  intros [= <-]; reflexivity.
Qed.

(** The uniform data can be packed exactly when both matrices are there
    and [dims] fits behind them. *)
Lemma uniformData_of_ok (ia ivp : option (list float)) (dims : list value)
    (low high : float) :
  (forall a, ia = Some a -> List.length a = 16%nat) ->
  (forall a, ivp = Some a -> List.length a = 16%nat) ->
  (exists u, uniformData_of ia ivp dims low high = Ok u)
  <-> (ia <> None /\ ivp <> None /\ (List.length dims <= 8)%nat).
Proof.
  intros Ha Hb; unfold uniformData_of; rewrite uniformData_fresh.
  destruct ia as [a|]; [|split; [intros [u Hu]; discriminate|intros (F & _); congruence]].
  pose proof (Ha a eq_refl) as La.
  destruct (TypedArray_set (repeat 0%float 40) (Some a) 0) as [u1|e1] eqn:E1.
  2:{ exfalso; unfold TypedArray_set in E1; rewrite La, repeat_length in E1;
      cbn in E1; discriminate. }
  pose proof (TypedArray_set_length _ _ _ _ E1) as L1; rewrite repeat_length in L1.
  destruct ivp as [b|]; [|split; [intros [u Hu]; discriminate|intros (_ & F & _); congruence]].
  pose proof (Hb b eq_refl) as Lb.
  destruct (TypedArray_set u1 (Some b) 16) as [u2|e2] eqn:E2.
  2:{ exfalso; unfold TypedArray_set in E2; rewrite Lb, L1 in E2; cbn in E2; discriminate. }
  pose proof (TypedArray_set_length _ _ _ _ E2) as L2; rewrite L1 in L2.
  unfold TypedArray_set; rewrite length_map, L2.
  destruct (Nat.leb_spec (32 + List.length dims) 40).
  - split; [intros _; repeat split; try discriminate; lia|intros _; eexists; reflexivity].
  - split; [intros [u Hu]; discriminate|intros (_ & _ & F); lia].
Qed.

(** What a call of [render] does to the calls made so far. *)
Lemma render_trace (low high : float) (c : Closure) (log : list gpu_call) :
  match render low high c log with
  | (Ok c', log') =>
      c' = with_scheduled true c
      /\ exists data, List.length data = 160%nat
                      /\ log' = (log ++ frame_calls data)%list
  | (Throw e, log') => log' = log
  end.
Proof.
  unfold render.
  destruct (uniformData_of _ _ _ _ _) as [u|e] eqn:E; [|reflexivity].
  unfold bind, call, ret; split; [reflexivity|].
  exists (buffer_of u); split.
  - rewrite buffer_of_length, (uniformData_of_length _ _ _ _ _ _ E); reflexivity.
  - unfold frame_calls; rewrite <- !app_assoc; reflexivity.
Qed.

(** X1. A call of [render] is all or nothing on the GPU: either it throws
    before any call is made, or it makes exactly three calls, a write of
    the 160 bytes of the uniform buffer, one draw of six vertices and
    one submit, and asks for the next frame. *)
Theorem render_frame_is_atomic (low high : float) (c : Closure)
    (log : list gpu_call) :
  match render low high c log with
  | (Ok c', log') =>
      c' = with_scheduled true c
      /\ exists data, List.length data = 160%nat
                      /\ log' = (log ++ [writeBuffer data; draw 6 1 0 0; submit])%list
  | (Throw e, log') => log' = log
  end.
Proof. exact (render_trace low high c log). Qed.

(** X2. A frame completes exactly when the affine matrix and the
    view-projection matrix both have an inverse (and [dims] has at most
    the eight entries that fit behind them in the uniform data). *)
Theorem render_completes_iff (low high : float) (c : Closure)
    (log : list gpu_call) :
  (exists c' log', render low high c log = (Ok c', log'))
  <-> (mat4_invert (main_affine c) <> None
       /\ invViewProj (deriveMatrices c) <> None
       /\ (List.length (main_dims c) <= 8)%nat).
Proof.
  rewrite <- (uniformData_of_ok _ _ _ low high).
  - unfold render; destruct (uniformData_of _ _ _ _ _) as [u|e]; split.
    + intros _; exists u; reflexivity.
    + intros _; unfold bind, call, ret; eexists; eexists; reflexivity.
    + intros (c' & log' & Hr); discriminate.
    + intros [u Hu]; discriminate.
  - intros a; apply mat4_invert_length.
  - intros a; unfold deriveMatrices; cbn [invViewProj]; apply mat4_invert_length.
Qed.

(** X3. [main] makes its calls in one order: the texture is created and
    written, the uniform buffer is created, and only then the first
    frame is drawn. A run that throws has drawn nothing, and without an
    adapter it has made no call at all. *)
Theorem main_draws_after_upload (page : Page) (voxelData : list float)
    (dims : list value) (affine : list float) :
  match main page voxelData dims affine [] with
  | (Ok c, log) =>
      exists data,
        List.length data = 160%nat
        /\ log = [ createTexture dims;
                   writeTexture voxelData (ToNumber (nth 0 dims undefined) * 4)%float
                     (nth 1 dims undefined) dims;
                   createBuffer uniformBufferSize;
                   writeBuffer data; draw 6 1 0 0; submit ]
  | (Throw e, log) =>
      if adapter page then existsb is_draw log = false else log = []
  end.
Proof.
  unfold main, call_checked.
  cbv beta iota delta [bind call ret throw].
  destruct (adapter page); [|reflexivity].
  destruct (forallb enforce_range_u32 dims); [|reflexivity].
  destruct (_ && _ && _); [|reflexivity].
  match goal with
  | |- context [render ?l ?h ?c ?log] =>
      pose proof (render_trace l h c log) as Hr;
      destruct (render l h c log) as [[c'|e] log']
  end.
  - destruct Hr as (_ & data & Hlen & ->); exists data; split; [exact Hlen|reflexivity].
  - subst log'; reflexivity.
Qed.

(** Without a pending frame nothing reaches the GPU any more, whatever
    the events. *)
Lemma no_frame_pending (ticks : list tick) :
  forall c log,
    scheduled c = false ->
    snd (session ticks (c, log)) = log
    /\ scheduled (fst (session ticks (c, log))) = false.
Proof.
  unfold session; induction ticks as [|t ticks IH]; intros c log Hs; [split; [reflexivity|exact Hs]|].
  cbn [fold_left]; destruct t as [low high|e].
  - cbn [on_tick]; rewrite Hs; apply IH, Hs.
  - cbn [on_tick]; apply IH.
    destruct e; cbn [handle]; try exact Hs.
    unfold on_mousemove; destruct (negb (dragging c)); exact Hs.
Qed.

(** X4. A frame that throws ends the render loop for good: [render] has
    not asked for another animation frame, so whatever follows (frames
    the browser runs, pointer and wheel events) makes no further call on
    the GPU. *)
Theorem failed_frame_stops_rendering (low high : float) (c : Closure)
    (log log' : list gpu_call) (e : error) (ticks : list tick) :
  scheduled c = true ->
  render low high (with_scheduled false c) log = (Throw e, log') ->
  snd (session (animation_frame low high :: ticks) (c, log)) = log
  /\ scheduled (fst (session (animation_frame low high :: ticks) (c, log))) = false.
Proof.
  intros Hs Hr.
  pose proof (render_trace low high (with_scheduled false c) log) as Ht.
  rewrite Hr in Ht; subst log'.
  unfold session; cbn [fold_left on_tick]; rewrite Hs, Hr.
  apply (no_frame_pending ticks); reflexivity.
Qed.

(** X5. While the button is up the pointer does not move the camera:
    over any run of frames and events without a [mousedown], started with
    the button up, the two angles stay what they were. *)
Theorem idle_pointer_keeps_camera (ticks : list tick) (c : Closure)
    (log : list gpu_call) :
  dragging c = false ->
  forallb (fun t => negb (is_mousedown t)) ticks = true ->
  let c' := fst (session ticks (c, log)) in
  cameraTheta c' = cameraTheta c /\ cameraPhi c' = cameraPhi c
  /\ dragging c' = false.
Proof.
  revert c log; unfold session; induction ticks as [|t ticks IH]; intros c log Hd Hf;
    [repeat split; exact Hd|].
  cbn [forallb] in Hf; apply andb_prop in Hf; destruct Hf as [Ht Hf].
  cbn [fold_left].
  destruct t as [low high|e].
  - destruct (on_frame_closure low high c log) as [b Hb].
    destruct (on_tick (c, log) (animation_frame low high)) as [c1 log1].
    cbn [fst] in Hb; subst c1.
    exact (IH (with_scheduled b c) log1 Hd Hf).
  - cbn [on_tick]; destruct e as [x y| |x y|d]; cbn [handle]; [discriminate| | |].
    + exact (IH (on_mouseup c) log eq_refl Hf).
    + unfold on_mousemove; rewrite Hd; cbn [negb]; exact (IH c log Hd Hf).
    + exact (IH (on_wheel d c) log Hd Hf).
Qed.

End Frames.

(** A frame on a volume without an affine matrix, then more frames and
    a drag. *)
Lemma failed_frame_stops_rendering_witness :
  let c := with_scheduled true (initial_closure 800 600 [number 2; number 2; number 2] []) in
  let ticks := [ animation_frame 0 1; dispatch (mousedown 1 1);
                 dispatch (mousemove 5 5); animation_frame 0 1 ]%float in
  snd (@session sample_externals (animation_frame 0 1 :: ticks) (c, [])) = []
  /\ scheduled (fst (@session sample_externals (animation_frame 0 1 :: ticks) (c, [])))
     = false.
Proof.
  intros c ticks.
  apply (@failed_frame_stops_rendering sample_externals 0%float 1%float c [] [] TypeError ticks);
    vm_compute; reflexivity.
Defined.

(** The pointer moving and the wheel turning with the button up. *)
Lemma idle_pointer_keeps_camera_witness :
  let ticks := [ dispatch (mousemove 300 400); animation_frame 0 1;
                 dispatch (wheel 120); dispatch mouseup;
                 dispatch (mousemove 0 0) ]%float in
  let c := initial_closure 800 600 [] [] in
  dragging c = false
  /\ forallb (fun t => negb (is_mousedown t)) ticks = true
  /\ (let c' := fst (@session sample_externals ticks (c, [])) in
      cameraTheta c' = cameraTheta c /\ cameraPhi c' = cameraPhi c
      /\ dragging c' = false).
Proof.
  intros ticks c.
  refine (conj eq_refl (conj eq_refl _)).
  apply (@idle_pointer_keeps_camera sample_externals ticks c []); reflexivity.
Defined.

(** ** The order of binary64 numbers is transitive *)

Section Order.

Local Open Scope float_scope.

Lemma SFleb_key (x y : spec_float) :
  x <> S754_nan -> y <> S754_nan ->
  (SFleb x y = true <-> lex_le (SFkey x) (SFkey y)).
Proof.
  intros Hx Hy; unfold SFleb, SFcompare, lex_le, SFkey.
  destruct x as [sx|sx| |sx mx ex]; [| |congruence|];
    (destruct y as [sy|sy| |sy my ey]; [| |congruence|]);
    try destruct sx; try destruct sy;
    repeat match goal with
           | |- context [Z.compare ?a ?b] => destruct (Z.compare_spec a b)
           | |- context [Pos.compare_cont Eq ?a ?b] =>
               change (Pos.compare_cont Eq a b) with (Pos.compare a b);
               destruct (Pos.compare_spec a b)
           end; cbn [CompOpp];
    split; intros; try discriminate; try reflexivity; lia.
Qed.

Lemma leb_trans (x y z : float) :
  (x <=? y) = true -> (y <=? z) = true -> (x <=? z) = true.
Proof.
  intros Hxy Hyz.
  destruct (leb_not_nan _ _ Hxy) as [Hx Hy]; destruct (leb_not_nan _ _ Hyz) as [_ Hz].
  apply isNaN_spec in Hx, Hy, Hz.
  rewrite FloatAxioms.leb_spec in *.
  apply SFleb_key in Hxy; [|assumption|assumption].
  apply SFleb_key in Hyz; [|assumption|assumption].
  apply SFleb_key; [assumption|assumption|].
  unfold lex_le in *.
  destruct (SFkey (Prim2SF x)) as [[a1 a2] a3], (SFkey (Prim2SF y)) as [[b1 b2] b3],
    (SFkey (Prim2SF z)) as [[c1 c2] c3]; lia.
Qed.

(** Two numbers that compare equal are the same number, unless they are
    the two zeros. *)
Lemma eqb_eq_nonzero (x y : float) :
  (x =? y) = true -> isNonzeroFinite x = true -> x = y.
Proof.
  rewrite FloatAxioms.eqb_spec; unfold SFeqb, SFcompare, isNonzeroFinite.
  intros Heq Hx; apply Prim2SF_inj; revert Heq Hx.
  destruct (Prim2SF x) as [sx|sx| |sx mx ex]; try discriminate.
  destruct (Prim2SF y) as [sy|sy| |sy my ey]; try (destruct sx; discriminate);
    try (destruct sy; discriminate).
  destruct sx, sy; try discriminate;
    (destruct (Z.compare_spec ex ey); try discriminate);
    change (Pos.compare_cont Eq mx my) with (Pos.compare mx my);
    (destruct (Pos.compare_spec mx my); try discriminate); intros; subst; reflexivity.
Qed.

Lemma not_ltb_leb (x y : float) :
  isNaN x = false -> isNaN y = false -> (x <? y) = false -> (y <=? x) = true.
Proof.
  intros Hx Hy Hlt; destruct (compare_cases x y Hx Hy) as [H|[H|H]];
    [congruence|apply ltb_leb, H|apply eqb_leb_sym, H].
Qed.

Lemma leb_not_ltb (x y : float) : (x <=? y) = true -> (y <? x) = false.
Proof.
  intros Hle; destruct (y <? x) eqn:Hlt; [|reflexivity].
  apply ltb_not_leb in Hlt; congruence.
Qed.

Lemma eqb_sym (x y : float) : (x =? y) = (y =? x).
Proof.
  rewrite !FloatAxioms.eqb_spec; unfold SFeqb.
  rewrite (SFcompare_antisym (Prim2SF y) (Prim2SF x)).
  destruct (SFcompare (Prim2SF y) (Prim2SF x)) as [[]|]; reflexivity.
Qed.

Lemma Math_min_r (hi x : float) :
  (x <=? hi) = true -> isNonzeroFinite hi = true -> Math_min hi x = x.
Proof.
  intros Hle Hhi; unfold Math_min.
  rewrite (leb_not_ltb _ _ Hle).
  destruct (x <? hi) eqn:Hlt; [reflexivity|].
  destruct (leb_not_nan _ _ Hle) as [Hx Hh].
  destruct (compare_cases hi x Hh Hx) as [H|[H|H]].
  - apply ltb_not_leb in H; congruence.
  - congruence.
  - rewrite H; destruct (get_sign hi); [apply eqb_eq_nonzero; assumption|reflexivity].
Qed.

Lemma Math_max_r (lo x : float) :
  (lo <=? x) = true -> isNonzeroFinite lo = true -> Math_max lo x = x.
Proof.
  intros Hle Hlo; unfold Math_max.
  destruct (lo <? x) eqn:Hlt; [reflexivity|].
  rewrite (leb_not_ltb _ _ Hle).
  destruct (leb_not_nan _ _ Hle) as [Hl Hx].
  destruct (compare_cases lo x Hl Hx) as [H|[H|H]].
  - congruence.
  - apply ltb_not_leb in H; congruence.
  - rewrite H; destruct (get_sign lo); [reflexivity|apply eqb_eq_nonzero; assumption].
Qed.

Lemma Math_max_l (lo x : float) : (x <? lo) = true -> Math_max lo x = lo.
Proof.
  intros Hlt; unfold Math_max.
  rewrite (leb_not_ltb _ _ (ltb_leb _ _ Hlt)), Hlt; reflexivity.
Qed.

(** [Math.max(lo, Math.min(hi, x))] is the clamp of [x] to [lo, hi]. *)
Lemma Math_clamp (lo hi x : float) :
  (lo <=? hi) = true -> isNonzeroFinite lo = true -> isNonzeroFinite hi = true ->
  isNaN x = false ->
  Math_max lo (Math_min hi x) = clamp_to lo hi x.
Proof.
  intros Hlh Hlo Hhi Hx; unfold clamp_to.
  destruct (leb_not_nan _ _ Hlh) as [Hl Hh].
  destruct (x <? lo) eqn:Hxl.
  - rewrite Math_min_r; [apply Math_max_l, Hxl| |exact Hhi].
    apply leb_trans with lo; [apply ltb_leb, Hxl|exact Hlh].
  - apply (not_ltb_leb _ _ Hx Hl) in Hxl.
    destruct (hi <? x) eqn:Hhx.
    + unfold Math_min at 1; rewrite Hhx.
      apply Math_max_r; assumption.
    + apply (not_ltb_leb _ _ Hh Hx) in Hhx.
      rewrite Math_min_r; [|exact Hhx|exact Hhi].
      apply Math_max_r; assumption.
Qed.

End Order.

(** ** The handlers clamp, and do nothing else to the value *)

Section Clamps.

Local Open Scope float_scope.

(** X6. A wheel event scales the radius by [1 + deltaY * 0.001] and
    clamps the product to [0.5, 10]: the new radius is the product
    itself when that lies in the range, and exactly the nearer bound
    when it does not. *)
Theorem wheel_clamps_radius (d : float) (c : Closure) :
  isFinite d = true -> radius_in_range c = true ->
  cameraRadius (on_wheel d c)
  = clamp_to 0.5 10 (cameraRadius c * (1 + d * 0.001)).
Proof.
  intros Hd Hrad; unfold on_wheel; cbn [cameraRadius].
  apply Math_clamp; try reflexivity.
  apply mul_not_nan_l.
  - apply isPositiveFinite_nonzero, radius_in_range_positive, Hrad.
  - apply add_not_nan; [reflexivity|].
    apply mul_not_nan_r; [apply isFinite_not_nan, Hd|reflexivity].
Qed.

(** X7. A move of the pointer with the button down turns the polar angle
    by [dy * 0.005] and clamps it to [0.05, Math.PI - 0.05]: the new
    angle is the turned one when that lies in the range, and exactly the
    nearer bound when it does not. The azimuth turns by [dx * 0.005]
    without a clamp, and the radius is not touched. *)
Theorem drag_clamps_phi (x y : float) (c : Closure) :
  dragging c = true -> isFinite y = true -> isFinite (lastY c) = true ->
  phi_in_range c = true ->
  let c' := on_mousemove x y c in
  cameraPhi c'
  = clamp_to 0.05 (Math_PI - 0.05) (cameraPhi c - (y - lastY c) * 0.005)
  /\ cameraTheta c' = cameraTheta c - (x - lastX c) * 0.005
  /\ cameraRadius c' = cameraRadius c
  /\ (lastX c', lastY c') = (x, y).
Proof.
  intros Hdrag Hy Hlast Hphi; unfold on_mousemove; rewrite Hdrag; cbn [negb].
  cbn [cameraPhi cameraTheta cameraRadius lastX lastY].
  refine (conj _ (conj eq_refl (conj eq_refl eq_refl))).
  apply Math_clamp; try reflexivity.
  apply sub_not_nan.
  - apply isNonzeroFinite_isFinite, isPositiveFinite_nonzero, phi_in_range_positive, Hphi.
  - apply mul_not_nan_r; [|reflexivity].
    apply sub_not_nan; [exact Hy|apply isFinite_not_nan, Hlast].
Qed.

End Clamps.

(** A scroll far out, which stops at the bound 10, and a small one. *)
Lemma wheel_clamps_radius_witness :
  let c := initial_closure 800 600 [] [] in
  isFinite 1e6 = true /\ radius_in_range c = true
  /\ cameraRadius (on_wheel 1e6 c)
     = clamp_to 0.5 10 (cameraRadius c * (1 + 1e6 * 0.001))%float.
Proof.
  intros c; refine (conj eq_refl (conj eq_refl _)).
  apply (wheel_clamps_radius 1e6%float c); reflexivity.
Defined.

(** A drag far down, which stops at the bound 0.05. *)
Lemma drag_clamps_phi_witness :
  let c := on_mousedown 10 10 (initial_closure 800 600 [] []) in
  dragging c = true /\ isFinite 5000 = true /\ isFinite (lastY c) = true
  /\ phi_in_range c = true
  /\ (let c' := on_mousemove 30 5000 c in
      cameraPhi c'
      = clamp_to 0.05 (Math_PI - 0.05) (cameraPhi c - (5000 - lastY c) * 0.005)%float
      /\ cameraTheta c' = (cameraTheta c - (30 - lastX c) * 0.005)%float
      /\ cameraRadius c' = cameraRadius c
      /\ (lastX c', lastY c') = (30, 5000)%float).
Proof.
  intros c; refine (conj eq_refl (conj eq_refl (conj eq_refl (conj eq_refl _)))).
  apply (drag_clamps_phi 30%float 5000%float c); reflexivity.
Defined.

(** ** The marching loop as a whole *)

Section Marching.

Import Kernel.

Variables (u : Uniforms) (inp : VertexOut).

Lemma march_times_run : march_times 1000 0 = Some marching_times.
Proof.
  unfold marching_times.
  destruct (march_times 1000 0) as [ts|] eqn:Hts; [reflexivity|].
  vm_compute in Hts; discriminate.
Qed.


Lemma fsMain_fold (volume : texture_3d) :
  fsMain u volume inp
  = (let '(sum, fetched) :=
       fold_left (march_step u volume inp) marching_times (0%float, []) in
     Some ((sum, sum, sum, 1%float), fetched)).
Proof.
  unfold fsMain; rewrite march_fold, march_times_run; reflexivity.
Qed.

Lemma fold_outside (volume : texture_3d) (ts : list float) :
  forall st,
    forallb (fun t => outside_unit_cube (voxelPos_at u inp t)) ts = true ->
    fold_left (march_step u volume inp) ts st = st.
Proof.
  induction ts as [|t ts IH]; intros st Hts; [reflexivity|].
  cbn [forallb] in Hts; apply andb_prop in Hts; destruct Hts as [Ht Hts].
  cbn [fold_left]; rewrite <- (IH st Hts) at 2; f_equal.
  unfold march_step; destruct st as [sum fetched].
  rewrite (outside_guard _ Ht); reflexivity.
Qed.

(** X8. A ray that is outside the unit cube of voxel space at every step
    of the loop gives the colour (0, 0, 0, 1), and the texture is not
    read for it. *)
Theorem missed_ray_is_black (volume : texture_3d) :
  forallb (fun t => outside_unit_cube (voxelPos_at u inp t)) marching_times = true ->
  fsMain u volume inp = Some ((0, 0, 0, 1)%float, []).
Proof.
  intros Hout; rewrite fsMain_fold, (fold_outside volume _ _ Hout); reflexivity.
Qed.




(** A texel the second guard lets through is within the bounds. *)
Lemma guard_in_bounds (texCoord : vec3f) :
  all_ge texCoord (splat 0) && all_le texCoord (vsub (volumeDims u) (splat 1)) = true ->
  texel_in_bounds u (to_vec3u texCoord).
Proof.
  intros Hguard.
  apply andb_prop in Hguard; destruct Hguard as [_ Hle].
  unfold all_le in Hle.
  apply andb_prop in Hle; destruct Hle as [Hle Hz].
  apply andb_prop in Hle; destruct Hle as [Hx Hy].
  unfold texel_in_bounds, to_vec3u; cbn [ux uy uz].
  pose proof (to_u32_range (vx texCoord)); pose proof (to_u32_range (vy texCoord));
    pose proof (to_u32_range (vz texCoord)).
  apply to_u32_mono in Hx; apply to_u32_mono in Hy; apply to_u32_mono in Hz.
  repeat split; lia || assumption.
Qed.

Lemma march_step_agree (v1 v2 : texture_3d) (st : float * list vec3u) (t : float) :
  (forall c, texel_in_bounds u c -> v1 c = v2 c) ->
  march_step u v1 inp st t = march_step u v2 inp st t.
Proof.
  intros Hv; unfold march_step; destruct st as [sum fetched].
  destruct (_ && _); [|reflexivity].
  destruct (_ && _) eqn:Hguard; [|reflexivity].
  rewrite (Hv _ (guard_in_bounds _ Hguard)); reflexivity.
Qed.

(** X10. The colour of a pixel depends on the texture only through the
    texels within [0, volumeDims - 1]: two textures that agree there give
    the same colour and the same fetches, whatever they hold elsewhere. *)
Theorem fsMain_reads_only_in_bounds (v1 v2 : texture_3d) :
  (forall c, texel_in_bounds u c -> v1 c = v2 c) ->
  fsMain u v1 inp = fsMain u v2 inp.
Proof.
  intros Hv; rewrite !fsMain_fold.
  assert (Hfold : forall ts st,
             fold_left (march_step u v1 inp) ts st
             = fold_left (march_step u v2 inp) ts st).
  { induction ts as [|t ts IH]; intros st; cbn [fold_left]; [reflexivity|].
    rewrite (march_step_agree v1 v2 st t Hv); apply IH. }
  rewrite Hfold; reflexivity.
Qed.

End Marching.

(** A ray that starts behind the volume and points away from it. *)
Lemma missed_ray_is_black_witness :
  let m := [1;0;0;0; 0;1;0;0; 0;0;1;0; 0;0;0;1]%float in
  let u := {| Kernel.invAffine := m; Kernel.invViewProj := m;
              Kernel.volumeDims := Kernel.Vec3f 4 4 4;
              Kernel.thresholdLow := 0; Kernel.thresholdHigh := 1 |} in
  let inp := {| Kernel.rayOrigin := Kernel.Vec3f 0.5 0.5 1.5;
                Kernel.rayDir := Kernel.Vec3f 0 0 1 |} in
  forallb (fun t => outside_unit_cube (Kernel.voxelPos_at u inp t)) marching_times = true
  /\ Kernel.fsMain u (fun _ => 1%float) inp = Some ((0, 0, 0, 1)%float, []).
Proof.
  intros m u inp.
  assert (Hout : forallb (fun t => outside_unit_cube (Kernel.voxelPos_at u inp t))
                   marching_times = true) by (vm_compute; reflexivity).
  split; [exact Hout|].
  apply (missed_ray_is_black u inp (fun _ => 1%float) Hout).
Defined.

(** A texture of ones, and one that is zero past texel 3 of a 4 x 4 x 4
    volume. *)
Lemma fsMain_reads_only_in_bounds_witness :
  let m := [1;0;0;0; 0;1;0;0; 0;0;1;0; 0;0;0;1]%float in
  let u := {| Kernel.invAffine := m; Kernel.invViewProj := m;
              Kernel.volumeDims := Kernel.Vec3f 4 4 4;
              Kernel.thresholdLow := 0; Kernel.thresholdHigh := 1 |} in
  let inp := {| Kernel.rayOrigin := Kernel.Vec3f 0.5 0.5 (-0.5);
                Kernel.rayDir := Kernel.Vec3f 0 0 1 |} in
  let v1 : Kernel.texture_3d := fun _ => 1%float in
  let v2 : Kernel.texture_3d := fun c =>
    if (Kernel.ux c <=? 3) && (Kernel.uy c <=? 3) && (Kernel.uz c <=? 3)
    then 1%float else 0%float in
  (forall c, texel_in_bounds u c -> v1 c = v2 c)
  /\ Kernel.fsMain u v1 inp = Kernel.fsMain u v2 inp.
Proof.
  intros m u inp v1 v2.
  assert (Hv : forall c, texel_in_bounds u c -> v1 c = v2 c).
  { intros c Hc; unfold v1, v2.
    assert (Htop : Kernel.to_vec3u (Kernel.vsub (Kernel.volumeDims u) (Kernel.splat 1))
                   = Kernel.Vec3u 3 3 3) by (vm_compute; reflexivity).
    unfold texel_in_bounds in Hc; rewrite Htop in Hc; cbn [Kernel.ux Kernel.uy Kernel.uz] in Hc.
    destruct Hc as ((_ & Hx) & (_ & Hy) & (_ & Hz)).
    apply Z.leb_le in Hx, Hy, Hz; rewrite Hx, Hy, Hz; reflexivity. }
  split; [exact Hv|].
  apply (fsMain_reads_only_in_bounds u inp v1 v2 Hv).
Defined.

(** ** Form B: how the nested samples are laid out *)

Section FormB.

Lemma concat_uniform_length {A} (n : nat) (ls : list (list A)) :
  Forall (fun l => List.length l = n) ls ->
  List.length (List.concat ls) = (List.length ls * n)%nat.
Proof.
  induction 1 as [|l ls Hl _ IH]; [reflexivity|].
  cbn [List.concat List.length]; rewrite length_app, IH, Hl; lia.
Qed.

(** Element [j] of row [i] of rows of one length is element [i * n + j]
    of the rows laid end to end. *)
Lemma nth_concat_uniform {A} (n : nat) (d : A) (ls : list (list A)) :
  Forall (fun l => List.length l = n) ls ->
  forall i j, (j < n)%nat ->
  nth (i * n + j) (List.concat ls) d = nth j (nth i ls []) d.
Proof.
  induction 1 as [|l ls Hl _ IH]; intros i j Hj.
  - cbn [List.concat]; destruct (i * n + j)%nat, i, j; reflexivity.
  - cbn [List.concat]; destruct i as [|i].
    + cbn [Nat.mul Nat.add nth]; apply app_nth1; lia.
    + rewrite app_nth2 by lia.
      replace (S i * n + j - List.length l)%nat with (i * n + j)%nat by lia.
      cbn [nth]; apply IH, Hj.
Qed.

Lemma rectangular_spec (d h w : nat) (voxels : list (list (list float))) :
  rectangular d h w voxels = true ->
  List.length voxels = d
  /\ Forall (fun slice => List.length slice = h) voxels
  /\ Forall (fun row => List.length row = w) (List.concat voxels).
Proof.
  unfold rectangular; intros H; apply andb_prop in H; destruct H as [Hd Hs].
  apply Nat.eqb_eq in Hd; split; [exact Hd|].
  rewrite forallb_forall in Hs; split.
  - apply Forall_forall; intros slice Hin.
    specialize (Hs slice Hin); apply andb_prop in Hs; destruct Hs as [Hh _].
    apply Nat.eqb_eq, Hh.
  - apply Forall_forall; intros row Hin.
    apply in_concat in Hin; destruct Hin as (slice & Hslice & Hrow).
    specialize (Hs slice Hslice); apply andb_prop in Hs; destruct Hs as [_ Hw].
    rewrite forallb_forall in Hw; apply Nat.eqb_eq, Hw, Hrow.
Qed.

Lemma formB_voxel (v : LogicalVolume) :
  voxel (loadVolumeDocument (formB_document v))
  = Float32Array (List.concat (List.concat (lv_voxels v))).
Proof.
  unfold loadVolumeDocument, formB_document; cbn [voxel doc_voxel_data].
  rewrite flat_slices; apply Float32Array_of_numbers.
Qed.

(** The sample [voxel_data[i][j][k]] of a rectangular volume in the
    array [loadVolumeJSON] returns. *)
Lemma formB_voxel_at (v : LogicalVolume) (d h w i j k : nat) :
  rectangular d h w (lv_voxels v) = true ->
  (i < d)%nat -> (j < h)%nat -> (k < w)%nat ->
  exists x, sample_at v i j k = number x
            /\ get (voxel (loadVolumeDocument (formB_document v))) ((i * h + j) * w + k)
               = number (fround x).
Proof.
  intros Hrect Hi Hj Hk; rewrite formB_voxel.
  destruct (rectangular_spec _ _ _ _ Hrect) as (Hd & Hslices & Hrows).
  assert (Hlen : List.length (List.concat (lv_voxels v)) = (d * h)%nat)
    by (rewrite (concat_uniform_length h) by exact Hslices; rewrite Hd; reflexivity).
  assert (Hij : (i * h + j < d * h)%nat).
  { assert (S i * h <= d * h)%nat by (apply Nat.mul_le_mono_r; lia); lia. }
  assert (Hijk : ((i * h + j) * w + k < d * h * w)%nat).
  { assert (S (i * h + j) * w <= d * h * w)%nat by (apply Nat.mul_le_mono_r; lia); lia. }
  set (row := nth j (nth i (lv_voxels v) []) []).
  assert (Hrow : nth (i * h + j) (List.concat (lv_voxels v)) [] = row)
    by (apply nth_concat_uniform; assumption).
  assert (Hw : List.length row = w).
  { rewrite Forall_forall in Hrows; apply Hrows; rewrite <- Hrow.
    apply nth_In; rewrite Hlen; exact Hij. }
  assert (Hx : exists x, nth_error row k = Some x).
  { destruct (nth_error row k) as [x|] eqn:E; [exists x; reflexivity|].
    apply nth_error_None in E; lia. }
  destruct Hx as [x Hx]; exists x.
  unfold sample_at, get; fold row; rewrite Hx; split; [reflexivity|].
  unfold Float32Array; rewrite nth_error_map.
  rewrite (nth_error_nth' _ 0%float).
  2:{ rewrite (concat_uniform_length w) by exact Hrows; rewrite Hlen; exact Hijk. }
  rewrite (nth_concat_uniform w) by assumption.
  rewrite Hrow; cbn [option_map].
  rewrite (nth_error_nth _ _ 0%float Hx); reflexivity.
Qed.

Lemma formB_voxel_length (v : LogicalVolume) (d h w : nat) :
  rectangular d h w (lv_voxels v) = true ->
  List.length (voxel (loadVolumeDocument (formB_document v))) = (d * h * w)%nat.
Proof.
  intros Hrect; rewrite formB_voxel.
  destruct (rectangular_spec _ _ _ _ Hrect) as (Hd & Hslices & Hrows).
  unfold Float32Array; rewrite length_map, (concat_uniform_length w) by exact Hrows.
  rewrite (concat_uniform_length h) by exact Hslices; rewrite Hd; reflexivity.
Qed.

(** X11. [loadVolumeJSON] lays the samples out depth-major: for a volume
    of [d] slices of [h] rows of [w] samples the array has [d * h * w]
    elements, and the sample [voxel_data[i][j][k]] is element
    [(i * h + j) * w + k], rounded to binary32. The last index moves
    fastest, so a row of the array holds [w] samples. *)
Theorem formB_is_depth_major (v : LogicalVolume) (d h w i j k : nat) :
  rectangular d h w (lv_voxels v) = true ->
  (i < d)%nat -> (j < h)%nat -> (k < w)%nat ->
  let r := loadVolumeDocument (formB_document v) in
  List.length (voxel r) = (d * h * w)%nat
  /\ exists x, sample_at v i j k = number x
               /\ get (voxel r) ((i * h + j) * w + k) = number (fround x).
Proof.
  intros Hrect Hi Hj Hk r; split.
  - apply (formB_voxel_length v d h w Hrect).
  - apply (formB_voxel_at v d h w i j k); assumption.
Qed.

(** X12. [loadVolumeJSON] flattens: a document whose affine matrix is
    written as sixteen plain numbers, or whose samples are written as
    one plain array or as an array of rows, gives the same record as
    the document with the 4 x 4 matrix and the samples nested three
    deep. *)
Theorem formB_nesting_is_flattened (v : LogicalVolume) :
  let flat_affine := map jnum (List.concat (lv_affine v)) in
  let flat_voxels := map jnum (List.concat (List.concat (lv_voxels v))) in
  let row_voxels := json_rows (List.concat (lv_voxels v)) in
  let r := loadVolumeDocument (formB_document v) in
  loadVolumeDocument {| doc_shape := lv_shape v; doc_affine := flat_affine;
                        doc_voxel_data := flat_voxels |} = r
  /\ loadVolumeDocument {| doc_shape := lv_shape v; doc_affine := flat_affine;
                           doc_voxel_data := row_voxels |} = r.
Proof.
  intros flat_affine flat_voxels row_voxels r.
  unfold r, loadVolumeDocument, formB_document, flat_affine, flat_voxels, row_voxels,
    json_rows;
    cbn [doc_shape doc_affine doc_voxel_data].
  rewrite !flat_numbers, flat_rows, flat_one_rows, flat_slices.
  split; reflexivity.
Qed.

(** X13. For a volume whose slices are square, [h] rows of [h] samples,
    and whose shape says so, the upload of [main] puts every sample
    where the kernel reads it: with the [dims[0] * 4] bytes per row and
    the [dims[1]] rows per image that [main] declares, the texel
    (x, y, z) of the texture is the sample [voxel_data[z][y][x]]. *)
Theorem square_slices_upload_in_place (v : LogicalVolume) (d h x y z : nat) :
  let r := loadVolumeDocument (formB_document v) in
  let bytesPerRow := (ToNumber (nth 0 (dims r) undefined) * 4)%float in
  let rowsPerImage := ToNumber (nth 1 (dims r) undefined) in
  rectangular d h h (lv_voxels v) = true ->
  truncate bytesPerRow = Z.of_nat h * 4 -> truncate rowsPerImage = Z.of_nat h ->
  (x < h)%nat -> (y < h)%nat -> (z < d)%nat ->
  exists s,
    sample_at v z y x = number s
    /\ uploaded_texel (voxel r) (truncate bytesPerRow) (truncate rowsPerImage)
         (Z.of_nat x) (Z.of_nat y) (Z.of_nat z)
       = number (fround s).
Proof.
  intros r bytesPerRow rowsPerImage Hrect Hrow Himg Hx Hy Hz.
  destruct (formB_voxel_at v d h h z y x Hrect Hz Hy Hx) as (s & Hs & Hget).
  exists s; split; [exact Hs|].
  rewrite Hrow, Himg; unfold uploaded_texel; rewrite Z.div_mul by discriminate.
  replace (Z.to_nat (Z.of_nat x + Z.of_nat y * Z.of_nat h
                     + Z.of_nat z * (Z.of_nat h * Z.of_nat h)))
    with ((z * h + y) * h + x)%nat by lia.
  exact Hget.
Qed.

End FormB.

(** A volume of two slices of 2 x 2 samples. *)
Lemma square_slices_upload_in_place_witness :
  let v := {| lv_shape := [2; 2; 2]%float; lv_affine := identity_rows;
              lv_voxels := [[[0; 1]; [2; 3]]; [[4; 5]; [6; 7]]]%float |} in
  let r := loadVolumeDocument (formB_document v) in
  let bytesPerRow := (ToNumber (nth 0 (dims r) undefined) * 4)%float in
  let rowsPerImage := ToNumber (nth 1 (dims r) undefined) in
  rectangular 2 2 2 (lv_voxels v) = true
  /\ truncate bytesPerRow = Z.of_nat 2 * 4 /\ truncate rowsPerImage = Z.of_nat 2
  /\ (1 < 2)%nat /\ (0 < 2)%nat /\ (1 < 2)%nat
  /\ exists s,
       sample_at v 1 0 1 = number s
       /\ uploaded_texel (voxel r) (truncate bytesPerRow) (truncate rowsPerImage)
            (Z.of_nat 1) (Z.of_nat 0) (Z.of_nat 1)
          = number (fround s).
Proof.
  intros v r bytesPerRow rowsPerImage.
  refine (conj eq_refl (conj eq_refl (conj eq_refl (conj _ (conj _ (conj _ _)))))); try lia.
  apply (square_slices_upload_in_place v 2 2 1 0 1); [reflexivity|reflexivity|reflexivity|lia|lia|lia].
Defined.

(** The sample [voxel_data[1][2][3]] of the volume of depth 2, height 3
    and width 4 is element 23. *)
Lemma formB_is_depth_major_witness :
  rectangular 2 3 4 (lv_voxels volume_2_3_4) = true
  /\ (1 < 2)%nat /\ (2 < 3)%nat /\ (3 < 4)%nat
  /\ (let r := loadVolumeDocument (formB_document volume_2_3_4) in
      List.length (voxel r) = (2 * 3 * 4)%nat
      /\ exists x, sample_at volume_2_3_4 1 2 3 = number x
                   /\ get (voxel r) ((1 * 3 + 2) * 4 + 3) = number (fround x)).
Proof.
  refine (conj eq_refl (conj _ (conj _ (conj _ _)))); try lia.
  apply (formB_is_depth_major volume_2_3_4 2 3 4 1 2 3); [reflexivity|lia|lia|lia].
Defined.

(** ** Form A: sections in any order, padded lines, blank lines *)

Section FormAGeneral.

Lemma padding_parts (w : string) :
  padding_ok w = true -> all_white_space w = true /\ has_char LF w = false.
Proof.
  unfold padding_ok; intros H; apply andb_prop in H; destruct H as [H1 H2].
  apply negb_true_iff in H2; auto.
Qed.

Lemma trimStart_padded (w s : string) :
  all_white_space w = true -> trimStart (w ++ s) = trimStart s.
Proof.
  induction w as [|c w IH]; cbn [append all_white_space trimStart]; [reflexivity|].
  intros H; apply andb_prop in H; destruct H as [-> Hw]; apply IH, Hw.
Qed.

Lemma trimStart_white_space (w : string) :
  all_white_space w = true -> trimStart w = "".
Proof.
  intros Hw; rewrite <- (append_nil_r w), trimStart_padded by exact Hw; reflexivity.
Qed.

Lemma white_space_not_dash (c : ascii) :
  is_white_space c = true -> Ascii.eqb c "-" = false.
Proof.
  intros Hc; destruct (Ascii.eqb_spec c "-") as [->|]; [discriminate|reflexivity].
Qed.

Lemma white_space_not_marker (w s : string) :
  w <> "" -> all_white_space w = true -> startsWith (w ++ s) "--" = false.
Proof.
  destruct w as [|c w]; [congruence|]; intros _ H.
  cbn [all_white_space] in H; apply andb_prop in H; destruct H as [Hc _].
  rewrite startsWith_dashes; cbn [append].
  destruct (w ++ s); [reflexivity|]; rewrite (white_space_not_dash _ Hc); reflexivity.
Qed.

Lemma line_padded_not_marker (tokens : list string) (w : string) :
  line_ok tokens = true -> all_white_space w = true ->
  startsWith (String.concat " " tokens ++ w) "--" = false.
Proof.
  intros Hl Hw.
  pose proof (line_not_marker _ Hl) as Hm; pose proof (concat_tokens_nonempty _ Hl) as Hne.
  rewrite startsWith_dashes in *.
  destruct (String.concat " " tokens) as [|a [|b r]]; [congruence| |exact Hm].
  cbn [append]; destruct w as [|c w]; [reflexivity|].
  cbn [all_white_space] in Hw; apply andb_prop in Hw; destruct Hw as [Hc _].
  rewrite (white_space_not_dash _ Hc); apply andb_false_r.
Qed.

Lemma data_line_parts (lead trail : string) (tokens : list string) :
  data_line_ok (tokens_line lead tokens trail) = true ->
  padding_ok lead = true /\ line_ok tokens = true /\ padding_ok trail = true.
Proof.
  cbn [data_line_ok]; intros H.
  apply andb_prop in H; destruct H as [H H3]; apply andb_prop in H; tauto.
Qed.

Lemma data_line_not_marker (l : data_line) :
  data_line_ok l = true -> startsWith (data_line_text l) "--" = false.
Proof.
  destruct l as [lead tokens trail|w]; cbn [data_line_text].
  - intros H; apply data_line_parts in H; destruct H as (Ha & Hl & Hb).
    apply padding_parts in Ha, Hb; destruct Ha as [Ha _], Hb as [Hb _].
    destruct lead as [|c lead].
    + apply line_padded_not_marker; assumption.
    + apply white_space_not_marker; [discriminate|exact Ha].
  - cbn [data_line_ok]; intros H; apply padding_parts in H; destruct H as [Hw _].
    destruct w as [|c w]; [reflexivity|].
    rewrite <- (append_nil_r (String c w)).
    apply white_space_not_marker; [discriminate|exact Hw].
Qed.

Lemma data_line_trim (l : data_line) :
  data_line_ok l = true ->
  trim (data_line_text l) = String.concat " " (pieces l).
Proof.
  destruct l as [lead tokens trail|w]; cbn [data_line_text pieces].
  - intros H; apply data_line_parts in H; destruct H as (Ha & Hl & Hb).
    apply padding_parts in Ha, Hb; destruct Ha as [Ha _], Hb as [Hb _].
    pose proof (trim_line_padded tokens trail Hl Hb) as Ht.
    unfold trim in *; rewrite trimStart_padded by exact Ha; exact Ht.
  - cbn [data_line_ok]; intros H; apply padding_parts in H; destruct H as [Hw _].
    unfold trim; rewrite trimStart_white_space by exact Hw; reflexivity.
Qed.

Lemma pieces_split (l : data_line) :
  data_line_ok l = true -> split SP (String.concat " " (pieces l)) = pieces l.
Proof.
  destruct l as [lead tokens trail|w]; cbn [pieces]; [|reflexivity].
  intros H; apply data_line_parts in H; destruct H as (_ & Hl & _).
  apply split_line, Hl.
Qed.

Lemma pieces_nonempty (l : data_line) :
  data_line_ok l = true -> pieces l <> [].
Proof.
  destruct l as [lead tokens trail|w]; cbn [pieces]; [|discriminate].
  intros H; apply data_line_parts in H; destruct H as (_ & Hl & _).
  destruct tokens; [discriminate|congruence].
Qed.

Lemma pieces_no_white_space (l : data_line) :
  data_line_ok l = true -> forallb no_white_space (pieces l) = true.
Proof.
  destruct l as [lead tokens trail|w]; cbn [pieces]; [|reflexivity].
  intros H; apply data_line_parts in H; destruct H as (_ & Hl & _).
  destruct tokens as [|t tokens]; [reflexivity|].
  unfold line_ok in Hl; rewrite forallb_forall in *.
  intros x Hx; specialize (Hl x Hx); apply token_ok_parts in Hl; tauto.
Qed.

Lemma data_line_no_LF (l : data_line) :
  data_line_ok l = true -> has_char LF (data_line_text l) = false.
Proof.
  destruct l as [lead tokens trail|w]; cbn [data_line_text].
  - intros H; apply data_line_parts in H; destruct H as (Ha & Hl & Hb).
    apply padding_parts in Ha, Hb; destruct Ha as [_ Ha], Hb as [_ Hb].
    rewrite !has_char_app, Ha, Hb, (line_has_no_LF _ Hl); reflexivity.
  - cbn [data_line_ok]; intros H; apply padding_parts in H; tauto.
Qed.

(** *** The pieces of the voxel section *)

Lemma chunks_app (a b : list string) : chunks (a ++ b)%list = chunks a ++ chunks b.
Proof.
  induction a as [|x a IH]; cbn [app chunks]; [reflexivity|].
  rewrite IH, !append_assoc; reflexivity.
Qed.

Lemma chunks_concat (p : list string) :
  p <> [] -> chunks p = String.concat " " p ++ " ".
Proof.
  induction p as [|x p IH]; [congruence|]; intros _.
  destruct p as [|y p].
  - cbn [chunks String.concat]; reflexivity.
  - change (chunks (x :: y :: p)) with (x ++ " " ++ chunks (y :: p)).
    rewrite IH by discriminate.
    change (String.concat " " (x :: y :: p)) with (x ++ " " ++ String.concat " " (y :: p)).
    rewrite !append_assoc; reflexivity.
Qed.

Lemma trimEnd_app (a s : string) :
  trimEnd (a ++ s)
  = match trimEnd s with
    | EmptyString => trimEnd a
    | r => a ++ r
    end.
Proof.
  induction a as [|c a IH]; cbn [append].
  - destruct (trimEnd s); reflexivity.
  - cbn [trimEnd]; rewrite IH.
    destruct (trimEnd s) as [|x r]; [reflexivity|].
    destruct a; reflexivity.
Qed.

Lemma drop_blank_end_cases (q : list string) :
  drop_blank_end q = [] \/ String.concat " " (drop_blank_end q) <> "".
Proof.
  induction q as [|x q IH]; [left; reflexivity|].
  cbn [drop_blank_end]; destruct (drop_blank_end q) as [|y r].
  - destruct (String.eqb_spec x ""); [left; reflexivity|right; exact n].
  - right; change (String.concat " " (x :: y :: r))
      with (x ++ " " ++ String.concat " " (y :: r)).
    destruct x; discriminate.
Qed.

Lemma trimEnd_chunks (q : list string) :
  forallb no_white_space q = true ->
  trimEnd (chunks q) = String.concat " " (drop_blank_end q).
Proof.
  induction q as [|x q IH]; [reflexivity|]; intros H.
  cbn [forallb] in H; apply andb_prop in H; destruct H as [Hx Hq].
  cbn [chunks drop_blank_end].
  rewrite (trimEnd_app x), (trimEnd_app " "), (IH Hq).
  destruct (drop_blank_end_cases q) as [E|E].
  - rewrite E; cbn [String.concat]; change (trimEnd " ") with "".
    rewrite (trimEnd_token _ Hx).
    destruct (String.eqb_spec x "") as [->|]; reflexivity.
  - destruct (drop_blank_end q) as [|y r]; [cbn in E; congruence|].
    destruct (String.concat " " (y :: r)) as [|c t] eqn:Et; [congruence|].
    change (String.concat " " (x :: y :: r))
      with (x ++ " " ++ String.concat " " (y :: r)).
    rewrite Et; reflexivity.
Qed.

Lemma trimStart_chunks (p : list string) :
  trimStart (chunks p) = trimStart (chunks (drop_blank p)).
Proof.
  induction p as [|x p IH]; [reflexivity|].
  destruct x as [|c x]; [|reflexivity].
  cbn [drop_blank]; rewrite <- IH; reflexivity.
Qed.

Lemma forallb_drop_blank (f : string -> bool) (p : list string) :
  forallb f p = true -> forallb f (drop_blank p) = true.
Proof.
  induction p as [|x p IH]; [auto|]; intros H.
  destruct x as [|c x]; [|exact H].
  cbn [forallb] in H; apply andb_prop in H; destruct H as [_ H]; apply IH, H.
Qed.

Lemma forallb_drop_blank_end (f : string -> bool) (p : list string) :
  forallb f p = true -> forallb f (drop_blank_end p) = true.
Proof.
  induction p as [|x p IH]; [auto|]; intros H.
  cbn [forallb] in H; apply andb_prop in H; destruct H as [Hx H].
  cbn [drop_blank_end]; specialize (IH H).
  destruct (drop_blank_end p) as [|y r].
  - destruct (String.eqb x ""); [reflexivity|cbn [forallb]; rewrite Hx; reflexivity].
  - cbn [forallb] in *; rewrite Hx; exact IH.
Qed.

(** The joined line of the voxel section, trimmed. *)
Lemma trim_chunks (p : list string) :
  forallb no_white_space p = true ->
  trim (chunks p) = String.concat " " (drop_blank_end (drop_blank p)).
Proof.
  intros Hp; unfold trim; rewrite trimStart_chunks.
  pose proof (forallb_drop_blank _ _ Hp) as Hq.
  destruct (drop_blank p) as [|x r] eqn:E; [reflexivity|].
  assert (Hs : trimStart (chunks (x :: r)) = chunks (x :: r)).
  { destruct x as [|c x].
    - exfalso; clear -E; induction p as [|y p IH]; [discriminate|].
      destruct y; [apply IH, E|discriminate].
    - cbn [forallb no_white_space] in Hq.
      apply andb_prop in Hq; destruct Hq as [Hc _].
      apply andb_prop in Hc; destruct Hc as [Hc _]; apply negb_true_iff in Hc.
      cbn [chunks append trimStart]; rewrite Hc; reflexivity. }
  rewrite Hs; apply trimEnd_chunks, Hq.
Qed.

Lemma split_pieces (q : list string) :
  forallb no_white_space q = true ->
  split SP (String.concat " " q) = match q with [] => [""] | _ => q end.
Proof.
  intros Hq; destruct q as [|x q]; [reflexivity|].
  apply (split_concat SP); [discriminate|].
  rewrite forallb_forall in *; intros y Hy.
  rewrite (no_white_space_has_char SP y eq_refl (Hq y Hy)); reflexivity.
Qed.

(** *** The scanning loop on a block *)

Lemma marker_props (n : section_name) :
  name_ok n = true ->
  startsWith (marker_text n) "--" = true /\ no_white_space (marker_text n) = true
  /\ (forall m, is_section m n = String.eqb (marker_text n) (marker_text m)
                \/ exists name, m = Other name).
Proof.
  destruct n as [| | |name]; cbn [name_ok marker_text]; intros H.
  - repeat split; intros [| | |m]; eauto.
  - repeat split; intros [| | |m]; eauto.
  - repeat split; intros [| | |m]; eauto.
  - apply andb_prop in H; destruct H as [H Hv]; apply andb_prop in H; destruct H as [H Ha].
    apply andb_prop in H; destruct H as [H Hh]; apply andb_prop in H; destruct H as [Hs Hw].
    apply negb_true_iff in Hh, Ha, Hv.
    repeat split; [exact Hs|exact Hw|].
    intros [| | |m]; cbn [is_section marker_text]; eauto.
Qed.

Lemma scan_marker (n : section_name) (w : string) (st : scan) :
  name_ok n = true -> padding_ok w = true ->
  scan_line st (marker_text n ++ w)
  = {| section := Some (marker_text n); shape := shape st;
       affineValues := affineValues st; voxelLine := voxelLine st |}.
Proof.
  intros Hn Hw; apply padding_parts in Hw; destruct Hw as [Hw _].
  destruct (marker_props n Hn) as (Hs & Hns & _).
  unfold scan_line.
  assert (Hstart : startsWith (marker_text n ++ w) "--" = true).
  { rewrite startsWith_dashes in *.
    destruct (marker_text n) as [|a [|b r]]; [discriminate|discriminate|exact Hs]. }
  assert (Htrim : trim (marker_text n ++ w) = marker_text n).
  { unfold trim.
    assert (Hfirst : trimStart (marker_text n ++ w) = marker_text n ++ w).
    { rewrite startsWith_dashes in Hs.
      destruct (marker_text n) as [|a r]; [discriminate|].
      cbn [no_white_space] in Hns; apply andb_prop in Hns; destruct Hns as [Ha _].
      apply negb_true_iff in Ha; cbn [append trimStart]; rewrite Ha; reflexivity. }
    rewrite Hfirst, trimEnd_app_white_space by exact Hw.
    apply trimEnd_token, Hns. }
  rewrite Hstart, Htrim; reflexivity.
Qed.

Lemma add_lines_section (n : section_name) (ls : list data_line) (st : scan) :
  section (add_lines n ls st) = section st.
Proof. destruct n; reflexivity. Qed.

Lemma add_lines_nil (n : section_name) (st : scan) : add_lines n [] st = st.
Proof.
  destruct n, st; cbn [add_lines flat_map map chunks section shape affineValues voxelLine];
    rewrite ?app_nil_r, ?append_nil_r; reflexivity.
Qed.

Lemma add_lines_cons (n : section_name) (l : data_line) (ls : list data_line) (st : scan) :
  add_lines n (l :: ls) st = add_lines n ls (add_lines n [l] st).
Proof.
  destruct n; cbn [add_lines flat_map section shape affineValues voxelLine];
    rewrite ?app_nil_r, ?map_app, ?chunks_app, ?app_assoc, ?append_assoc; reflexivity.
Qed.

Lemma scan_data_line (n : section_name) (l : data_line) (st : scan) :
  name_ok n = true -> section st = Some (marker_text n) -> data_line_ok l = true ->
  scan_line st (data_line_text l) = add_lines n [l] st.
Proof.
  intros Hn Hs Hl; unfold scan_line, section_is, numbers_of.
  rewrite (data_line_not_marker _ Hl), Hs, (data_line_trim _ Hl), (pieces_split _ Hl).
  destruct n as [| | |name]; cbn [marker_text add_lines flat_map] in *;
    rewrite ?app_nil_r, ?Hs.
  - reflexivity.
  - reflexivity.
  - change (String.eqb "--voxel--" "--header--") with false.
    change (String.eqb "--voxel--" "--affine--") with false.
    change (String.eqb "--voxel--" "--voxel--") with true.
    cbv iota; rewrite (chunks_concat _ (pieces_nonempty _ Hl)); reflexivity.
  - cbn [name_ok] in Hn.
    apply andb_prop in Hn; destruct Hn as [Hn Hv]; apply andb_prop in Hn; destruct Hn as [Hn Ha].
    apply andb_prop in Hn; destruct Hn as [_ Hh].
    apply negb_true_iff in Hh, Ha, Hv; rewrite Hh, Ha, Hv; reflexivity.
Qed.

Lemma scan_data_lines (n : section_name) (ls : list data_line) :
  forall st,
    name_ok n = true -> section st = Some (marker_text n) ->
    forallb data_line_ok ls = true ->
    fold_left scan_line (map data_line_text ls) st = add_lines n ls st.
Proof.
  induction ls as [|l ls IH]; intros st Hn Hs Hls; cbn [map fold_left].
  - symmetry; apply add_lines_nil.
  - cbn [forallb] in Hls; apply andb_prop in Hls; destruct Hls as [Hl Hls].
    rewrite (scan_data_line n l st Hn Hs Hl), (add_lines_cons n l ls st).
    apply IH; [exact Hn|rewrite add_lines_section; exact Hs|exact Hls].
Qed.

(** Before the first marker nothing is collected. *)
Lemma scan_preamble (ls : list data_line) :
  forall st,
    section st = None -> forallb data_line_ok ls = true ->
    fold_left scan_line (map data_line_text ls) st = st.
Proof.
  induction ls as [|l ls IH]; intros st Hs Hls; cbn [map fold_left]; [reflexivity|].
  cbn [forallb] in Hls; apply andb_prop in Hls; destruct Hls as [Hl Hls].
  assert (Hstep : scan_line st (data_line_text l) = st).
  { unfold scan_line, section_is; rewrite (data_line_not_marker _ Hl), Hs; reflexivity. }
  rewrite Hstep; apply IH; assumption.
Qed.

Lemma section_pieces_cons (n : section_name) (b : block) (bs : list block) :
  section_pieces n (b :: bs)
  = ((if is_section n (block_name b) then flat_map pieces (block_lines b) else [])
     ++ section_pieces n bs)%list.
Proof. reflexivity. Qed.

Lemma scan_blocks (bs : list block) :
  forall st,
    forallb block_ok bs = true ->
    let st' := fold_left scan_line (flat_map block_text_lines bs) st in
    shape st' = (shape st ++ map Number (section_pieces Header bs))%list
    /\ affineValues st' = (affineValues st ++ map Number (section_pieces Affine bs))%list
    /\ voxelLine st' = voxelLine st ++ chunks (section_pieces Voxel bs).
Proof.
  induction bs as [|b bs IH]; intros st Hbs.
  - cbn; rewrite !app_nil_r, append_nil_r; repeat split.
  - cbn [forallb] in Hbs; apply andb_prop in Hbs; destruct Hbs as [Hb Hbs].
    unfold block_ok in Hb.
    apply andb_prop in Hb; destruct Hb as [Hb Hls]; apply andb_prop in Hb; destruct Hb as [Hn Hw].
    cbv zeta; cbn [flat_map]; rewrite fold_left_app.
    change (fold_left scan_line (block_text_lines b) st)
      with (fold_left scan_line (map data_line_text (block_lines b))
              (scan_line st (marker_text (block_name b) ++ marker_trail b))).
    rewrite (scan_marker _ _ st Hn Hw).
    rewrite (scan_data_lines (block_name b)) by (reflexivity || assumption).
    match goal with |- context [fold_left scan_line _ ?s] => specialize (IH s Hbs) end.
    cbv zeta in *; destruct IH as (H1 & H2 & H3); rewrite H1, H2, H3.
    rewrite !section_pieces_cons.
    destruct (block_name b);
      cbn [add_lines is_section section shape affineValues voxelLine app];
      rewrite ?map_app, ?chunks_app, ?app_assoc, ?append_assoc; repeat split.
Qed.

Lemma section_pieces_no_white_space (n : section_name) (bs : list block) :
  forallb block_ok bs = true -> forallb no_white_space (section_pieces n bs) = true.
Proof.
  induction bs as [|b bs IH]; [reflexivity|]; intros Hbs.
  cbn [forallb] in Hbs; apply andb_prop in Hbs; destruct Hbs as [Hb Hbs].
  rewrite section_pieces_cons, forallb_app, (IH Hbs), andb_true_r.
  destruct (is_section n (block_name b)); [|reflexivity].
  unfold block_ok in Hb; apply andb_prop in Hb; destruct Hb as [_ Hls].
  induction (block_lines b) as [|l ls IHl]; [reflexivity|].
  cbn [forallb] in Hls; apply andb_prop in Hls; destruct Hls as [Hl Hls].
  cbn [flat_map]; rewrite forallb_app, (pieces_no_white_space _ Hl), (IHl Hls); reflexivity.
Qed.

Lemma blocks_lines_no_LF (pre : list data_line) (bs : list block) :
  forallb data_line_ok pre = true -> forallb block_ok bs = true ->
  forallb (fun p => negb (has_char LF p)) (blocks_lines pre bs) = true.
Proof.
  assert (Hlines : forall ls, forallb data_line_ok ls = true ->
            forallb (fun p => negb (has_char LF p)) (map data_line_text ls) = true).
  { induction ls as [|l ls IH]; [reflexivity|]; intros Hls.
    cbn [forallb] in Hls; apply andb_prop in Hls; destruct Hls as [Hl Hls].
    cbn [map forallb]; rewrite (data_line_no_LF _ Hl), (IH Hls); reflexivity. }
  intros Hpre Hbs; unfold blocks_lines; rewrite forallb_app, (Hlines _ Hpre).
  cbn [andb]; induction bs as [|b bs IH]; [reflexivity|].
  cbn [forallb] in Hbs; apply andb_prop in Hbs; destruct Hbs as [Hb Hbs].
  cbn [flat_map]; rewrite forallb_app, (IH Hbs), andb_true_r.
  unfold block_ok in Hb.
  apply andb_prop in Hb; destruct Hb as [Hb Hls]; apply andb_prop in Hb; destruct Hb as [Hn Hw].
  unfold block_text_lines; cbn [forallb]; rewrite (Hlines _ Hls), andb_true_r.
  destruct (marker_props _ Hn) as (_ & Hns & _).
  apply padding_parts in Hw; destruct Hw as [_ Hw].
  rewrite has_char_app, Hw, (no_white_space_has_char LF _ eq_refl Hns); reflexivity.
Qed.

(** What [parseVoxelTxt] returns on a text of blocks. *)
Lemma parseVoxelText_blocks (pre : list data_line) (bs : list block) :
  forallb data_line_ok pre = true -> forallb block_ok bs = true ->
  parseVoxelText (blocks_text pre bs)
  = {| voxel := Float32Array (map Number (voxel_pieces bs));
       dims := [ get (map Number (section_pieces Header bs)) 1;
                 get (map Number (section_pieces Header bs)) 2;
                 get (map Number (section_pieces Header bs)) 0 ];
       affine := Float32Array (map Number (section_pieces Affine bs)) |}.
Proof.
  intros Hpre Hbs.
  assert (Hscan : scan_lines (blocks_text pre bs)
                  = fold_left scan_line (blocks_lines pre bs) scan0).
  { unfold scan_lines, blocks_text.
    destruct (blocks_lines pre bs) as [|l ls] eqn:E; [reflexivity|].
    change newline with (String LF ""); rewrite split_concat; [reflexivity|discriminate|].
    rewrite <- E; apply blocks_lines_no_LF; assumption. }
  unfold parseVoxelText; rewrite Hscan; unfold blocks_lines.
  rewrite fold_left_app, (scan_preamble pre scan0 eq_refl Hpre).
  destruct (scan_blocks bs scan0 Hbs) as (H1 & H2 & H3); cbv zeta in *.
  rewrite H1, H2, H3; unfold scan0; cbn [shape affineValues voxelLine app append].
  rewrite (trim_chunks _ (section_pieces_no_white_space Voxel bs Hbs)).
  rewrite split_pieces.
  - unfold voxel_pieces; destruct (drop_blank_end _); reflexivity.
  - apply forallb_drop_blank_end, forallb_drop_blank, section_pieces_no_white_space, Hbs.
Qed.

End FormAGeneral.

Section FormALayouts.

(** X14. [parseVoxelTxt] reads a text of sections whatever their order:
    the lines of every block of a section are collected in the order of
    the text, so a section that is opened again goes on where it
    stopped; a section with another marker and the lines before the
    first marker are skipped; white space before and after the tokens
    of a line and after a marker is ignored. A blank line gives one
    entry 0 in the header and in the affine section; among the samples
    it gives one entry 0 too, unless it stands before the first or after
    the last sample, and samples without a single token give the one
    entry 0. *)
Theorem sections_in_any_order (pre : list data_line) (bs : list block) :
  forallb data_line_ok pre = true -> forallb block_ok bs = true ->
  parseVoxelTxt (text_body (blocks_text pre bs))
  = Ok {| voxel := Float32Array (map Number (voxel_pieces bs));
          dims := [ get (map Number (section_pieces Header bs)) 1;
                    get (map Number (section_pieces Header bs)) 2;
                    get (map Number (section_pieces Header bs)) 0 ];
          affine := Float32Array (map Number (section_pieces Affine bs)) |}.
Proof.
  intros Hpre Hbs; cbn [parseVoxelTxt]; f_equal.
  apply parseVoxelText_blocks; assumption.
Qed.

(** X15. A blank line right after the header marker takes the place of
    the first number of the shape: the depth is read as 0, and the first
    two numbers of the header become the first two entries of [dims]. *)
Theorem blank_header_line_shifts_shape (w trail : string) (tokens : list string)
    (rest : list block) :
  padding_ok w = true -> padding_ok trail = true -> line_ok tokens = true ->
  forallb block_ok rest = true ->
  let bs := {| block_name := Header; marker_trail := trail;
               block_lines := [blank_line w; tokens_line "" tokens ""] |} :: rest in
  let s := map Number (tokens ++ section_pieces Header rest)%list in
  dims (parseVoxelText (blocks_text [] bs)) = [get s 0; get s 1; number 0].
Proof.
  intros Hw Htr Hl Hrest bs s.
  rewrite parseVoxelText_blocks; [|reflexivity|].
  { unfold bs, s; rewrite section_pieces_cons.
    cbn [is_section block_name block_lines flat_map pieces app dims].
    rewrite app_nil_r; cbn [map]; unfold get; cbn [nth_error].
    change (Number "") with 0%float; reflexivity. }
  unfold bs; cbn [forallb]; rewrite Hrest, andb_true_r.
  unfold block_ok; cbn [block_name marker_trail block_lines name_ok forallb data_line_ok].
  rewrite Hw, Htr, Hl; reflexivity.
Qed.

Lemma concat_with_CR (lines : list string) :
  String.concat (String CR newline) lines = String.concat newline (with_CR lines).
Proof.
  induction lines as [|l lines IH]; [reflexivity|].
  destruct lines as [|l' r]; [reflexivity|].
  change (String.concat (String CR newline) (l :: l' :: r))
    with (l ++ String CR newline ++ String.concat (String CR newline) (l' :: r)).
  rewrite IH.
  change (with_CR (l :: l' :: r)) with ((l ++ String CR "") :: with_CR (l' :: r)).
  destruct (with_CR (l' :: r)) as [|x y] eqn:E; [destruct r; discriminate|].
  change (String.concat newline ((l ++ String CR "") :: x :: y))
    with ((l ++ String CR "") ++ newline ++ String.concat newline (x :: y)).
  rewrite append_assoc; reflexivity.
Qed.

Lemma with_CR_app (a b : list string) :
  b <> [] ->
  with_CR (a ++ b)%list
  = (map (fun l => (l ++ String CR "")%string) a ++ with_CR b)%list.
Proof.
  intros Hb; induction a as [|l a IH]; [reflexivity|].
  cbn [app map]; rewrite <- IH.
  destruct (a ++ b)%list as [|x y] eqn:E; [|reflexivity].
  destruct a; [cbn in E; congruence|discriminate].
Qed.

Lemma pieces_CR_lines (ls : list (list string)) :
  flat_map pieces (map CR_line ls) = List.concat ls.
Proof.
  induction ls as [|l ls IH]; [reflexivity|].
  cbn [map flat_map List.concat pieces CR_line]; rewrite IH; reflexivity.
Qed.

Lemma CR_lines_ok (ls : list (list string)) :
  forallb line_ok ls = true -> forallb data_line_ok (map CR_line ls) = true.
Proof.
  induction ls as [|l ls IH]; [reflexivity|]; intros H.
  cbn [forallb] in H; apply andb_prop in H; destruct H as [Hl Hls].
  cbn [map forallb]; rewrite (IH Hls), andb_true_r.
  unfold CR_line; cbn [data_line_ok]; rewrite Hl; reflexivity.
Qed.

Lemma CR_lines_text (ls : list (list string)) :
  map data_line_text (map CR_line ls)
  = map (fun l => l ++ String CR "") (map (String.concat " ") ls).
Proof. rewrite !map_map; reflexivity. Qed.

Lemma drop_blank_end_snoc (c : list string) :
  drop_blank_end (c ++ [""])%list = drop_blank_end c.
Proof.
  induction c as [|x c IH]; [reflexivity|].
  cbn [app drop_blank_end]; rewrite IH; reflexivity.
Qed.

Lemma strip_tokens (c : list string) :
  line_ok c = true ->
  drop_blank c = c /\ drop_blank_end c = c.
Proof.
  destruct c as [|t c]; [discriminate|]; unfold line_ok; intros H; split.
  - cbn [forallb] in H; apply andb_prop in H; destruct H as [Ht _].
    apply token_ok_parts in Ht; destruct t; [tauto|reflexivity].
  - revert H; generalize (t :: c); clear t c.
    induction l as [|x l IH]; [reflexivity|]; intros H.
    cbn [forallb] in H; apply andb_prop in H; destruct H as [Hx Hl].
    cbn [drop_blank_end]; rewrite (IH Hl).
    destruct l; [|reflexivity].
    apply token_ok_parts in Hx; destruct Hx as (Hx & _).
    apply String.eqb_neq in Hx; rewrite Hx; reflexivity.
Qed.

(** X16. A Form A text whose lines end with carriage return and line
    feed parses to the same record as the text with line feeds alone:
    the carriage return left at the end of each line is trimmed away
    with the white space. *)
Theorem crlf_text_parses_the_same (header affine voxel : list (list string))
    (final_newline : bool) :
  forallb line_ok header = true -> forallb line_ok affine = true ->
  forallb line_ok voxel = true -> voxel <> [] ->
  parseVoxelText (formA_text_crlf header affine voxel final_newline)
  = parseVoxelText (formA_text header affine voxel final_newline).
Proof.
  intros Hh Ha Hv Hne.
  rewrite (parseVoxelText_formA _ _ _ _ Hh Ha Hv Hne).
  pose proof (line_ok_concat _ Hne Hv) as Hc.
  destruct (strip_tokens _ Hc) as [Hs1 Hs2].
  unfold formA_text_crlf; rewrite concat_with_CR.
  set (mk := fun n ls => {| block_name := n; marker_trail := String CR "";
                            block_lines := ls |}).
  assert (Hblocks : exists last_lines,
             with_CR (formA_lines header affine voxel
                      ++ (if final_newline then [""] else []))%list
             = blocks_lines [] [ mk Header (map CR_line header);
                                 mk Affine (map CR_line affine);
                                 mk Voxel last_lines ]
             /\ forallb data_line_ok last_lines = true
             /\ drop_blank_end (drop_blank (flat_map pieces last_lines))
                = List.concat voxel).
  { destruct final_newline.
    - exists (map CR_line voxel ++ [blank_line ""])%list; split; [|split].
      + rewrite with_CR_app by discriminate.
        unfold formA_lines, blocks_lines, block_text_lines, mk;
          cbn [flat_map block_name marker_trail block_lines marker_text app map with_CR].
        repeat (rewrite ?map_app; cbn [map app data_line_text]).
        rewrite !CR_lines_text, ?app_nil_r.
        repeat first [rewrite <- app_assoc | progress cbn [app]]; reflexivity.
      + rewrite forallb_app, (CR_lines_ok _ Hv); reflexivity.
      + rewrite flat_map_app, pieces_CR_lines; cbn [flat_map pieces app].
        destruct (List.concat voxel) as [|t c] eqn:E; [discriminate|].
        assert (Hd : drop_blank ((t :: c) ++ [""])%list = ((t :: c) ++ [""])%list).
        { cbn [app]; cbn [app] in Hs1; destruct t; [|reflexivity].
          cbn [line_ok forallb] in Hc; discriminate. }
        rewrite Hd, drop_blank_end_snoc; exact Hs2.
    - destruct (exists_last Hne) as (v' & lst & Hv').
      exists (map CR_line v' ++ [tokens_line "" lst ""])%list.
      rewrite Hv' in Hv; rewrite forallb_app in Hv.
      apply andb_prop in Hv; destruct Hv as [Hv1 Hv2].
      cbn [forallb] in Hv2; apply andb_prop in Hv2; destruct Hv2 as [Hlast _].
      split; [|split].
      + rewrite app_nil_r, Hv'; unfold formA_lines.
        rewrite map_app, !app_assoc; cbn [map].
        rewrite with_CR_app by discriminate.
        unfold blocks_lines, block_text_lines, mk;
          cbn [flat_map block_name marker_trail block_lines marker_text app map with_CR
               data_line_text append].
        repeat (rewrite ?map_app; cbn [map app data_line_text append]).
        rewrite !CR_lines_text, ?app_nil_r, ?append_nil_r.
        repeat first [rewrite <- app_assoc | progress cbn [app]]; reflexivity.
      + rewrite forallb_app, (CR_lines_ok _ Hv1); cbn [forallb data_line_ok].
        rewrite Hlast; reflexivity.
      + rewrite flat_map_app, pieces_CR_lines; cbn [flat_map pieces].
        rewrite app_nil_r.
        replace (List.concat v' ++ lst)%list with (List.concat voxel)
          by (rewrite Hv', concat_app; cbn [List.concat]; rewrite app_nil_r; reflexivity).
        rewrite Hs1; exact Hs2. }
  destruct Hblocks as (last_lines & -> & Hok & Hpieces).
  change (String.concat newline (blocks_lines [] ?bs)) with (blocks_text [] bs).
  rewrite parseVoxelText_blocks; [|reflexivity|].
  - unfold voxel_pieces, section_pieces, mk;
      cbn [flat_map is_section block_name block_lines app].
    rewrite !app_nil_r, !pieces_CR_lines, Hpieces.
    destruct (List.concat voxel); [discriminate|reflexivity].
  - cbn [forallb]; unfold block_ok, mk;
      cbn [block_name marker_trail block_lines name_ok].
    rewrite !CR_lines_ok, Hok by assumption; reflexivity.
Qed.

End FormALayouts.

(** The sample text: the samples are 1, 2, 3 and 4, the shape is
    1, 2, 0, 2 (the blank line is the 0), and the affine matrix has its
    sixteen entries and a 0 for the last, empty line. *)
Lemma sections_in_any_order_witness :
  let pre := [tokens_line "" ["#"; "volume"] ""] in
  forallb data_line_ok pre = true /\ forallb block_ok sample_blocks = true
  /\ parseVoxelTxt (text_body (blocks_text pre sample_blocks))
     = Ok {| voxel := Float32Array (map Number (voxel_pieces sample_blocks));
             dims := [ get (map Number (section_pieces Header sample_blocks)) 1;
                       get (map Number (section_pieces Header sample_blocks)) 2;
                       get (map Number (section_pieces Header sample_blocks)) 0 ];
             affine := Float32Array (map Number (section_pieces Affine sample_blocks)) |}.
Proof.
  intros pre; refine (conj eq_refl (conj eq_refl _)).
  apply (sections_in_any_order pre sample_blocks); reflexivity.
Defined.

(** The header of a 2 x 3 x 4 volume, with an empty line above it. *)
Lemma blank_header_line_shifts_shape_witness :
  padding_ok "" = true /\ padding_ok (String CR "") = true
  /\ line_ok ["2"; "3"; "4"] = true
  /\ forallb block_ok [] = true
  /\ (let bs := [ {| block_name := Header; marker_trail := String CR "";
                     block_lines := [blank_line ""; tokens_line "" ["2"; "3"; "4"] ""] |} ] in
      let s := map Number (["2"; "3"; "4"] ++ section_pieces Header [])%list in
      dims (parseVoxelText (blocks_text [] bs)) = [get s 0; get s 1; number 0]).
Proof.
  refine (conj eq_refl (conj eq_refl (conj eq_refl (conj eq_refl _)))).
  apply (blank_header_line_shifts_shape "" (String CR "") ["2"; "3"; "4"] []); reflexivity.
Defined.

(** The volume of depth 2, height 3 and width 4, with and without a last
    line terminator. *)
Lemma crlf_text_parses_the_same_witness :
  forallb line_ok header_2_3_4 = true /\ forallb line_ok affine_identity = true
  /\ forallb line_ok voxel_2_3_4 = true /\ voxel_2_3_4 <> []
  /\ parseVoxelText (formA_text_crlf header_2_3_4 affine_identity voxel_2_3_4 false)
     = parseVoxelText (formA_text header_2_3_4 affine_identity voxel_2_3_4 false).
Proof.
  refine (conj eq_refl (conj eq_refl (conj eq_refl (conj _ _)))); [discriminate|].
  apply (crlf_text_parses_the_same header_2_3_4 affine_identity voxel_2_3_4 false);
    [reflexivity|reflexivity|reflexivity|discriminate].
Defined.

(** ** The sphere demo *)

Section SphereVolume.

Import Sphere.

Lemma fold_left_flat_map {A B C} (f : A -> C -> A) (g : B -> list C) (l : list B) :
  forall a, fold_left f (flat_map g l) a = fold_left (fun a x => fold_left f (g x) a) l a.
Proof.
  induction l as [|x l IH]; intros a; [reflexivity|].
  cbn [flat_map fold_left]; rewrite fold_left_app; apply IH.
Qed.

Lemma fold_left_map {A B C} (f : A -> C -> A) (g : B -> C) (l : list B) :
  forall a, fold_left f (map g l) a = fold_left (fun a x => f a (g x)) l a.
Proof.
  induction l as [|x l IH]; intros a; [reflexivity|]; cbn [map fold_left]; apply IH.
Qed.

Lemma fold_left_ext {A B} (f g : A -> B -> A) (l : list B) :
  (forall a x, f a x = g a x) ->
  forall a, fold_left f l a = fold_left g l a.
Proof.
  intros Hfg; induction l as [|x l IH]; intros a; [reflexivity|].
  cbn [fold_left]; rewrite Hfg; apply IH.
Qed.

(** Writing a fresh array from its first element on, one element after
    the other. *)
Lemma fill_in_order {A} (idx : A -> nat) (val : A -> float) (l : list A) :
  forall (done : list float) (rest : nat),
    map idx l = seq (List.length done) (List.length l) ->
    (List.length l <= rest)%nat ->
    fold_left (fun d t => TypedArray_store d (idx t) (val t)) l
      (done ++ repeat 0%float rest)%list
    = (done ++ map (fun t => fround (val t)) l
       ++ repeat 0%float (rest - List.length l))%list.
Proof.
  induction l as [|t l IH]; intros done rest Hidx Hlen.
  - cbn [fold_left map List.length app]; rewrite Nat.sub_0_r; reflexivity.
  - cbn [map List.length seq] in Hidx; injection Hidx as Ht Hidx.
    cbn [List.length] in Hlen; destruct rest as [|rest]; [lia|].
    cbn [fold_left].
    assert (Hstore : TypedArray_store (done ++ repeat 0%float (S rest))%list (idx t) (val t)
                     = ((done ++ [fround (val t)]) ++ repeat 0%float rest)%list).
    { unfold TypedArray_store; rewrite Ht, length_app, repeat_length.
      destruct (Nat.ltb_spec (List.length done) (List.length done + S rest)); [|lia].
      rewrite firstn_app, Nat.sub_diag, firstn_all, skipn_app; cbn [firstn].
      rewrite skipn_all2 by lia.
      replace (S (List.length done) - List.length done)%nat with 1%nat by lia.
      cbn [repeat skipn app]; rewrite app_nil_r, <- app_assoc; reflexivity. }
    rewrite Hstore, IH.
    + cbn [map List.length Nat.sub]; rewrite <- !app_assoc; reflexivity.
    + rewrite length_app; cbn [List.length]; rewrite Hidx; f_equal; lia.
    + lia.
Qed.

Lemma map_add_seq (k n : nat) : map (fun x => (x + k)%nat) (seq 0 n) = seq k n.
Proof.
  assert (H : forall s, map (fun x => (x + k)%nat) (seq s n) = seq (s + k) n).
  { induction n as [|n IH]; intros s; [reflexivity|].
    cbn [seq map]; rewrite IH; reflexivity. }
  apply (H 0%nat).
Qed.

Lemma loop_order_length (n : nat) : List.length (loop_order n) = (n * n * n)%nat.
Proof.
  unfold loop_order.
  assert (Hrow : forall z y : nat, List.length (map (fun x => (z, y, x)) (seq 0 n)) = n)
    by (intros; rewrite length_map, length_seq; reflexivity).
  assert (Hslice : forall (z : nat) (l : list nat),
             List.length (flat_map (fun y => map (fun x => (z, y, x)) (seq 0 n)) l)
             = (List.length l * n)%nat).
  { intros z l; induction l as [|y l IH]; [reflexivity|].
    cbn [flat_map List.length]; rewrite length_app, Hrow, IH; lia. }
  assert (Hall : forall l : list nat,
             List.length (flat_map (fun z =>
               flat_map (fun y => map (fun x => (z, y, x)) (seq 0 n)) (seq 0 n)) l)
             = (List.length l * (n * n))%nat).
  { induction l as [|z l IH]; [reflexivity|].
    cbn [flat_map List.length]; rewrite length_app, Hslice, IH, length_seq; lia. }
  rewrite Hall, length_seq; lia.
Qed.

(** The three loops visit the indices 0, 1, 2, ... in this order. *)
Lemma loop_order_indices (n : nat) :
  map (fun t => let '(z, y, x) := t in voxel_index n x y z) (loop_order n)
  = seq 0 (n * n * n).
Proof.
  unfold loop_order, voxel_index.
  assert (Hrow : forall z y : nat,
             map (fun t => let '(z, y, x) := t in (x + y * n + z * n * n)%nat)
               (map (fun x => (z, y, x)) (seq 0 n))
             = seq (y * n + z * n * n) n).
  { intros z y; rewrite map_map, <- (map_add_seq (y * n + z * n * n) n).
    apply map_ext; intros x; lia. }
  assert (Hslice : forall z b : nat,
             map (fun t => let '(z, y, x) := t in (x + y * n + z * n * n)%nat)
               (flat_map (fun y => map (fun x => (z, y, x)) (seq 0 n)) (seq 0 b))
             = seq (z * n * n) (b * n)).
  { intros z b; induction b as [|b IH]; [reflexivity|].
    rewrite seq_S, flat_map_app, map_app, IH; cbn [flat_map Nat.add].
    rewrite app_nil_r, Hrow.
    replace (S b * n)%nat with (b * n + n)%nat by lia.
    rewrite seq_app; f_equal; f_equal; lia. }
  assert (Hall : forall a : nat,
             map (fun t => let '(z, y, x) := t in (x + y * n + z * n * n)%nat)
               (flat_map (fun z =>
                  flat_map (fun y => map (fun x => (z, y, x)) (seq 0 n)) (seq 0 n))
                  (seq 0 a))
             = seq 0 (a * n * n)).
  { induction a as [|a IH]; [reflexivity|].
    rewrite seq_S, flat_map_app, map_app, IH; cbn [flat_map Nat.add].
    rewrite app_nil_r, Hslice.
    replace (S a * n * n)%nat with (a * n * n + n * n)%nat by lia.
    rewrite seq_app; reflexivity. }
  apply Hall.
Qed.

(** The array the three loops leave: the samples in the order of the
    loops. *)
Lemma generateSphereVolume_loop (n : nat) :
  generateSphereVolume n
  = map (fun t => let '(z, y, x) := t in
                  fround (density (of_nat n) (of_nat x) (of_nat y) (of_nat z)))
      (loop_order n).
Proof.
  unfold generateSphereVolume.
  set (idx := fun t : nat * nat * nat => let '(z, y, x) := t in voxel_index n x y z).
  set (val := fun t : nat * nat * nat =>
                let '(z, y, x) := t in density (of_nat n) (of_nat x) (of_nat y) (of_nat z)).
  transitivity (fold_left (fun d t => TypedArray_store d (idx t) (val t)) (loop_order n)
                  (repeat 0%float (n * n * n))).
  - unfold loop_order; rewrite fold_left_flat_map.
    apply fold_left_ext; intros d z.
    rewrite fold_left_flat_map; apply fold_left_ext; intros d' y.
    rewrite fold_left_map; reflexivity.
  - pose proof (fill_in_order idx val (loop_order n) [] (n * n * n)) as H.
    cbn [app List.length] in H; rewrite H.
    + rewrite loop_order_length, Nat.sub_diag, app_nil_r.
      apply map_ext; intros [[z y] x]; reflexivity.
    + rewrite loop_order_length; apply loop_order_indices.
    + rewrite loop_order_length; lia.
Qed.

Lemma in_loop_order (n x y z : nat) :
  (x < n)%nat -> (y < n)%nat -> (z < n)%nat -> In (z, y, x) (loop_order n).
Proof.
  intros Hx Hy Hz; unfold loop_order.
  apply in_flat_map; exists z; split; [apply in_seq; lia|].
  apply in_flat_map; exists y; split; [apply in_seq; lia|].
  apply in_map, in_seq; lia.
Qed.

(** In a list whose elements have the indices 0, 1, 2, ... an element
    stands at its index. *)
Lemma nth_error_at_index {A B} (idx : A -> nat) (g : A -> B) (l : list A) (t : A) :
  map idx l = seq 0 (List.length l) -> In t l ->
  nth_error (map g l) (idx t) = Some (g t).
Proof.
  intros Hidx Hin.
  destruct (In_nth_error _ _ Hin) as [p Hp].
  assert (Hlt : (p < List.length l)%nat) by (apply nth_error_Some; congruence).
  pose proof (map_nth_error idx _ _ Hp) as Hi.
  rewrite Hidx, (nth_error_nth' _ 0%nat) in Hi by (rewrite length_seq; exact Hlt).
  rewrite seq_nth in Hi by exact Hlt.
  injection Hi as <-; cbn [Nat.add].
  apply map_nth_error, Hp.
Qed.

Lemma generateSphereVolume_at (n x y z : nat) :
  (x < n)%nat -> (y < n)%nat -> (z < n)%nat ->
  nth_error (generateSphereVolume n) (voxel_index n x y z)
  = Some (fround (density (of_nat n) (of_nat x) (of_nat y) (of_nat z))).
Proof.
  intros Hx Hy Hz; rewrite generateSphereVolume_loop.
  refine (nth_error_at_index
            (fun t : nat * nat * nat => let '(z, y, x) := t in voxel_index n x y z)
            (fun t : nat * nat * nat =>
               let '(z, y, x) := t in
               fround (density (of_nat n) (of_nat x) (of_nat y) (of_nat z)))
            (loop_order n) (z, y, x) _ _).
  - rewrite loop_order_length; apply loop_order_indices.
  - apply in_loop_order; assumption.
Qed.

(** X17. [generateSphereVolume(size)] returns [size * size * size]
    samples, and the sample of the voxel (x, y, z) is the element
    [x + y * size + z * size * size]: the three loops write every element
    once, [x] moving fastest. *)
Theorem sphere_volume_layout (n x y z : nat) :
  (x < n)%nat -> (y < n)%nat -> (z < n)%nat ->
  List.length (generateSphereVolume n) = (n * n * n)%nat
  /\ nth_error (generateSphereVolume n) (x + y * n + z * n * n)
     = Some (fround (density (of_nat n) (of_nat x) (of_nat y) (of_nat z))).
Proof.
  intros Hx Hy Hz; split.
  - rewrite generateSphereVolume_loop, length_map; apply loop_order_length.
  - apply generateSphereVolume_at; assumption.
Qed.

(** X18. The demo uploads what it generated without a shift: under the
    layout [createVolumeTexture] declares, [size * 4] bytes per row and
    [size] rows per image, the texel (x, y, z) of the texture is the
    sample the generator computed for the voxel (x, y, z). The size is
    one whose product with 4 is exact, as every size of a texture is. *)
Theorem sphere_upload_is_consistent (n x y z : nat) :
  let size := of_nat n in
  let bytesPerRow := (size * 4)%float in
  truncate bytesPerRow = Z.of_nat n * 4 -> truncate size = Z.of_nat n ->
  (x < n)%nat -> (y < n)%nat -> (z < n)%nat ->
  uploaded_texel (generateSphereVolume n) (truncate bytesPerRow) (truncate size)
    (Z.of_nat x) (Z.of_nat y) (Z.of_nat z)
  = number (fround (density size (of_nat x) (of_nat y) (of_nat z))).
Proof.
  intros size bytesPerRow Hrow Himg Hx Hy Hz; rewrite Hrow, Himg.
  unfold uploaded_texel, get.
  rewrite Z.div_mul by discriminate.
  replace (Z.to_nat (Z.of_nat x + Z.of_nat y * Z.of_nat n
                     + Z.of_nat z * (Z.of_nat n * Z.of_nat n)))
    with (voxel_index n x y z) by (unfold voxel_index; lia).
  rewrite generateSphereVolume_at by assumption; reflexivity.
Qed.

End SphereVolume.

(** The centre voxel of a volume of size 4. *)
Lemma sphere_volume_layout_witness :
  (2 < 4)%nat /\ (2 < 4)%nat /\ (2 < 4)%nat
  /\ List.length (Sphere.generateSphereVolume 4) = (4 * 4 * 4)%nat
  /\ nth_error (Sphere.generateSphereVolume 4) (2 + 2 * 4 + 2 * 4 * 4)
     = Some (fround (Sphere.density (Sphere.of_nat 4) (Sphere.of_nat 2)
                       (Sphere.of_nat 2) (Sphere.of_nat 2))).
Proof.
  refine (conj _ (conj _ (conj _ _))); try lia.
  apply (sphere_volume_layout 4 2 2 2); lia.
Defined.

Lemma sphere_upload_is_consistent_witness :
  let size := Sphere.of_nat 4 in
  let bytesPerRow := (size * 4)%float in
  truncate bytesPerRow = Z.of_nat 4 * 4 /\ truncate size = Z.of_nat 4
  /\ (1 < 4)%nat /\ (2 < 4)%nat /\ (3 < 4)%nat
  /\ uploaded_texel (Sphere.generateSphereVolume 4) (truncate bytesPerRow) (truncate size)
       (Z.of_nat 1) (Z.of_nat 2) (Z.of_nat 3)
     = number (fround (Sphere.density size (Sphere.of_nat 1)
                         (Sphere.of_nat 2) (Sphere.of_nat 3))).
Proof.
  intros size bytesPerRow.
  refine (conj eq_refl (conj eq_refl (conj _ (conj _ (conj _ _))))); try lia.
  apply (sphere_upload_is_consistent 4 1 2 3); [reflexivity|reflexivity|lia|lia|lia].
Defined.

Section SphereProgram.

Context `{Externals}.

Lemma sphere_render_trace (c : Closure) (log : list gpu_call) :
  match Sphere.render c log with
  | (Ok c', log') =>
      c' = with_scheduled true c
      /\ exists data, List.length data = 64%nat
                      /\ log' = (log ++ frame_calls data)%list
  | (Throw e, log') => log' = log
  end.
Proof.
  unfold Sphere.render.
  destruct (invViewProj (deriveMatrices c)) as [data|] eqn:E; [|reflexivity].
  unfold bind, call, ret; split; [reflexivity|].
  exists (buffer_of data); split.
  - unfold deriveMatrices in E; cbn [invViewProj] in E.
    rewrite buffer_of_length, (mat4_invert_length _ _ E); reflexivity.
  - unfold frame_calls; rewrite <- !app_assoc; reflexivity.
Qed.

(** X19. The demo makes its calls in one order: the generated volume is
    uploaded as a texture of 64 x 64 x 64 texels with 256 bytes per row
    and 64 rows per image, a uniform buffer of 64 bytes is created, and
    the first frame writes exactly 64 bytes into it before it draws. A
    run that throws has drawn nothing, and without an adapter no call is
    made at all. *)
Theorem sphere_main_uploads_then_draws (page : Page) :
  match Sphere.main page [] with
  | (Ok c, log) =>
      exists data,
        List.length data = 64%nat
        /\ log = [ createTexture [number 64; number 64; number 64];
                   writeTexture (Sphere.generateSphereVolume 64) 256 (number 64)
                     [number 64; number 64; number 64];
                   createBuffer 64;
                   writeBuffer data; draw 6 1 0 0; submit ]
  | (Throw e, log) =>
      if adapter page then existsb is_draw log = false else log = []
  end.
Proof.
  unfold Sphere.main, Sphere.createVolumeTexture, call_checked.
  assert (Hsize : Sphere.of_nat Sphere.size = 64%float) by (vm_compute; reflexivity).
  rewrite Hsize; change (64 * 4)%float with 256%float.
  assert (Hdims : forallb enforce_range_u32 [number 64; number 64; number 64] = true)
    by (vm_compute; reflexivity).
  assert (Hrow : enforce_range_u32 (number 256) = true) by (vm_compute; reflexivity).
  assert (Himg : enforce_range_u32 (number 64) = true) by (vm_compute; reflexivity).
  cbv beta iota zeta delta [bind call ret throw].
  destruct (adapter page); [|reflexivity].
  rewrite Hdims, Hrow, Himg; cbn [andb app].
  match goal with
  | |- context [Sphere.render ?c ?log] =>
      pose proof (sphere_render_trace c log) as Hr;
      destruct (Sphere.render c log) as [[c'|e] log']
  end.
  - destruct Hr as (_ & data & Hlen & ->); exists data; split; [exact Hlen|reflexivity].
  - subst log'; reflexivity.
Qed.

End SphereProgram.

Section SphereKernel.

Import Kernel.

Variables (volume : texture_3d) (inp : VertexOut).

Lemma sphere_march_fold (fuel : nat) :
  forall t st,
    Sphere.march fuel volume inp t st
    = option_map (fun ts => fold_left (Sphere.march_step volume inp) ts st)
        (Sphere.march_times fuel t).
Proof.
  induction fuel as [|fuel IH]; intros t st; simpl; [reflexivity|].
  destruct (t <? 2)%float; [|reflexivity].
  rewrite IH; destruct (Sphere.march_times fuel (add t Sphere.step)); reflexivity.
Qed.

Lemma sphere_march_times_run : Sphere.march_times 1000 0 = Some Sphere.marching_times.
Proof.
  unfold Sphere.marching_times.
  destruct (Sphere.march_times 1000 0) as [ts|] eqn:Hts; [reflexivity|].
  vm_compute in Hts; discriminate.
Qed.

Lemma sphere_fsMain_fold :
  Sphere.fsMain volume inp
  = (let '(sum, fetched) :=
       fold_left (Sphere.march_step volume inp) Sphere.marching_times (0%float, []) in
     Some ((sum, sum, sum, 1%float), fetched)).
Proof.
  unfold Sphere.fsMain; rewrite sphere_march_fold, sphere_march_times_run; reflexivity.
Qed.


Lemma sphere_fold_outside (ts : list float) :
  forall st,
    forallb (fun t => outside_unit_cube (Sphere.position_at inp t)) ts = true ->
    fold_left (Sphere.march_step volume inp) ts st = st.
Proof.
  induction ts as [|t ts IH]; intros st Hts; [reflexivity|].
  cbn [forallb] in Hts; apply andb_prop in Hts; destruct Hts as [Ht Hts].
  cbn [fold_left]; rewrite <- (IH st Hts) at 2; f_equal.
  unfold Sphere.march_step; destruct st as [sum fetched].
  rewrite (outside_guard _ Ht); reflexivity.
Qed.


(** X21. In the demo a ray that is outside the unit cube at every step
    gives the colour (0, 0, 0, 1), and the texture is not read for it. *)
Theorem sphere_missed_ray_is_black :
  forallb (fun t => outside_unit_cube (Sphere.position_at inp t))
    Sphere.marching_times = true ->
  Sphere.fsMain volume inp = Some ((0, 0, 0, 1)%float, []).
Proof.
  intros Hout; rewrite sphere_fsMain_fold, (sphere_fold_outside _ _ Hout); reflexivity.
Qed.

(** X22. On the far faces of the cube the demo reads one texel past the
    end: the guard lets a position with a coordinate of exactly 1
    through, and the texel asked for is the position times 64, so its
    coordinate is 64, while the texture [main] creates has the texels 0
    to 63 on every axis. *)
Theorem sphere_fetch_past_last_texel (st : float * list vec3u) (t : float) :
  let p := Sphere.position_at inp t in
  all_ge p (splat 0) && all_le p (splat 1) = true ->
  vx p = 1%float \/ vy p = 1%float \/ vz p = 1%float ->
  exists c,
    snd (Sphere.march_step volume inp st t) = (snd st ++ [c])%list
    /\ (ux c = 64 \/ uy c = 64 \/ uz c = 64).
Proof.
  intros p Hin Hface; unfold Sphere.march_step; destruct st as [sum fetched].
  fold p; rewrite Hin; cbn [snd].
  eexists; split; [reflexivity|].
  unfold to_vec3u, vmul, splat; cbn [ux uy uz vx vy vz].
  destruct Hface as [-> |[-> | ->]]; [left|right; left|right; right];
    vm_compute; reflexivity.
Qed.

End SphereKernel.

(** A ray that starts above the cube and points away from it. *)
Lemma sphere_missed_ray_is_black_witness :
  let inp := {| Kernel.rayOrigin := Kernel.Vec3f 0.5 1.5 0.5;
                Kernel.rayDir := Kernel.Vec3f 0 1 0 |} in
  forallb (fun t => outside_unit_cube (Sphere.position_at inp t))
    Sphere.marching_times = true
  /\ Sphere.fsMain (fun _ => 1%float) inp = Some ((0, 0, 0, 1)%float, []).
Proof.
  intros inp.
  assert (Hout : forallb (fun t => outside_unit_cube (Sphere.position_at inp t))
                   Sphere.marching_times = true) by (vm_compute; reflexivity).
  split; [exact Hout|].
  apply (sphere_missed_ray_is_black (fun _ => 1%float) inp Hout).
Defined.

(** A ray along the face x = 1 of the cube. *)
Lemma sphere_fetch_past_last_texel_witness :
  let inp := {| Kernel.rayOrigin := Kernel.Vec3f 1 0.5 0;
                Kernel.rayDir := Kernel.Vec3f 0 0 1 |} in
  let p := Sphere.position_at inp 0.5 in
  Kernel.all_ge p (Kernel.splat 0) && Kernel.all_le p (Kernel.splat 1) = true
  /\ (Kernel.vx p = 1%float \/ Kernel.vy p = 1%float \/ Kernel.vz p = 1%float)
  /\ exists c,
       snd (Sphere.march_step (fun _ => 1%float) inp (0%float, []) 0.5)
       = (snd (0%float, @nil Kernel.vec3u) ++ [c])%list
       /\ (Kernel.ux c = 64 \/ Kernel.uy c = 64 \/ Kernel.uz c = 64).
Proof.
  intros inp p.
  assert (Hin : Kernel.all_ge p (Kernel.splat 0) && Kernel.all_le p (Kernel.splat 1) = true)
    by (vm_compute; reflexivity).
  assert (Hface : Kernel.vx p = 1%float \/ Kernel.vy p = 1%float \/ Kernel.vz p = 1%float)
    by (left; vm_compute; reflexivity).
  refine (conj Hin (conj Hface _)).
  apply (sphere_fetch_past_last_texel (fun _ => 1%float) inp (0%float, []) 0.5%float Hin Hface).
Defined.

(** ** The vertex stage draws a quad over the whole target *)

(** X23. The six vertices of [vsMain] are two triangles that cover all
    of clip space's square [-1, 1] x [-1, 1]: every point of it, on a
    grid of any resolution, lies in the triangle of the vertices 0, 1, 2
    or in the triangle of the vertices 3, 4, 5. The two triangles meet
    in the diagonal, and the vertices at its ends get the same position
    and the same ray in both, whatever the matrix. *)
Theorem quad_covers_clip_space (invViewProj : list float) (n px py : Z) :
  0 < n -> - n <= px <= n -> - n <= py <= n ->
  Vertex.covers (Vertex.corner n 0) (Vertex.corner n 1) (Vertex.corner n 2) (px, py)
  || Vertex.covers (Vertex.corner n 3) (Vertex.corner n 4) (Vertex.corner n 5) (px, py)
  = true
  /\ Vertex.vsMain invViewProj 2 = Vertex.vsMain invViewProj 3
  /\ Vertex.vsMain invViewProj 1 = Vertex.vsMain invViewProj 4.
Proof.
  intros Hn Hx Hy; split; [|split; reflexivity].
  assert (Hc : forall i, Vertex.corner n i
                         = let '(u, v) := nth i Vertex.pos (0%float, 0%float) in
                           (n * truncate u, n * truncate v)) by reflexivity.
  rewrite !Hc; cbn [nth Vertex.pos].
  change (truncate (-1)) with (-1); change (truncate 1) with 1.
  unfold Vertex.covers, Vertex.edge; cbn [fst snd].
  destruct (Z.le_gt_cases (px + py) 0) as [Hd|Hd].
  - apply orb_true_iff; left.
    rewrite !andb_true_iff, !Z.leb_le; repeat split; nia.
  - apply orb_true_iff; right.
    rewrite !andb_true_iff, !Z.leb_le; repeat split; nia.
Qed.

(** The centre of the square and a point of the diagonal, on a grid of
    [1000] steps to the unit. *)
Lemma quad_covers_clip_space_witness :
  0 < 1000 /\ - 1000 <= 250 <= 1000 /\ - 1000 <= -250 <= 1000
  /\ Vertex.covers (Vertex.corner 1000 0) (Vertex.corner 1000 1) (Vertex.corner 1000 2)
       (250, -250)
     || Vertex.covers (Vertex.corner 1000 3) (Vertex.corner 1000 4) (Vertex.corner 1000 5)
          (250, -250)
     = true
  /\ Vertex.vsMain [] 2 = Vertex.vsMain [] 3
  /\ Vertex.vsMain [] 1 = Vertex.vsMain [] 4.
Proof.
  refine (conj _ (conj _ (conj _ _))); try lia.
  apply (quad_covers_clip_space [] 1000 250 (-250)); lia.
Defined.

(* ================================================================== *)
(** * Part IV: ingestion on an engine with limits, and the fetches
      against the dimensions *)
(* ================================================================== *)

(** ** Within its limits the engine runs the parser as the language
       defines it *)

Section Limits.

Context `{Engine}.

Lemma length_append (a b : string) :
  String.length (a ++ b) = (String.length a + String.length b)%nat.
Proof.
  induction a as [|c a IH]; [reflexivity|].
  cbn [append String.length]; rewrite IH; reflexivity.
Qed.

(** What the voxel section accumulates: its data lines, joined. *)
Lemma voxelLine_joined (lines : list string) :
  forall st,
    voxelLine (fold_left scan_line lines st)
    = voxelLine st ++ joined (section_lines "--voxel--" (section st) lines).
Proof.
  induction lines as [|line lines IH]; intros st.
  - cbn [fold_left section_lines joined].
    induction (voxelLine st) as [|c s IHs]; [reflexivity|].
    cbn [append]; rewrite <- IHs; reflexivity.
  - cbn [fold_left section_lines]; rewrite IH; clear IH.
    unfold scan_line, section_is.
    destruct (startsWith line "--"); [reflexivity|].
    destruct (section st) as [sec|] eqn:Hsec; [|rewrite Hsec; reflexivity].
    destruct (String.eqb_spec sec "--header--") as [Hh|Hh];
      [subst sec; reflexivity|].
    destruct (String.eqb_spec sec "--affine--") as [Ha|Ha];
      [subst sec; reflexivity|].
    destruct (String.eqb_spec sec "--voxel--") as [Hv|Hv].
    + subst sec; cbn [section voxelLine joined].
      rewrite ?String.eqb_refl, !append_assoc; reflexivity.
    + rewrite Hsec; reflexivity.
Qed.

(** The tokens of a section are the pieces of its data lines. *)
Lemma section_tokens_lines (name : string) (lines : list string) :
  forall current,
    section_tokens name current lines
    = flat_map (fun line => split SP (trim line)) (section_lines name current lines).
Proof.
  induction lines as [|line lines IH]; intros current; [reflexivity|].
  cbn [section_tokens section_lines].
  destruct (startsWith line "--"); [apply IH|].
  destruct current as [sec|]; [|apply IH].
  destruct (String.eqb sec name); [|apply IH].
  cbn [flat_map]; rewrite IH; reflexivity.
Qed.

(** The loop on the engine, from any state: while every line of the
    header and of the affine section spreads into one call and the
    joined voxel lines make a string, no turn throws. *)
Lemma scan_from_within (lines : list string) :
  forall st,
    forallb spreads (section_lines "--header--" (section st) lines) = true ->
    forallb spreads (section_lines "--affine--" (section st) lines) = true ->
    Z.of_nat (String.length
                (voxelLine st ++ joined (section_lines "--voxel--" (section st) lines)))
    <= string_limit ->
    OnEngine.scan_from lines st = Ok (fold_left scan_line lines st).
Proof.
  induction lines as [|line lines IH]; intros st Hh Ha Hv; [reflexivity|].
  cbn [OnEngine.scan_from fold_left].
  cbn [section_lines] in Hh, Ha, Hv.
  unfold OnEngine.scan_line, scan_line, section_is in *.
  destruct (startsWith line "--").
  { apply IH; assumption. }
  destruct (section st) as [sec|] eqn:Hsec.
  2:{ apply IH; rewrite Hsec; assumption. }
  destruct (String.eqb_spec sec "--header--") as [Eh|Eh].
  { subst sec; cbn [String.eqb Ascii.eqb Bool.eqb] in Ha, Hv.
    cbn [forallb] in Hh; apply andb_prop in Hh; destruct Hh as [Hl Hh].
    unfold OnEngine.push_spread, numbers_of; rewrite length_map.
    unfold spreads in Hl; rewrite Hl.
    apply IH; cbn [section voxelLine]; rewrite ?Hsec; assumption. }
  destruct (String.eqb_spec sec "--affine--") as [Ea|Ea].
  { subst sec; cbn [String.eqb Ascii.eqb Bool.eqb] in Hv.
    cbn [forallb] in Ha; apply andb_prop in Ha; destruct Ha as [Hl Ha].
    unfold OnEngine.push_spread, numbers_of; rewrite length_map.
    unfold spreads in Hl; rewrite Hl.
    apply IH; cbn [section voxelLine]; rewrite ?Hsec; assumption. }
  destruct (String.eqb_spec sec "--voxel--") as [Ev|Ev].
  { subst sec; cbn [joined] in Hv.
    unfold OnEngine.string_append.
    rewrite !length_append in Hv.
    assert (H1 : (Z.of_nat (String.length (trim line ++ " ")) <=? string_limit) = true)
      by (apply Z.leb_le; rewrite length_append; lia).
    rewrite H1.
    assert (H2 : (Z.of_nat (String.length (voxelLine st ++ trim line ++ " "))
                  <=? string_limit) = true)
      by (apply Z.leb_le; rewrite !length_append; lia).
    rewrite H2.
    apply IH; cbn [section voxelLine]; rewrite ?Hsec; try assumption.
    rewrite !length_append; lia. }
  apply String.eqb_neq in Eh, Ea, Ev.
  apply IH; rewrite Hsec, ?Eh, ?Ea, ?Ev; assumption.
Qed.

(** Within the limits the engine returns the record of the parser. *)
Lemma parseVoxelText_within (text : string) :
  within_limits text = true ->
  OnEngine.parseVoxelText text = Ok (parseVoxelText text).
Proof.
  unfold within_limits; cbv zeta; intros Hw.
  apply andb_prop in Hw; destruct Hw as [Hw Hvox].
  apply andb_prop in Hw; destruct Hw as [Hw Haff].
  apply andb_prop in Hw; destruct Hw as [Hargs Hstr].
  rewrite forallb_app in Hargs; apply andb_prop in Hargs; destruct Hargs as [Hh Ha].
  apply Z.leb_le in Hstr.
  unfold OnEngine.parseVoxelText.
  rewrite (scan_from_within (split LF text) scan0 Hh Ha Hstr).
  fold (scan_lines text).
  destruct (scan_collects (split LF text) scan0) as [_ Haffine].
  cbn [affineValues section scan0 app] in Haffine.
  fold (scan_lines text) in Haffine; fold (affine_tokens text) in Haffine.
  pose proof (voxelLine_joined (split LF text) scan0) as Hjoined.
  cbn [voxelLine section scan0 append] in Hjoined.
  fold (scan_lines text) in Hjoined; fold (voxel_joined text) in Hjoined.
  unfold OnEngine.Float32Array_from.
  rewrite Haffine at 1; rewrite length_map, Haff.
  rewrite Hjoined at 1; fold (voxel_tokens text); rewrite length_map, Hvox.
  reflexivity.
Qed.

(** The loop on the engine, from any state whose voxel line is a string:
    it throws a RangeError exactly when a line of the header or of the
    affine section does not spread into one call or the joined voxel
    lines make no string, and it runs as the language defines it
    otherwise. *)
Lemma scan_from_exact (lines : list string) :
  forall st,
    Z.of_nat (String.length (voxelLine st)) <= string_limit ->
    OnEngine.scan_from lines st
    = if forallb spreads (section_lines "--header--" (section st) lines)
         && forallb spreads (section_lines "--affine--" (section st) lines)
         && (Z.of_nat (String.length
                         (voxelLine st
                          ++ joined (section_lines "--voxel--" (section st) lines)))
             <=? string_limit)
      then Ok (fold_left scan_line lines st)
      else Throw RangeError.
Proof.
  induction lines as [|line lines IH]; intros st Hst.
  - cbn [OnEngine.scan_from fold_left section_lines forallb joined andb].
    rewrite append_nil_r.
    destruct (Z.leb_spec (Z.of_nat (String.length (voxelLine st))) string_limit);
      [reflexivity|lia].
  - cbn [OnEngine.scan_from fold_left section_lines].
    unfold OnEngine.scan_line, scan_line, section_is.
    destruct (startsWith line "--").
    { rewrite IH by exact Hst; reflexivity. }
    destruct (section st) as [sec|] eqn:Hsec.
    2:{ rewrite (IH st Hst), ?Hsec; reflexivity. }
    destruct (String.eqb_spec sec "--header--") as [Eh|Eh].
    { subst sec; cbn [String.eqb Ascii.eqb Bool.eqb forallb].
      unfold OnEngine.push_spread, numbers_of; rewrite length_map.
      fold (spreads line); destruct (spreads line); [|reflexivity].
      rewrite IH by exact Hst; cbn [section voxelLine andb]; rewrite ?Hsec; reflexivity. }
    destruct (String.eqb_spec sec "--affine--") as [Ea|Ea].
    { subst sec; cbn [String.eqb Ascii.eqb Bool.eqb forallb].
      unfold OnEngine.push_spread, numbers_of; rewrite length_map.
      fold (spreads line); destruct (spreads line).
      - rewrite IH by exact Hst; cbn [section voxelLine andb]; rewrite ?Hsec; reflexivity.
      - rewrite andb_false_r; reflexivity. }
    destruct (String.eqb_spec sec "--voxel--") as [Ev|Ev].
    { subst sec; cbn [joined].
      unfold OnEngine.string_append.
      destruct (Z.leb_spec (Z.of_nat (String.length (trim line ++ " "))) string_limit)
        as [H1|H1].
      2:{ rewrite !length_append in *.
          destruct (Z.leb_spec
                      (Z.of_nat (String.length (voxelLine st)
                                 + (String.length (trim line) + String.length " "
                                    + String.length
                                        (joined (section_lines "--voxel--"
                                                   (Some "--voxel--") lines))))%nat)
                      string_limit); [lia|].
          rewrite andb_false_r; reflexivity. }
      destruct (Z.leb_spec (Z.of_nat (String.length (voxelLine st ++ trim line ++ " ")))
                  string_limit) as [H2|H2].
      2:{ rewrite !length_append in *.
          destruct (Z.leb_spec
                      (Z.of_nat (String.length (voxelLine st)
                                 + (String.length (trim line) + String.length " "
                                    + String.length
                                        (joined (section_lines "--voxel--"
                                                   (Some "--voxel--") lines))))%nat)
                      string_limit); [lia|].
          rewrite andb_false_r; reflexivity. }
      rewrite IH by exact H2; cbn [section voxelLine]; rewrite ?Hsec, !append_assoc.
      reflexivity. }
    apply String.eqb_neq in Eh, Ea, Ev.
    rewrite (IH st Hst), ?Hsec, ?Eh, ?Ea, ?Ev; reflexivity.
Qed.

(** On an engine the parser returns exactly for the texts within the
    limits, with the record of the parser as the language defines it; for
    the others it throws a RangeError. *)
Lemma parseVoxelText_on_engine (text : string) :
  0 <= string_limit ->
  OnEngine.parseVoxelText text
  = if within_limits text then Ok (parseVoxelText text) else Throw RangeError.
Proof.
  intros Hlimit; unfold OnEngine.parseVoxelText, within_limits; cbv zeta.
  rewrite (scan_from_exact (split LF text) scan0 Hlimit).
  rewrite forallb_app.
  cbn [section voxelLine scan0 append]; fold (voxel_joined text).
  change (fun line : string =>
            Z.of_nat (List.length (split SP (trim line))) <=? argument_limit)
    with spreads.
  destruct (forallb spreads (section_lines "--header--" None (split LF text))
            && forallb spreads (section_lines "--affine--" None (split LF text))
            && (Z.of_nat (String.length (voxel_joined text)) <=? string_limit));
    [|reflexivity].
  fold (scan_lines text).
  destruct (scan_collects (split LF text) scan0) as [_ Haffine].
  cbn [affineValues section scan0 app] in Haffine.
  fold (scan_lines text) in Haffine; fold (affine_tokens text) in Haffine.
  pose proof (voxelLine_joined (split LF text) scan0) as Hjoined.
  cbn [voxelLine section scan0 append] in Hjoined.
  fold (scan_lines text) in Hjoined; fold (voxel_joined text) in Hjoined.
  unfold OnEngine.Float32Array_from.
  rewrite Haffine at 1; rewrite length_map.
  destruct (Z.of_nat (List.length (affine_tokens text)) <=? typed_array_limit);
    [|reflexivity].
  rewrite Hjoined at 1; fold (voxel_tokens text); rewrite length_map.
  destruct (Z.of_nat (List.length (voxel_tokens text)) <=? typed_array_limit);
    reflexivity.
Qed.

End Limits.

(** ** What the parser returns within the limits, and where it throws *)

Section Ingestion.

Context `{Engine}.

(** A header line of more tokens than a call takes arguments: the spread
    of [shape.push(...)] throws a RangeError. *)
Lemma long_header_line (tokens : list string) :
  line_ok tokens = true -> argument_limit < Z.of_nat (List.length tokens) ->
  OnEngine.parseVoxelText ("--header--" ++ newline ++ String.concat " " tokens)
  = Throw RangeError.
Proof.
  intros Hok Hlong; unfold OnEngine.parseVoxelText.
  change ("--header--" ++ newline ++ String.concat " " tokens)%string
    with ("--header--" ++ String LF (String.concat " " tokens))%string.
  rewrite (split_app LF "--header--" _ eq_refl).
  rewrite (split_no_sep LF _ (line_has_no_LF _ Hok)).
  cbn [OnEngine.scan_from].
  change (OnEngine.scan_line scan0 "--header--")
    with (Ok {| section := Some "--header--"; shape := []; affineValues := [];
                voxelLine := "" |}).
  cbv iota.
  unfold OnEngine.scan_line, section_is; cbn [section shape].
  rewrite (line_not_marker _ Hok).
  change (String.eqb "--header--" "--header--") with true; cbv iota.
  unfold OnEngine.push_spread, numbers_of.
  rewrite length_map, (trim_line _ Hok), (split_line _ Hok).
  destruct (Z.leb_spec (Z.of_nat (List.length tokens)) argument_limit); [lia|].
  reflexivity.
Qed.

Lemma line_ok_repeat (t : string) (n : nat) :
  token_ok t = true -> (0 < n)%nat -> line_ok (repeat t n) = true.
Proof.
  intros Ht Hn; destruct n as [|n]; [lia|].
  unfold line_ok; cbn [repeat].
  change (forallb token_ok (repeat t (S n)) = true).
  apply forallb_forall; intros x Hx.
  apply repeat_spec in Hx; subst x; exact Ht.
Qed.

End Ingestion.

(** C10. On an engine, the Form A parser returns a record and throws
    nothing for every text within the engine's limits: no line of the
    header or of the affine section has more tokens than a call takes
    arguments, the joined lines of the voxel section make a string, and
    the affine entries and the samples make typed arrays. For such a
    text, well-formed or not, [dims] has three components, each the
    header value at that place or [undefined] where the header has none;
    a text without the header section gives three [undefined], one
    without the affine section an empty [affine], one without the voxel
    section a [voxel] of the single entry 0; and every token of the text
    that is no numeric literal is a NaN entry: of [affine] and [voxel]
    at the token's place, and of [dims] when it is one of the first
    three of the header. *)
Theorem parseVoxelTxt_returns_within_limits `{Engine} (text : string) :
  within_limits text = true ->
  exists v,
    OnEngine.parseVoxelTxt (text_body text) = Ok v
    /\ (let s := map Number (header_tokens text) in
        dims v = [get s 1; get s 2; get s 0]
        /\ forall k, get s k = undefined <-> (List.length s <= k)%nat)
    /\ (section_missing "--header--" text = true ->
        dims v = [undefined; undefined; undefined])
    /\ (section_missing "--affine--" text = true -> affine v = [])
    /\ (section_missing "--voxel--" text = true -> voxel v = [0%float])
    /\ (forall k t, nth_error (header_tokens text) k = Some t ->
        is_numeric t = false -> get (map Number (header_tokens text)) k = number nan)
    /\ (forall k t, nth_error (affine_tokens text) k = Some t ->
        is_numeric t = false -> nth_error (affine v) k = Some nan)
    /\ (forall k t, nth_error (voxel_tokens text) k = Some t ->
        is_numeric t = false -> nth_error (voxel v) k = Some nan).
Proof.
  intros Hw.
  exists (parseVoxelText text); split; [exact (parseVoxelText_within text Hw)|].
  destruct (scan_collects (split LF text) scan0) as [Hshape Haffine].
  cbn [shape affineValues section scan0 app] in Hshape, Haffine.
  fold (scan_lines text) in Hshape, Haffine.
  fold (header_tokens text) in Hshape. fold (affine_tokens text) in Haffine.
  pose proof (voxelLine_joined (split LF text) scan0) as Hjoined.
  cbn [voxelLine section scan0 append] in Hjoined.
  fold (scan_lines text) in Hjoined; fold (voxel_joined text) in Hjoined.
  split.
  { cbv zeta; split; [|intros k; apply get_undefined].
    unfold parseVoxelText; cbn [dims]; rewrite Hshape; reflexivity. }
  split.
  { intros Hm; apply section_missing_fields in Hm; destruct Hm as (Hm & _ & _).
    unfold parseVoxelText; cbn [dims]; rewrite (Hm eq_refl); reflexivity. }
  split.
  { intros Hm; apply section_missing_fields in Hm; destruct Hm as (_ & Hm & _).
    unfold parseVoxelText; cbn [affine]; rewrite (Hm eq_refl); reflexivity. }
  split.
  { intros Hm; apply section_missing_fields in Hm; destruct Hm as (_ & _ & Hm).
    unfold parseVoxelText; cbn [voxel]; rewrite (Hm eq_refl); reflexivity. }
  split.
  { intros k t Hk Ht; unfold get.
    rewrite nth_error_map, Hk; cbn [option_map].
    rewrite (Number_not_numeric _ Ht); reflexivity. }
  split.
  { intros k t Hk Ht; unfold parseVoxelText; cbn [affine].
    rewrite Haffine; apply (nth_error_Float32Array _ _ _ Hk Ht). }
  intros k t Hk Ht; unfold parseVoxelText; cbn [voxel].
  rewrite Hjoined; apply (nth_error_Float32Array _ _ _ Hk Ht).
Qed.

(** A text with a word in the header and a word among the samples, and
    no affine section. *)
Lemma parseVoxelTxt_returns_within_limits_witness :
  @within_limits sample_engine text_with_words = true
  /\ exists v,
       @OnEngine.parseVoxelTxt sample_engine (text_body text_with_words) = Ok v
       /\ (let s := map Number (header_tokens text_with_words) in
           dims v = [get s 1; get s 2; get s 0]
           /\ forall k, get s k = undefined <-> (List.length s <= k)%nat)
       /\ (section_missing "--header--" text_with_words = true ->
           dims v = [undefined; undefined; undefined])
       /\ (section_missing "--affine--" text_with_words = true -> affine v = [])
       /\ (section_missing "--voxel--" text_with_words = true -> voxel v = [0%float])
       /\ (forall k t, nth_error (header_tokens text_with_words) k = Some t ->
           is_numeric t = false
           -> get (map Number (header_tokens text_with_words)) k = number nan)
       /\ (forall k t, nth_error (affine_tokens text_with_words) k = Some t ->
           is_numeric t = false -> nth_error (affine v) k = Some nan)
       /\ (forall k t, nth_error (voxel_tokens text_with_words) k = Some t ->
           is_numeric t = false -> nth_error (voxel v) k = Some nan).
Proof.
  split; [vm_compute; reflexivity|].
  apply (@parseVoxelTxt_returns_within_limits sample_engine text_with_words).
  vm_compute; reflexivity.
Defined.

(** C10 as stated fails on a header of 125001 numbers on one line, on an
    engine whose calls take 125000 arguments: the parser throws a
    RangeError and returns no record. *)
Lemma long_header_line_throws :
  @OnEngine.parseVoxelTxt sample_engine (text_body long_header_text) = Throw RangeError
  /\ ~ exists v, @OnEngine.parseVoxelTxt sample_engine (text_body long_header_text) = Ok v.
Proof.
  assert (Ht : @OnEngine.parseVoxelTxt sample_engine (text_body long_header_text)
               = Throw RangeError).
  { unfold OnEngine.parseVoxelTxt, long_header_text, long_header_tokens.
    apply (@long_header_line sample_engine).
    - apply line_ok_repeat; [reflexivity|lia].
    - rewrite repeat_length, Z2Nat.id by lia.
      change (@argument_limit sample_engine) with 125000; lia. }
  split; [exact Ht|].
  intros [v Hv]; rewrite Ht in Hv; discriminate Hv.
Qed.

(** ** A text without the affine section, and a singular matrix *)

Section Unchecked.

Context `{Engine} `{Externals}.


End Unchecked.







(** ** The fetches against the dimensions of the texture *)

Section WithinDims.

Lemma all_from_spec (f : Z -> bool) (count : nat) :
  forall n k, all_from count n f = true -> n <= k < n + Z.of_nat count -> f k = true.
Proof.
  induction count as [|count IH]; intros n k Hall Hk; [lia|].
  cbn [all_from] in Hall; apply andb_prop in Hall; destruct Hall as [Hn Hrest].
  destruct (Z.eq_dec k n) as [->|Hne]; [exact Hn|].
  apply (IH (n + 1) k Hrest); lia.
Qed.

(** For the dimensions 1 to 65536 the bound of the second guard, the
    binary32 [volumeDims - 1], is the integer [dims - 1]: checked on each
    of them. *)
Lemma top_texel_checked :
  all_from (Z.to_nat 65536) 1 (fun n => top_texel n =? n - 1) = true.
Proof. vm_compute; reflexivity. Qed.

Lemma top_texel_exact (n : Z) : 1 <= n <= 65536 -> top_texel n = n - 1.
Proof.
  intros Hn; apply Z.eqb_eq.
  apply (all_from_spec (fun n => top_texel n =? n - 1) (Z.to_nat 65536) 1 n
           top_texel_checked).
  rewrite Z2Nat.id; lia.
Qed.

Lemma texel_in_bounds_within (u : Kernel.Uniforms) (nx ny nz : Z) (c : Kernel.vec3u) :
  1 <= nx <= 65536 -> 1 <= ny <= 65536 -> 1 <= nz <= 65536 ->
  Kernel.volumeDims u
  = Kernel.Vec3f (fround (integer nx)) (fround (integer ny)) (fround (integer nz)) ->
  texel_in_bounds u c -> texel_within nx ny nz c.
Proof.
  intros Hx Hy Hz Hdims; unfold texel_in_bounds, texel_within; rewrite Hdims.
  change (Kernel.ux (Kernel.to_vec3u
            (Kernel.vsub (Kernel.Vec3f (fround (integer nx)) (fround (integer ny))
                            (fround (integer nz))) (Kernel.splat 1))))
    with (top_texel nx).
  change (Kernel.uy (Kernel.to_vec3u
            (Kernel.vsub (Kernel.Vec3f (fround (integer nx)) (fround (integer ny))
                            (fround (integer nz))) (Kernel.splat 1))))
    with (top_texel ny).
  change (Kernel.uz (Kernel.to_vec3u
            (Kernel.vsub (Kernel.Vec3f (fround (integer nx)) (fround (integer ny))
                            (fround (integer nz))) (Kernel.splat 1))))
    with (top_texel nz).
  rewrite (top_texel_exact nx Hx), (top_texel_exact ny Hy), (top_texel_exact nz Hz).
  cbv zeta; tauto.
Qed.

End WithinDims.

(** C7. The kernel returns for all uniform values, textures and rays,
    and every texel it has called [textureLoad] with lies within
    [0, b] on every axis, where [b] is the kernel's own bound of the
    second guard, the binary32 [volumeDims - 1]: a fetch outside that
    range is unreachable. When the dimensions are the integers [nx], [ny]
    and [nz], each from 1 to 65536, written as the host writes them (as
    binary32 values), the bound is [dims - 1] itself, and every fetched
    texel lies within [0, dims - 1] on every axis. *)
Theorem fetches_within_dims (u : Kernel.Uniforms) (volume : Kernel.texture_3d)
    (inp : Kernel.VertexOut) :
  exists color fetched,
    Kernel.fsMain u volume inp = Some (color, fetched)
    /\ Forall (texel_in_bounds u) fetched
    /\ forall nx ny nz,
         1 <= nx <= 65536 -> 1 <= ny <= 65536 -> 1 <= nz <= 65536 ->
         Kernel.volumeDims u
         = Kernel.Vec3f (fround (integer nx)) (fround (integer ny)) (fround (integer nz)) ->
         Forall (texel_within nx ny nz) fetched.
Proof.
  unfold Kernel.fsMain; rewrite march_fold.
  destruct (Kernel.march_times 1000 0) as [ts|] eqn:Hts;
    [|vm_compute in Hts; discriminate].
  cbn [option_map].
  pose proof (fold_march_step_fetches u volume inp ts (0%float, []) (Forall_nil _)) as Hf.
  destruct (fold_left (Kernel.march_step u volume inp) ts (0%float, [])) as [sum fetched].
  exists (sum, sum, sum, 1%float), fetched; split; [reflexivity|].
  cbn [snd] in Hf; split; [exact Hf|].
  intros nx ny nz Hx Hy Hz Hdims.
  apply (Forall_impl _ (fun c => texel_in_bounds_within u nx ny nz c Hx Hy Hz Hdims) Hf).
Qed.

(** A volume of 4 x 3 x 2 samples, and a ray in its face x = 1. *)
Lemma fetches_within_dims_witness :
  1 <= 4 <= 65536 /\ 1 <= 3 <= 65536 /\ 1 <= 2 <= 65536
  /\ exists color fetched,
       Kernel.fsMain dims_4_3_2_uniforms (fun _ => 1%float) face_ray
       = Some (color, fetched)
       /\ fetched <> []
       /\ Forall (texel_in_bounds dims_4_3_2_uniforms) fetched
       /\ Forall (texel_within 4 3 2) fetched.
Proof.
  refine (conj _ (conj _ (conj _ _))); try lia.
  destruct (fetches_within_dims dims_4_3_2_uniforms (fun _ => 1%float) face_ray)
    as (color & fetched & Hrun & Hb & Hd).
  exists color, fetched.
  refine (conj Hrun (conj _ (conj Hb _))).
  - intros ->; vm_compute in Hrun; discriminate Hrun.
  - apply (Hd 4 3 2); try lia; reflexivity.
Defined.

(** C7 as stated fails for the dimensions 16777220 x 1 x 1, each at
    least 1: in binary32 [volumeDims.x - 1] is 16777220 again, a ray in
    the face x = 1 of the volume passes both guards, and the kernel
    fetches the texel of x = 16777220, one past the last, 16777219. *)
Lemma fetch_beyond_dims :
  Kernel.volumeDims huge_dims_uniforms
  = Kernel.Vec3f (fround (integer 16777220)) (fround (integer 1)) (fround (integer 1))
  /\ exists color fetched,
       Kernel.fsMain huge_dims_uniforms (fun _ => 0%float) face_ray
       = Some (color, fetched)
       /\ In (Kernel.Vec3u 16777220 0 0) fetched
       /\ ~ Forall (texel_within 16777220 1 1) fetched.
Proof.
  split; [reflexivity|].
  assert (Hrun : exists color rest,
             Kernel.fsMain huge_dims_uniforms (fun _ => 0%float) face_ray
             = Some (color, Kernel.Vec3u 16777220 0 0 :: rest))
    by (do 2 eexists; vm_compute; reflexivity).
  destruct Hrun as (color & rest & Hrun).
  exists color, (Kernel.Vec3u 16777220 0 0 :: rest).
  split; [exact Hrun|].
  split; [left; reflexivity|].
  intros Hall; apply Forall_inv in Hall.
  destruct Hall as ((_ & Hx) & _); cbn in Hx; lia.
Qed.

(** ** The two forms of one volume *)

Section BothForms.

(** *** The tokens of the specification on the lines of a text *)

Lemma words_white_space (w : string) : all_white_space w = true -> words w = [].
Proof.
  induction w as [|c w IH]; [reflexivity|]; cbn [all_white_space words]; intros Hw.
  apply andb_prop in Hw; destruct Hw as [Hc Hw]; rewrite Hc; apply IH, Hw.
Qed.

Lemma words_padded (w s : string) :
  all_white_space w = true -> words (w ++ s) = words s.
Proof.
  induction w as [|c w IH]; [reflexivity|]; cbn [all_white_space]; intros Hw.
  apply andb_prop in Hw; destruct Hw as [Hc Hw].
  cbn [append words]; rewrite Hc; apply IH, Hw.
Qed.

(** A token, then nothing or white space: the token is the first word. *)
Lemma words_token (t s : string) :
  t <> "" -> no_white_space t = true ->
  match s with
  | EmptyString => True
  | String c _ => is_white_space c = true
  end ->
  words (t ++ s) = t :: words s.
Proof.
  induction t as [|a t IH]; [congruence|]; intros _ Ht Hs.
  cbn [no_white_space] in Ht; apply andb_prop in Ht; destruct Ht as [Ha Ht].
  apply negb_true_iff in Ha.
  cbn [append words]; rewrite Ha.
  destruct t as [|b t].
  - cbn [append]; destruct s as [|c s]; [reflexivity|].
    rewrite Hs; reflexivity.
  - specialize (IH ltac:(discriminate) Ht Hs).
    pose proof Ht as Hb; cbn [no_white_space] in Hb.
    apply andb_prop in Hb; destruct Hb as [Hb _]; apply negb_true_iff in Hb.
    change (String b t ++ s)%string with (String b (t ++ s)) in *.
    cbv iota; rewrite Hb, IH; reflexivity.
Qed.

Lemma white_space_head (w : string) :
  all_white_space w = true ->
  match w with
  | EmptyString => True
  | String c _ => is_white_space c = true
  end.
Proof.
  destruct w as [|c w]; [exact (fun _ => I)|]; cbn [all_white_space]; intros Hw.
  apply andb_prop in Hw; tauto.
Qed.

Lemma words_line (tokens : list string) (w : string) :
  line_ok tokens = true -> all_white_space w = true ->
  words (String.concat " " tokens ++ w) = tokens.
Proof.
  induction tokens as [|t tokens IH]; [discriminate|]; intros Hl Hw.
  cbn [line_ok forallb] in Hl; apply andb_prop in Hl; destruct Hl as [Ht Hr].
  apply token_ok_parts in Ht; destruct Ht as (Hne & Hns & _).
  destruct tokens as [|t' tokens].
  - cbn [String.concat].
    rewrite (words_token t w Hne Hns (white_space_head w Hw)), (words_white_space w Hw).
    reflexivity.
  - change (String.concat " " (t :: t' :: tokens))
      with (t ++ (" " ++ String.concat " " (t' :: tokens)))%string.
    rewrite !append_assoc.
    change (" " ++ String.concat " " (t' :: tokens) ++ w)%string
      with (String " " (String.concat " " (t' :: tokens) ++ w)).
    rewrite (words_token t (String " " (String.concat " " (t' :: tokens) ++ w))
               Hne Hns eq_refl).
    cbn [words]; change (is_white_space " ") with true; cbv iota.
    rewrite (IH Hr Hw); reflexivity.
Qed.

Lemma filter_tokens (tokens : list string) :
  forallb token_ok tokens = true -> filter nonempty tokens = tokens.
Proof.
  induction tokens as [|t tokens IH]; [reflexivity|]; intros H.
  cbn [forallb] in H; apply andb_prop in H; destruct H as [Ht Hr].
  apply token_ok_parts in Ht; destruct Ht as (Hne & _).
  apply String.eqb_neq in Hne.
  cbn [filter]; unfold nonempty at 1; rewrite Hne, (IH Hr); reflexivity.
Qed.

(** The words of a data line are its pieces, the empty one of a blank
    line apart. *)
Lemma words_data_line (l : data_line) :
  data_line_ok l = true -> words (data_line_text l) = filter nonempty (pieces l).
Proof.
  destruct l as [lead tokens trail|w]; cbn [data_line_text pieces].
  - intros H; apply data_line_parts in H; destruct H as (Ha & Hl & Hb).
    apply padding_parts in Ha, Hb; destruct Ha as [Ha _], Hb as [Hb _].
    rewrite (words_padded lead _ Ha), (words_line tokens trail Hl Hb).
    symmetry; apply filter_tokens.
    destruct tokens; [discriminate|exact Hl].
  - cbn [data_line_ok]; intros H; apply padding_parts in H; destruct H as [Hw _].
    rewrite (words_white_space w Hw); reflexivity.
Qed.

Lemma words_data_lines (ls : list data_line) :
  forallb data_line_ok ls = true ->
  flat_map words (map data_line_text ls) = filter nonempty (flat_map pieces ls).
Proof.
  induction ls as [|l ls IH]; [reflexivity|]; intros H.
  cbn [forallb] in H; apply andb_prop in H; destruct H as [Hl Hr].
  cbn [map flat_map]; rewrite filter_app, (words_data_line l Hl), (IH Hr); reflexivity.
Qed.

(** Words are cut at any run of white space, whatever it is made of. *)
Example words_example :
  words (String " " ("5  7" ++ String "009" ("8" ++ String CR ""))) = ["5"; "7"; "8"].
Proof. reflexivity. Qed.

(** *** The lines of a section of a text of blocks *)

Lemma section_lines_data (name : string) (current : option string)
    (ls : list data_line) (rest : list string) :
  forallb data_line_ok ls = true ->
  section_lines name current (map data_line_text ls ++ rest)
  = ((if match current with
         | Some sec => String.eqb sec name
         | None => false
         end
      then map data_line_text ls else [])
     ++ section_lines name current rest)%list.
Proof.
  induction ls as [|l ls IH]; intros H.
  - destruct (match current with Some sec => String.eqb sec name | None => false end);
      reflexivity.
  - cbn [forallb] in H; apply andb_prop in H; destruct H as [Hl Hr].
    cbn [map app section_lines]; rewrite (data_line_not_marker l Hl), (IH Hr).
    destruct (match current with Some sec => String.eqb sec name | None => false end);
      reflexivity.
Qed.

Lemma marker_line (n : section_name) (w : string) :
  name_ok n = true -> padding_ok w = true ->
  startsWith (marker_text n ++ w) "--" = true
  /\ trim (marker_text n ++ w) = marker_text n.
Proof.
  intros Hn Hw; apply padding_parts in Hw; destruct Hw as [Hw _].
  destruct (marker_props n Hn) as (Hs & Hns & _).
  split.
  - rewrite startsWith_dashes in *.
    destruct (marker_text n) as [|a [|b r]]; [discriminate|discriminate|exact Hs].
  - unfold trim.
    assert (Hfirst : trimStart (marker_text n ++ w) = (marker_text n ++ w)%string).
    { rewrite startsWith_dashes in Hs.
      destruct (marker_text n) as [|a r]; [discriminate|].
      cbn [no_white_space] in Hns; apply andb_prop in Hns; destruct Hns as [Ha _].
      apply negb_true_iff in Ha; cbn [append trimStart]; rewrite Ha; reflexivity. }
    rewrite Hfirst, trimEnd_app_white_space by exact Hw.
    apply trimEnd_token, Hns.
Qed.

Lemma marker_is_section (n m : section_name) :
  name_ok m = true -> is_section n n = true ->
  String.eqb (marker_text m) (marker_text n) = is_section n m.
Proof.
  intros Hm Hn; destruct (marker_props m Hm) as (_ & _ & H).
  destruct (H n) as [->|[name ->]]; [reflexivity|discriminate Hn].
Qed.

Lemma section_lines_blocks (n : section_name) (bs : list block) :
  is_section n n = true -> forallb block_ok bs = true ->
  forall current,
    section_lines (marker_text n) current (flat_map block_text_lines bs)
    = map data_line_text (section_data_lines n bs).
Proof.
  intros Hn; induction bs as [|b bs IH]; intros Hbs current; [reflexivity|].
  cbn [forallb] in Hbs; apply andb_prop in Hbs; destruct Hbs as [Hb Hbs].
  unfold block_ok in Hb; apply andb_prop in Hb; destruct Hb as [Hb Hls].
  apply andb_prop in Hb; destruct Hb as [Hname Htrail].
  destruct (marker_line _ _ Hname Htrail) as [Hstart Htrim].
  unfold section_data_lines; cbn [flat_map]; unfold block_text_lines at 1.
  cbn [app section_lines]; rewrite Hstart, Htrim.
  rewrite (section_lines_data _ _ _ _ Hls), (marker_is_section n _ Hname Hn).
  rewrite (IH Hbs), map_app.
  destruct (is_section n (block_name b)); reflexivity.
Qed.

Lemma section_data_lines_ok (n : section_name) (bs : list block) :
  forallb block_ok bs = true -> forallb data_line_ok (section_data_lines n bs) = true.
Proof.
  induction bs as [|b bs IH]; [reflexivity|]; intros Hbs.
  cbn [forallb] in Hbs; apply andb_prop in Hbs; destruct Hbs as [Hb Hbs].
  unfold section_data_lines; cbn [flat_map]; rewrite forallb_app.
  fold (section_data_lines n bs); rewrite (IH Hbs), andb_true_r.
  destruct (is_section n (block_name b)); [|reflexivity].
  unfold block_ok in Hb; apply andb_prop in Hb; tauto.
Qed.

Lemma section_data_lines_pieces (n : section_name) (bs : list block) :
  flat_map pieces (section_data_lines n bs) = section_pieces n bs.
Proof.
  induction bs as [|b bs IH]; [reflexivity|].
  unfold section_data_lines; cbn [flat_map]; rewrite flat_map_app.
  fold (section_data_lines n bs); rewrite IH, section_pieces_cons.
  destruct (is_section n (block_name b)); reflexivity.
Qed.

Lemma split_blocks_text (pre : list data_line) (bs : list block) :
  forallb data_line_ok pre = true -> forallb block_ok bs = true ->
  blocks_lines pre bs <> [] ->
  split LF (blocks_text pre bs) = blocks_lines pre bs.
Proof.
  intros Hpre Hbs Hne; unfold blocks_text.
  change newline with (String LF ""); apply split_concat; [exact Hne|].
  apply blocks_lines_no_LF; assumption.
Qed.

(** The tokens of a section of a text of blocks, as the specification
    words them: the pieces of its lines but the empty ones. *)
Lemma spec_section_tokens_blocks (n : section_name) (pre : list data_line)
    (bs : list block) :
  is_section n n = true ->
  forallb data_line_ok pre = true -> forallb block_ok bs = true ->
  spec_section_tokens (marker_text n) (blocks_text pre bs)
  = filter nonempty (section_pieces n bs).
Proof.
  intros Hn Hpre Hbs; unfold spec_section_tokens.
  destruct (blocks_lines pre bs) as [|l ls] eqn:E.
  - unfold blocks_text; rewrite E.
    unfold blocks_lines in E; apply app_eq_nil in E; destruct E as [_ E].
    destruct bs as [|b bs]; [reflexivity|discriminate E].
  - rewrite (split_blocks_text pre bs Hpre Hbs) by (rewrite E; discriminate).
    unfold blocks_lines.
    rewrite (section_lines_data _ None pre _ Hpre); cbn [app].
    rewrite (section_lines_blocks n bs Hn Hbs).
    rewrite (words_data_lines _ (section_data_lines_ok n bs Hbs)).
    rewrite section_data_lines_pieces; reflexivity.
Qed.

(** *** Pieces without a stray blank are the tokens *)

Lemma filter_nonempty_all (p : list string) :
  forallb nonempty p = true -> filter nonempty p = p.
Proof.
  induction p as [|x p IH]; [reflexivity|]; intros H.
  cbn [forallb] in H; apply andb_prop in H; destruct H as [Hx Hr].
  cbn [filter]; rewrite Hx, (IH Hr); reflexivity.
Qed.

Lemma filter_drop_blank (p : list string) :
  filter nonempty (drop_blank p) = filter nonempty p.
Proof.
  induction p as [|x p IH]; [reflexivity|].
  destruct x as [|c x]; [exact IH|reflexivity].
Qed.

Lemma filter_drop_blank_end (p : list string) :
  filter nonempty (drop_blank_end p) = filter nonempty p.
Proof.
  induction p as [|x p IH]; [reflexivity|].
  cbn [drop_blank_end filter]; rewrite <- IH.
  destruct (drop_blank_end p) as [|y r].
  - unfold nonempty; destruct (String.eqb x "") eqn:Ex; cbn [filter negb];
      rewrite ?Ex; reflexivity.
  - reflexivity.
Qed.

Lemma no_stray_blank_parts (bs : list block) :
  no_stray_blank bs = true ->
  filter nonempty (section_pieces Header bs) = section_pieces Header bs
  /\ filter nonempty (section_pieces Affine bs) = section_pieces Affine bs
  /\ filter nonempty (section_pieces Voxel bs) = voxel_pieces bs.
Proof.
  unfold no_stray_blank, voxel_pieces; intros H.
  apply andb_prop in H; destruct H as [H Hv].
  apply andb_prop in H; destruct H as [Hh Ha].
  split; [apply filter_nonempty_all, Hh|].
  split; [apply filter_nonempty_all, Ha|].
  rewrite <- filter_drop_blank, <- filter_drop_blank_end.
  destruct (drop_blank_end (drop_blank (section_pieces Voxel bs))) as [|x q];
    [discriminate|].
  apply filter_nonempty_all, Hv.
Qed.

End BothForms.

(** C3. A Form A text and a Form B document that describe the same
    volume load to the same record: the same [dims], the same [affine]
    array and the same [voxel] array, element by element and in the same
    order, when the text is laid out as the parser reads it. The text is
    any sequence of sections, in any order, with lines before the first
    marker, sections with another marker and sections opened again; on a
    line the tokens are separated by one space, with white space
    (carriage returns too) before the first and after the last; no
    blank line stands in the header or in the affine section or between
    two samples (so a line terminator ends the text only after the
    samples or after a section with another marker), and there is a
    sample. The text is within the engine's limits. That it describes the volume is said in the specification's
    words: the whitespace-delimited tokens of its sections are the
    numbers of the document. *)
Theorem formA_formB_agree `{Engine} (pre : list data_line) (bs : list block)
    (v : LogicalVolume) :
  forallb data_line_ok pre = true -> forallb block_ok bs = true ->
  no_stray_blank bs = true ->
  within_limits (blocks_text pre bs) = true ->
  describes_volume (blocks_text pre bs) v ->
  OnEngine.parseVoxelTxt (text_body (blocks_text pre bs))
  = loadVolumeJSON (json_body (formB_document v)).
Proof.
  intros Hpre Hbs Hblank Hw (Hs & Haff & Hvox).
  destruct (no_stray_blank_parts bs Hblank) as (Fh & Fa & Fv).
  pose proof (spec_section_tokens_blocks Header pre bs eq_refl Hpre Hbs) as Th.
  pose proof (spec_section_tokens_blocks Affine pre bs eq_refl Hpre Hbs) as Ta.
  pose proof (spec_section_tokens_blocks Voxel pre bs eq_refl Hpre Hbs) as Tv.
  cbn [marker_text] in Th, Ta, Tv.
  rewrite Th, Fh in Hs; rewrite Ta, Fa in Haff; rewrite Tv, Fv in Hvox.
  cbn [OnEngine.parseVoxelTxt].
  rewrite (parseVoxelText_within _ Hw), (parseVoxelText_blocks pre bs Hpre Hbs).
  unfold loadVolumeJSON, loadVolumeDocument, formB_document;
    cbn [doc_shape doc_affine doc_voxel_data].
  rewrite flat_one_rows, flat_slices, !Float32Array_of_numbers, Hs, Haff, Hvox.
  reflexivity.
Qed.

(** The volume of depth 2, height 3 and width 4, with the samples
    before the header, lines that end with carriage returns, and a
    section the parser does not know. *)
Lemma formA_formB_agree_witness :
  forallb data_line_ok [tokens_line "" ["sample"; "volume"] ""] = true
  /\ forallb block_ok blocks_2_3_4 = true
  /\ no_stray_blank blocks_2_3_4 = true
  /\ @within_limits sample_engine
       (blocks_text [tokens_line "" ["sample"; "volume"] ""] blocks_2_3_4) = true
  /\ describes_volume (blocks_text [tokens_line "" ["sample"; "volume"] ""] blocks_2_3_4)
       volume_2_3_4
  /\ @OnEngine.parseVoxelTxt sample_engine
       (text_body (blocks_text [tokens_line "" ["sample"; "volume"] ""] blocks_2_3_4))
     = loadVolumeJSON (json_body (formB_document volume_2_3_4)).
Proof.
  assert (Hd : describes_volume
                 (blocks_text [tokens_line "" ["sample"; "volume"] ""] blocks_2_3_4)
                 volume_2_3_4)
    by (repeat split; vm_compute; reflexivity).
  refine (conj _ (conj _ (conj _ (conj _ (conj Hd _)))));
    [vm_compute; reflexivity|vm_compute; reflexivity|vm_compute; reflexivity
    |vm_compute; reflexivity|].
  apply (@formA_formB_agree sample_engine [tokens_line "" ["sample"; "volume"] ""]
           blocks_2_3_4 volume_2_3_4);
    [vm_compute; reflexivity|vm_compute; reflexivity|vm_compute; reflexivity
    |vm_compute; reflexivity|exact Hd].
Defined.

(** C3 as stated fails on a text with two spaces between two samples.
    The volume of one row of the two samples 5 and 7 is valid, and the
    text describes it: its whitespace-delimited tokens are the shape
    1 1 2, the identity matrix and the samples 5 and 7. The parser cuts
    the samples at every space and returns the three samples 5, 0, 7,
    where the document gives the two. *)
Lemma two_spaces_differ :
  valid_volume volume_1_1_2 = true
  /\ describes_volume text_two_spaces volume_1_1_2
  /\ @within_limits sample_engine text_two_spaces = true
  /\ (exists a b,
        @OnEngine.parseVoxelTxt sample_engine (text_body text_two_spaces) = Ok a
        /\ loadVolumeJSON (json_body (formB_document volume_1_1_2)) = Ok b
        /\ dims a = dims b /\ affine a = affine b
        /\ List.length (voxel a) = 3%nat /\ List.length (voxel b) = 2%nat)
  /\ @OnEngine.parseVoxelTxt sample_engine (text_body text_two_spaces)
     <> loadVolumeJSON (json_body (formB_document volume_1_1_2)).
Proof.
  split; [vm_compute; reflexivity|].
  split; [repeat split; vm_compute; reflexivity|].
  split; [vm_compute; reflexivity|].
  split.
  - do 2 eexists.
    split; [vm_compute; reflexivity|].
    split; [vm_compute; reflexivity|].
    repeat split; reflexivity.
  - intros Heq.
    apply (f_equal (fun r => match r with
                             | Ok a => List.length (voxel a)
                             | Throw _ => 0%nat
                             end)) in Heq.
    vm_compute in Heq; discriminate Heq.
Qed.
